(** * problemgen: the dual-track expression combination engine

    A shallow embedding of [problemgen.py]: the [Term] and [Expression]
    classes, the recursive [combine_terms] algorithm, zero pruning, the
    closure operators and the text renderers of [Problem].

    Python values are modelled as follows.
    - A Python list is a [list]; indices are [Z] wherever the source can
      compute a negative one (Python wraps them around), and every index
      operation that Python checks returns an [outcome].
    - A Python [str] of plain ASCII tokens is a [string]; texts that hold
      the code points U+220A and U+222A are lists of code points.
    - Exceptions are the [Raise] branch of [outcome]; the implicit
      [return None] of a function that falls off its end is the Python
      value [None], here the [None] of [pyval].
    - The list of operations of an [Expression] is stored by reference
      ([self.operations = operations]); it lives in a heap of list
      objects. The two term lists are copied on construction and are
      plain values. *)

From Stdlib Require Import ZArith Lia Bool Ascii String.
From stdpp Require Import base tactics option list strings pretty gmap.

Local Open Scope string_scope.
Local Open Scope list_scope.
Local Open Scope Z_scope.

(** ** Exceptions and outcomes *)

Inductive exn : Set :=
  | AssertionError
  | IndexError
  | TypeError
  | AttributeError.

Inductive outcome (A : Type) : Type :=
  | Return (a : A)
  | Raise (e : exn).
Arguments Return {A} a.
Arguments Raise {A} e.

#[global] Instance outcome_ret : MRet outcome := fun A a => Return a.
#[global] Instance outcome_bind : MBind outcome := fun A B k m =>
  match m with
  | Return a => k a
  | Raise e => Raise e
  end.

(** ** Python list primitives *)

Module Py.
Section Lists.
Context {A : Type}.

(** [l[i]] for a possibly negative [i]: the position it denotes. *)
Definition norm_index (l : list A) (i : Z) : option nat :=
let n := Z.of_nat (length l) in
if (0 <=? i) && (i <? n) then Some (Z.to_nat i)
else if (- n <=? i) && (i <? 0) then Some (Z.to_nat (n + i))
else None.

Definition getitem (l : list A) (i : Z) : outcome A :=
match norm_index l i with
| Some k => match l !! k with
            | Some x => Return x
            | None => Raise IndexError
            end
| None => Raise IndexError
end.

(** [l[i] = x] *)
Definition setitem (l : list A) (i : Z) (x : A) : outcome (list A) :=
match norm_index l i with
| Some k => Return (<[k:=x]> l)
| None => Raise IndexError
end.

(** [del l[i]] *)
Definition delitem (l : list A) (i : Z) : outcome (list A) :=
match norm_index l i with
| Some k => Return (delete k l)
| None => Raise IndexError
end.

(** A slice bound, clamped the way Python clamps it. *)
Definition clamp (l : list A) (i : Z) : nat :=
let n := Z.of_nat (length l) in
if i <? 0 then Z.to_nat (Z.max 0 (n + i)) else Z.to_nat (Z.min i n).

(** [l[lo:hi]] *)
Definition slice (l : list A) (lo hi : Z) : list A :=
take (clamp l hi - clamp l lo)%nat (drop (clamp l lo) l).

(** [del l[lo:hi]] *)
Definition delslice (l : list A) (lo hi : Z) : list A :=
take (clamp l lo) l ++ drop (Nat.max (clamp l lo) (clamp l hi)) l.

(** [l.insert(i, x)] for [i >= 0] *)
Definition insert (l : list A) (i : nat) (x : A) : list A :=
take i l ++ x :: drop i l.
End Lists.

(** [c in s] for a one-character [c] *)
Fixpoint contains (c : ascii) (s : string) : bool :=
match s with
| EmptyString => false
| String d s' => if Ascii.eqb c d then true else contains c s'
end.

(** [s.replace(c, '')] for a one-character [c] *)
Fixpoint remove_char (c : ascii) (s : string) : string :=
match s with
| EmptyString => EmptyString
| String d s' =>
    if Ascii.eqb c d then remove_char c s' else String d (remove_char c s')
end.

(** [ops.index(tok)], [None] when [tok not in ops] *)
Fixpoint index_from (k : nat) (tok : string) (ops : list string) : option nat :=
match ops with
| [] => None
| o :: ops' => if String.eqb o tok then Some k else index_from (S k) tok ops'
end.
Definition index (tok : string) (ops : list string) : option nat :=
index_from 0 tok ops.

(** [[i for i in range(len(ops)) if c in ops[i]]] *)
Fixpoint locs_from (k : nat) (c : ascii) (ops : list string) : list nat :=
match ops with
| [] => []
| o :: ops' =>
    if contains c o then k :: locs_from (S k) c ops'
    else locs_from (S k) c ops'
end.
Definition locs (c : ascii) (ops : list string) : list nat :=
locs_from 0 c ops.
End Py.

(** ** The symbolic engine (SymPy) and class [Term] *)

(** The engine is an external collaborator: values of an opaque type with
    the five binary operations, [expand], the two renderers and the test
    [v == 0].

    The operations are functions. An exception that the engine raises on
    particular values (Python's [ZeroDivisionError] on [1/0], say) is not
    modelled: where the code applies an operation, the model has its
    result. What is proved about [combine_terms] and its callers is
    therefore stated through the same operations: which operation is
    applied to which values, and in which order; whether an operation of
    the engine returns is not part of any statement. *)
Class SymbolicEngine (V : Type) := {
  eng_add : V -> V -> V;
  eng_sub : V -> V -> V;
  eng_mul : V -> V -> V;
  eng_div : V -> V -> V;
  eng_pow : V -> V -> V;
  eng_expand : V -> V;
  eng_latex : V -> string;
  eng_str : V -> string;
  eng_is_zero : V -> bool
}.

Record Term (V : Type) : Type := mkTerm {
  sympy_term : V;
  latex_term : string;
  str_term : string
}.
Arguments mkTerm {V} _ _ _.
Arguments sympy_term {V} _.
Arguments latex_term {V} _.
Arguments str_term {V} _.

(** Truth value of the name [expand] inside the operator methods of
    [Term]. The constructor's parameter [expand] is not stored on the
    object and is not in scope in the methods, so the name resolves to the
    module-level function brought in by [from sympy import *]; a function
    object is truthy. *)
Definition expand_name_truth : bool := true.

(** A Python value held in a list of terms: a [Term] object or [None]. *)
Abbreviation pyval V := (option (Term V)).

Section TermClass.
Context {V : Type} `{SymbolicEngine V}.

(** [Term.__init__(self, sympy_term, expand=True)] *)
Definition Term_init (v : V) (expand : bool) : Term V :=
  {| sympy_term := v; latex_term := eng_latex v; str_term := eng_str v |}.

Definition Term_binop (f : V -> V -> V) (self other : Term V) : Term V :=
  if negb expand_name_truth
  then Term_init (f (sympy_term self) (sympy_term other)) true
  else Term_init (eng_expand (f (sympy_term self) (sympy_term other))) true.

Definition Term_add := Term_binop eng_add.
Definition Term_sub := Term_binop eng_sub.
Definition Term_mul := Term_binop eng_mul.
Definition Term_truediv := Term_binop eng_div.
Definition Term_pow := Term_binop eng_pow.

(** [a <op> b] on Python values. With [None] on the left the operator
    finds no method ([TypeError]); with a [Term] on the left the method
    runs and reads [other.sympy_term] ([AttributeError] on [None]). *)
Definition py_binop (f : Term V -> Term V -> Term V) (a b : pyval V)
  : outcome (pyval V) :=
  match a, b with
  | Some x, Some y => Return (Some (f x y))
  | Some _, None => Raise AttributeError
  | None, _ => Raise TypeError
  end.

(** ** [Expression.combine_terms] *)

(** The loop that picks the closing mark nearest to the last opening
    mark: the state is [(closest_dist, closest_loc)]. *)
Definition closest_step (last_open : nat) (st : Z * Z) (r : nat) : Z * Z :=
  let distance := Z.of_nat r - Z.of_nat last_open in
  if (0 <? distance) && (distance <? fst st) then (distance, Z.of_nat r)
  else st.
Definition closest_loc (last_open : nat) (right_most_locs : list nat) : Z :=
  snd (foldl (closest_step last_open) (10000, -1) right_most_locs).

(** Arguments of the recursive call on the enclosed group. *)
Definition group_inner (terms : list (pyval V)) (ops : list string)
    (L : nat) (c : Z) : list (pyval V) * list string :=
  (Py.slice terms (Z.of_nat L) c,
   [""] ++ Py.slice ops (Z.of_nat L + 1) c ++ [""]).

(** Splicing [new_term] back: the arguments of the outer recursive
    call. *)
Definition group_outer (terms : list (pyval V)) (ops : list string)
    (L : nat) (c : Z) (new_term : pyval V)
  : outcome (list (pyval V) * list string) :=
  let ops1 := Py.delslice ops (Z.of_nat L + 1) c in
  let terms1 := Py.delslice terms (Z.of_nat L) c in
  let terms2 := Py.insert terms1 L new_term in
  o ← Py.getitem ops1 (Z.of_nat L);
  ops2 ← Py.setitem ops1 (Z.of_nat L) (Py.remove_char "(" o);
  o' ← Py.getitem ops2 (Z.of_nat L + 1);
  ops3 ← Py.setitem ops2 (Z.of_nat L + 1) (Py.remove_char ")" o');
  Return (terms2, ops3).

(** The four statements shared by the five operator cases:
    [del ops[loc]; terms[loc] = terms[loc-1] <op> terms[loc];
     del terms[loc-1]]. *)
Definition apply_binop (f : Term V -> Term V -> Term V) (loc : nat)
    (terms : list (pyval V)) (ops : list string)
  : outcome (list (pyval V) * list string) :=
  ops' ← Py.delitem ops (Z.of_nat loc);
  a ← Py.getitem terms (Z.of_nat loc - 1);
  b ← Py.getitem terms (Z.of_nat loc);
  v ← py_binop f a b;
  terms1 ← Py.setitem terms (Z.of_nat loc) v;
  terms' ← Py.delitem terms1 (Z.of_nat loc - 1);
  Return (terms', ops').

(** One pass through the exponent, mul/div and add/sub cases. [None]
    means that no case applied: the function reaches its end. *)
Definition addsub_step (terms : list (pyval V)) (ops : list string)
  : option (outcome (list (pyval V) * list string)) :=
  match Py.index "+" ops, Py.index "-" ops with
  | Some a, Some s =>
      if (a <? s)%nat then Some (apply_binop Term_add a terms ops)
      else if (s <? a)%nat then Some (apply_binop Term_sub s terms ops)
      else None
  | Some a, None => Some (apply_binop Term_add a terms ops)
  | None, Some s => Some (apply_binop Term_sub s terms ops)
  | None, None => None
  end.

Definition muldiv_step (terms : list (pyval V)) (ops : list string)
  : option (outcome (list (pyval V) * list string)) :=
  match Py.index "*" ops, Py.index "/" ops with
  | Some m, Some d =>
      if (m <? d)%nat then Some (apply_binop Term_mul m terms ops)
      else if (d <? m)%nat then Some (apply_binop Term_truediv d terms ops)
      else addsub_step terms ops
  | Some m, None => Some (apply_binop Term_mul m terms ops)
  | None, Some d => Some (apply_binop Term_truediv d terms ops)
  | None, None => addsub_step terms ops
  end.

Definition arith_step (terms : list (pyval V)) (ops : list string)
  : option (outcome (list (pyval V) * list string)) :=
  match Py.index "^" ops with
  | Some caret_loc => Some (apply_binop Term_pow caret_loc terms ops)
  | None => muldiv_step terms ops
  end.

(** [combine_terms], with the depth of the recursion bounded by [fuel];
    the outer [None] is reserved for an exhausted bound. *)
Fixpoint combine_fuel (fuel : nat) (terms : list (pyval V)) (ops : list string)
  : option (outcome (pyval V)) :=
  match fuel with
  | O => None
  | S fuel =>
      if negb (length ops =? length terms + 1)%nat
      then Some (Raise AssertionError)
      else
      match terms with
      | [t] => Some (Return t)
      | _ =>
        let left_most_locs := Py.locs "(" ops in
        let right_most_locs := Py.locs ")" ops in
        if negb (length left_most_locs =? length right_most_locs)%nat
        then Some (Raise AssertionError)
        else
        match last left_most_locs with
        | Some L =>
            match head left_most_locs, head right_most_locs with
            | Some l0, Some r0 =>
                if negb (l0 <? r0)%nat then Some (Raise AssertionError)
                else
                let c := closest_loc L right_most_locs in
                let '(in_terms, new_ops) := group_inner terms ops L c in
                match combine_fuel fuel in_terms new_ops with
                | None => None
                | Some (Raise e) => Some (Raise e)
                | Some (Return new_term) =>
                    match group_outer terms ops L c new_term with
                    | Raise e => Some (Raise e)
                    | Return (terms', ops') => combine_fuel fuel terms' ops'
                    end
                end
            | _, _ => Some (Raise IndexError)
            end
        | None =>
            match arith_step terms ops with
            | None => Some (Return None)
            | Some (Raise e) => Some (Raise e)
            | Some (Return (terms', ops')) => combine_fuel fuel terms' ops'
            end
        end
      end
  end.

(** A bound that is always enough (see [combine_fuel_enough]). *)
Definition combine_bound (terms : list (pyval V)) (ops : list string) : nat :=
  (length (Py.locs "(" ops) + length terms + 1)%nat.

Definition combine_terms (terms : list (pyval V)) (ops : list string)
  : option (outcome (pyval V)) :=
  combine_fuel (combine_bound terms ops) terms ops.
End TermClass.

(** ** Class [Expression] *)

(** The heap of operator lists: [self.operations] is a reference to the
    list object handed to the constructor. *)
Abbreviation loc := nat (only parsing).
Abbreviation heap := (list (list string)) (only parsing).

Definition alloc (h : heap) (ops : list string) : heap * loc :=
  (h ++ [ops], length h).
Definition deref (h : heap) (l : loc) : list string := default [] (h !! l).
Definition store (h : heap) (l : loc) (ops : list string) : heap :=
  <[l:=ops]> h.

Record Expression (V : Type) : Type := mkExpression {
  unreduced_terms : list (option (Term V));
  reduced_terms : list (option (Term V));
  operations : loc
}.
Arguments mkExpression {V} _ _ _.
Arguments unreduced_terms {V} _.
Arguments reduced_terms {V} _.
Arguments operations {V} _.

(** The three lists of an expression, by value. *)
Abbreviation triple V := (list (pyval V) * list (pyval V) * list string)%type.

Section ExpressionClass.
Context {V : Type} `{SymbolicEngine V}.

(** Body of the loop of [zero_clean] at index [i]. An exception leaves
    the deletions made so far in place. *)
Definition zero_clean_at (i : nat) (st : triple V) : triple V * outcome unit :=
  let '(u, r, ops) := st in
  match Py.getitem u (Z.of_nat i) with
  | Raise e => (st, Raise e)
  | Return None => (st, Raise AttributeError)
  | Return (Some t) =>
      if eng_is_zero (sympy_term t) then
        match Py.delitem u (Z.of_nat i) with
        | Raise e => (st, Raise e)
        | Return u' =>
            match Py.delitem r (Z.of_nat i) with
            | Raise e => ((u', r, ops), Raise e)
            | Return r' =>
                match Py.delitem ops (Z.of_nat i) with
                | Raise e => ((u', r', ops), Raise e)
                | Return ops' => ((u', r', ops'), Return ())
                end
            end
        end
      else (st, Return ())
  end.

Fixpoint zero_clean_loop (idxs : list nat) (st : triple V)
  : triple V * outcome unit :=
  match idxs with
  | [] => (st, Return ())
  | i :: idxs' =>
      match zero_clean_at i st with
      | (st', Return _) => zero_clean_loop idxs' st'
      | (st', Raise e) => (st', Raise e)
      end
  end.

(** [for i in reversed(range(len(self.unreduced_terms)))] *)
Definition zero_clean_triple (st : triple V) : triple V * outcome unit :=
  zero_clean_loop (reverse (seq 0 (length (st.1.1)))) st.

(** [Expression.zero_clean], on the object and the heap. *)
Definition zero_clean (h : heap) (e : Expression V)
  : heap * Expression V * outcome unit :=
  let l := operations e in
  match zero_clean_triple (unreduced_terms e, reduced_terms e, deref h l) with
  | ((u, r, ops), res) => (store h l ops, mkExpression u r l, res)
  end.

(** [Expression.__init__]: the term lists are copied, the list of
    operations is kept by reference. *)
Definition Expression_init (h : heap) (unreduced reduced : list (pyval V))
    (ops : loc) : heap * outcome (Expression V) :=
  if negb (length (deref h ops) =? length unreduced + 1)%nat
  then (h, Raise AssertionError)
  else if negb (length unreduced =? length reduced)%nat
  then (h, Raise AssertionError)
  else
    match zero_clean h (mkExpression unreduced reduced ops) with
    | (h', e, Return _) => (h', Return e)
    | (h', _, Raise x) => (h', Raise x)
    end.

(** [Expression.copy] *)
Definition copy (h : heap) (e : Expression V) : heap * outcome (Expression V) :=
  Expression_init h (unreduced_terms e) (reduced_terms e) (operations e).

(** [Expression.combine_terms] applied to the object's own lists. *)
Definition combine_unreduced (h : heap) (e : Expression V) :=
  combine_terms (unreduced_terms e) (deref h (operations e)).
Definition combine_reduced (h : heap) (e : Expression V) :=
  combine_terms (reduced_terms e) (deref h (operations e)).

(** [Expression.simplify]; [None] only if [combine_terms] ran out of
    its bound. *)
Definition simplify (h : heap) (e : Expression V)
  : option (heap * Expression V * outcome unit) :=
  match combine_unreduced h e with
  | None => None
  | Some (Raise x) => Some (h, e, Raise x)
  | Some (Return unreduced_term) =>
      match combine_reduced h e with
      | None => None
      | Some (Raise x) => Some (h, e, Raise x)
      | Some (Return reduced_term) =>
          let '(h', l) := alloc h [""; ""] in
          Some (h', mkExpression [unreduced_term] [reduced_term] l, Return ())
      end
  end.

(** The operator list built by a closure operator:
    [['('] + self.operations[1:-1] + [')<op>('] + other.operations[1:-1]
     + [')']]. *)
Definition closure_ops (op : string) (self_ops other_ops : list string)
  : list string :=
  ["("] ++ Py.slice self_ops 1 (-1) ++ [")" +:+ op +:+ "("]
    ++ Py.slice other_ops 1 (-1) ++ [")"].

Definition closure (op : string) (h : heap) (self other : Expression V)
  : heap * outcome (Expression V) :=
  let unreduced := unreduced_terms self ++ unreduced_terms other in
  let reduced := reduced_terms self ++ reduced_terms other in
  let '(h', l) :=
    alloc h (closure_ops op (deref h (operations self))
                            (deref h (operations other))) in
  Expression_init h' unreduced reduced l.

Definition Expression_add := closure "+".
Definition Expression_sub := closure "-".
Definition Expression_mul := closure "*".
Definition Expression_truediv := closure "/".
Definition Expression_pow := closure "^".

(** The parallel-array invariant of an expression living in [h]. *)
Definition parallel (h : heap) (e : Expression V) : Prop :=
  length (unreduced_terms e) = length (reduced_terms e) /\
  length (deref h (operations e)) = S (length (unreduced_terms e)).
End ExpressionClass.

(** ** Python strings: [str.replace] *)

Module PyStr.
(** [s.replace(old, new)] for a non-empty [old]: occurrences are found
    from the left and do not overlap. [skip] counts the characters of a
    match that are still to be dropped. *)
Fixpoint replace_go (old new : string) (skip : nat) (s : string) : string :=
  match s with
  | EmptyString => EmptyString
  | String c s' =>
      match skip with
      | S k => replace_go old new k s'
      | O =>
          if String.prefix old s
          then new +:+ replace_go old new (String.length old - 1) s'
          else String c (replace_go old new 0 s')
      end
  end.
Definition replace (old new s : string) : string := replace_go old new 0 s.

(** [old in s] *)
Fixpoint has_substring (old s : string) : bool :=
  match s with
  | EmptyString => String.prefix old EmptyString
  | String _ s' => String.prefix old s || has_substring old s'
  end.
End PyStr.

(** ** Class [Problem]: the renderers *)

(** The four [replace] calls that close both question renderers. *)
Definition cull_signs (question : string) : string :=
  let q1 := PyStr.replace "+-" "-" question in
  let q2 := PyStr.replace "-+" "-" q1 in
  let q3 := PyStr.replace "--" "+" q2 in
  PyStr.replace "++" "+" q3.

(** [Problem.convert_op_to_latex]. The source compares [op] with its
    five literals by [is], the identity of objects, not by [==]. CPython
    keeps a single object for every one-character string, so for ['*']
    and ['/'] identity is equality. A string of two characters that
    reaches the function from code outside this module (a token of a
    list of operations, the middle sign of an [Equation]) is another
    object than the literal written in the function: the tests against
    ['>='], ['<='] and ['!='] fail, and such a token is returned as it
    is. *)
Definition convert_op_to_latex (op : string) : string :=
  if String.eqb op "*" then "\cdot"
  else if String.eqb op "/" then "\div"
  else op.

Section QuestionRenderers.
Context {V : Type}.

(** The loop that interleaves operation tokens and term renderings. *)
Fixpoint question_loop (conv : string -> string) (field : Term V -> string)
    (idxs : list nat) (terms : list (pyval V)) (ops : list string)
    (acc : string) : outcome string :=
  match idxs with
  | [] => Return acc
  | i :: idxs' =>
      o ← Py.getitem ops (Z.of_nat i);
      t ← Py.getitem terms (Z.of_nat i);
      match t with
      | None => Raise AttributeError
      | Some t => question_loop conv field idxs' terms ops
                    (acc +:+ conv o +:+ field t)
      end
  end.

(** The text before the doubled signs are culled. *)
Definition question_text (conv : string -> string) (field : Term V -> string)
    (terms : list (pyval V)) (ops : list string) : outcome string :=
  body ← question_loop conv field (seq 0 (length terms)) terms ops "";
  final ← Py.getitem ops (-1);
  Return (body +:+ conv final).

(** [Problem.str_question_from_expression] *)
Definition str_question_from_expression (h : heap) (e : Expression V)
  : outcome string :=
  q ← question_text (fun o => o) str_term
        (unreduced_terms e) (deref h (operations e));
  Return (cull_signs q).

(** [Problem.latex_question_from_expression] *)
Definition latex_question_from_expression (h : heap) (e : Expression V)
  : outcome string :=
  q ← question_text convert_op_to_latex latex_term
        (unreduced_terms e) (deref h (operations e));
  Return (cull_signs q).
End QuestionRenderers.

(** ** Class [Equation] and the solution renderers *)

(** Solution texts hold U+220A and U+222A, so they are sequences of code
    points; the engine's renderings and the ASCII literals embed into
    them. *)
Definition ustr : Type := list N.

Definition of_string (s : string) : ustr :=
  (fun a => N_of_ascii a) <$> list_ascii_of_string s.

Definition element_of : N := 0x220a%N.
Definition union : N := 0x222a%N.
Definition space : N := 32%N.

(** The solving half of the engine: [solve] and
    [solve_poly_inequality(Poly(...), rel)], as functions like the
    operations above. *)
Class SolverEngine (V : Type) := {
  eng_solve : V -> V -> list V;
  eng_solve_poly_inequality : V -> V -> string -> list V
}.

Record Equation (V : Type) : Type := mkEquation {
  lhs : Expression V;
  rhs : Expression V;
  middle_sign : string;
  variable : V
}.
Arguments mkEquation {V} _ _ _ _.
Arguments lhs {V} _.
Arguments rhs {V} _.
Arguments middle_sign {V} _.
Arguments variable {V} _.

Section SolutionRenderers.
Context {V : Type} `{SymbolicEngine V} `{SolverEngine V}.

(** [combine_terms(...).sympy_term] on the reduced terms of one side. *)
Definition side_value (h : heap) (e : Expression V) : option (outcome V) :=
  match combine_reduced h e with
  | None => None
  | Some (Raise x) => Some (Raise x)
  | Some (Return None) => Some (Raise AttributeError)
  | Some (Return (Some t)) => Some (Return (sympy_term t))
  end.

Definition solutions_of (sign : string) (var lhs_term rhs_term : V) : list V :=
  if String.eqb sign "="
  then eng_solve (eng_sub lhs_term rhs_term) var
  else eng_solve_poly_inequality (eng_sub lhs_term rhs_term) var sign.

(** The text built from the solutions; [render] is [str] or [latex],
    [member] and [join] are the two separators of the interval form and
    [cut] the length of [join]. *)
Definition equality_text (render : V -> string) (sign : string) (var : V)
    (solutions : list V) : ustr :=
  let text :=
    foldl (fun acc s => acc ++ of_string (render var) ++ of_string sign
                          ++ [space] ++ of_string (render s)
                          ++ of_string ", ") [] solutions in
  Py.slice text 0 (-2).

Definition interval_text (render : V -> string) (member join : ustr)
    (cut : Z) (var : V) (solutions : list V) : ustr :=
  let text :=
    foldl (fun acc s => acc ++ of_string (render s) ++ join)
          (of_string (render var) ++ member) solutions in
  Py.slice text 0 (- cut).

Definition str_solution_text (sign : string) (var : V) (solutions : list V)
  : ustr :=
  if (length solutions =? 0)%nat then of_string "No solution"
  else if String.eqb sign "=" then equality_text eng_str sign var solutions
  else interval_text eng_str [space; element_of; space]
         [space; union; space] 3 var solutions.

Definition latex_solution_text (sign : string) (var : V) (solutions : list V)
  : ustr :=
  if (length solutions =? 0)%nat then of_string "No solution"
  else
    let latex_solution :=
      if String.eqb sign "="
      then equality_text eng_latex sign var solutions
      else interval_text eng_latex (of_string " \in ") (of_string " \cup ")
             6 var solutions in
    if (length latex_solution =? 0)%nat then of_string "\text{ No solution }"
    else latex_solution.

Definition solution_from_equation
    (text : string -> V -> list V -> ustr) (h : heap) (e : Equation V)
  : option (outcome ustr) :=
  match side_value h (lhs e) with
  | None => None
  | Some (Raise x) => Some (Raise x)
  | Some (Return lhs_term) =>
      match side_value h (rhs e) with
      | None => None
      | Some (Raise x) => Some (Raise x)
      | Some (Return rhs_term) =>
          Some (Return (text (middle_sign e) (variable e)
                  (solutions_of (middle_sign e) (variable e)
                     lhs_term rhs_term)))
      end
  end.

(** [Problem.str_solution_from_equation] *)
Definition str_solution_from_equation := solution_from_equation str_solution_text.
(** [Problem.latex_solution_from_equation] *)
Definition latex_solution_from_equation := solution_from_equation latex_solution_text.
End SolutionRenderers.

(** ** Class [Problem]: construction and text; class [Generator] *)

Record Problem : Type := mkProblem {
  latex_question : ustr;
  latex_solution : ustr;
  str_question : ustr;
  str_solution : ustr
}.

(** What [Problem.__init__] is given: an [Expression], an [Equation], a
    tuple, or anything else. *)
Inductive problem_data (V : Type) : Type :=
  | DExpression (e : Expression V)
  | DEquation (e : Equation V)
  | DTuple (items : list ustr)
  | DOther.
Arguments DExpression {V} e.
Arguments DEquation {V} e.
Arguments DTuple {V} items.
Arguments DOther {V}.

(** Sequencing of calls that may raise and whose recursion is bounded. *)
Definition and_then {A B : Type} (m : option (outcome A))
    (k : A -> option (outcome B)) : option (outcome B) :=
  match m with
  | None => None
  | Some (Raise x) => Some (Raise x)
  | Some (Return a) => k a
  end.

Definition line_feed : N := 10%N.

(** [Problem.__str__] *)
Definition Problem_str (p : Problem) : ustr :=
  of_string "Question: " ++ str_question p ++ [line_feed]
    ++ of_string "Solution: " ++ str_solution p.

Section ProblemClass.
Context {V : Type} `{SymbolicEngine V} `{SolverEngine V}.

(** [Problem.str_solution_from_expression] and
    [Problem.latex_solution_from_expression]: a field of the term that
    [combine_terms] returns. *)
Definition solution_from_expression (field : Term V -> string) (h : heap)
    (e : Expression V) : option (outcome string) :=
  match combine_reduced h e with
  | None => None
  | Some (Raise x) => Some (Raise x)
  | Some (Return None) => Some (Raise AttributeError)
  | Some (Return (Some t)) => Some (Return (field t))
  end.
Definition str_solution_from_expression := solution_from_expression str_term.
Definition latex_solution_from_expression := solution_from_expression latex_term.

(** [Problem.str_question_from_equation] *)
Definition str_question_from_equation (h : heap) (e : Equation V)
  : outcome string :=
  l ← str_question_from_expression h (lhs e);
  r ← str_question_from_expression h (rhs e);
  Return (l +:+ middle_sign e +:+ r).

(** [Problem.latex_question_from_equation] *)
Definition latex_question_from_equation (h : heap) (e : Equation V)
  : outcome string :=
  l ← latex_question_from_expression h (lhs e);
  r ← latex_question_from_expression h (rhs e);
  Return (l +:+ convert_op_to_latex (middle_sign e) +:+ r).

(** [Problem.__init__] *)
Definition Problem_init (h : heap) (data : problem_data V)
  : option (outcome Problem) :=
  match data with
  | DExpression e =>
      and_then (Some (str_question_from_expression h e)) (fun sq =>
      and_then (str_solution_from_expression h e) (fun ss =>
      and_then (Some (latex_question_from_expression h e)) (fun lq =>
      and_then (latex_solution_from_expression h e) (fun ls =>
      Some (Return (mkProblem (of_string lq) (of_string ls)
                              (of_string sq) (of_string ss)))))))
  | DEquation e =>
      and_then (Some (str_question_from_equation h e)) (fun sq =>
      and_then (str_solution_from_equation h e) (fun ss =>
      and_then (Some (latex_question_from_equation h e)) (fun lq =>
      and_then (latex_solution_from_equation h e) (fun ls =>
      Some (Return (mkProblem (of_string lq) ls (of_string sq) ss))))))
  | DTuple items =>
      and_then (Some (Py.getitem items 0)) (fun lq =>
      and_then (Some (Py.getitem items 1)) (fun ls =>
      Some (Return (mkProblem lq ls [] []))))
  | DOther => Some (Return (mkProblem [] [] [] []))
  end.
End ProblemClass.

Record Generator : Type := mkGenerator {
  problem_list : list Problem;
  worksheet_fn : string
}.

(** [Generator.__init__] and [Generator.clear] *)
Definition Generator_init : Generator := mkGenerator [] "".
Definition clear (g : Generator) : Generator := mkGenerator [] "".

(** The loop of [Generator.add_problem]: some problem of the list has the
    text of [p]. *)
Fixpoint is_duplicate (l : list Problem) (p : Problem) : bool :=
  match l with
  | [] => false
  | problem :: l' =>
      if bool_decide (Problem_str problem = Problem_str p) then true
      else is_duplicate l' p
  end.

(** [Generator.add_problem] *)
Definition add_problem (g : Generator) (p : Problem) : Generator * bool :=
  if is_duplicate (problem_list g) p then (g, false)
  else (mkGenerator (problem_list g ++ [p]) (worksheet_fn g), true).

(** [Generator.__str__] *)
Definition Generator_str (g : Generator) : ustr :=
  foldl (fun problems p => problems ++ Problem_str p ++ [line_feed]) []
        (problem_list g).

(** ** An engine on integers

    The engine of the concrete scenarios. They use [+], [-], [*] and
    powers with an exponent that is not negative, on which Python and
    SymPy agree with the integers; [expand] leaves a number unchanged.
    The quotient and the other powers are the rounded ones of [Z], which
    is not what Python computes ([7/2], [1/0], [2**-1]); no scenario
    reaches them. *)
Module IntEngine.
#[global] Instance engine : SymbolicEngine Z := {|
  eng_add := Z.add;
  eng_sub := Z.sub;
  eng_mul := Z.mul;
  eng_div := Z.div;
  eng_pow := Z.pow;
  eng_expand := fun v => v;
  eng_latex := pretty;
  eng_str := pretty;
  eng_is_zero := fun v => Z.eqb v 0
|}.

(** [Term(n)] *)
Definition num (n : Z) : pyval Z := Some (Term_init n true).

(** Solving [c = 0] for a number [c]: SymPy finds no root of a number.
    The scenarios use the sign [=] only; for an inequality between
    numbers SymPy answers with a set of reals, which is no value of this
    engine. *)
#[global] Instance solver : SolverEngine Z := {|
  eng_solve := fun _ _ => [];
  eng_solve_poly_inequality := fun _ _ _ => []
|}.
End IntEngine.

(** ** A small symbolic engine

    A term algebra standing in for SymPy, in which expansion can be
    observed: [expand] distributes a product over a sum on its right. *)
Module ToyEngine.
Inductive sym : Set :=
  | SNum (n : Z)
  | SVar
  | SAdd (a b : sym)
  | SSub (a b : sym)
  | SMul (a b : sym)
  | SDiv (a b : sym)
  | SPow (a b : sym).

Definition sym_expand (e : sym) : sym :=
  match e with
  | SMul a (SAdd b c) => SAdd (SMul a b) (SMul a c)
  | _ => e
  end.

Fixpoint sym_str (e : sym) : string :=
  match e with
  | SNum n => pretty n
  | SVar => "x"
  | SAdd a b => sym_str a +:+ " + " +:+ sym_str b
  | SSub a b => sym_str a +:+ " - " +:+ sym_str b
  | SMul a b => "(" +:+ sym_str a +:+ ")*(" +:+ sym_str b +:+ ")"
  | SDiv a b => "(" +:+ sym_str a +:+ ")/(" +:+ sym_str b +:+ ")"
  | SPow a b => "(" +:+ sym_str a +:+ ")**(" +:+ sym_str b +:+ ")"
  end.

#[global] Instance engine : SymbolicEngine sym := {|
  eng_add := SAdd;
  eng_sub := SSub;
  eng_mul := SMul;
  eng_div := SDiv;
  eng_pow := SPow;
  eng_expand := sym_expand;
  eng_latex := sym_str;
  eng_str := sym_str;
  eng_is_zero := fun e => match e with SNum 0 => true | _ => false end
|}.
End ToyEngine.

(** ** Notions used to state the properties *)

(** Number of tokens that hold the mark [c]. *)
Definition count_mark (c : ascii) (ops : list string) : nat :=
  length (Py.locs c ops).

(** [c] is the closing position nearest after [L], within the reach of
    the search. *)
Definition nearest (L : nat) (rs : list nat) (c : nat) : Prop :=
  c ∈ rs /\ (L < c)%nat /\ Z.of_nat c - Z.of_nat L < 10000 /\
  forall r, r ∈ rs -> (L < r)%nat -> (c <= r)%nat.

(** The assertion on the first opening and closing marks passes. *)
Definition head_ok (ops : list string) : Prop :=
  exists a b, head (Py.locs "(" ops) = Some a /\
              head (Py.locs ")" ops) = Some b /\ (a < b)%nat.

(** [c] is one of the two sign characters. *)
Definition is_sign (c : ascii) : bool :=
  Ascii.eqb c "+" || Ascii.eqb c "-".

(** No three sign characters in a row. *)
Fixpoint no_three_signs (s : string) : bool :=
  match s with
  | String x (String y (String z _) as s') =>
      negb (is_sign x && is_sign y && is_sign z) && no_three_signs s'
  | _ => true
  end.

(** Every pair of adjacent sign characters is one that [G] allows. *)
Fixpoint pairs_ok (G : ascii -> ascii -> bool) (s : string) : bool :=
  match s with
  | String x (String y _ as s') =>
      (negb (is_sign x && is_sign y) || G x y) && pairs_ok G s'
  | _ => true
  end.

(** [replace] for a pattern of two characters and a replacement of
    one, by direct recursion. *)
Fixpoint replace_pair (a b c : ascii) (s : string) : string :=
  match s with
  | EmptyString => EmptyString
  | String x s' =>
      match s' with
      | EmptyString => String x EmptyString
      | String y t =>
          if Ascii.eqb a x && Ascii.eqb b y
          then String c (replace_pair a b c t)
          else String x (replace_pair a b c s')
      end
  end.

(** None of the four doubled signs occurs in [s]. *)
Definition no_doubled_sign (s : string) : Prop :=
  PyStr.has_substring "+-" s = false /\ PyStr.has_substring "-+" s = false /\
  PyStr.has_substring "--" s = false /\ PyStr.has_substring "++" s = false.

(** The sign that two adjacent signs amount to: equal signs give [+],
    different signs give [-]. *)
Definition sign_mul (x y : ascii) : ascii :=
  if Ascii.eqb x y then "+"%char else "-"%char.

(** [x] put before a text whose runs of signs are already single
    signs. *)
Definition push_sign (x : ascii) (r : string) : string :=
  match r with
  | String y t =>
      if is_sign x && is_sign y then String (sign_mul x y) t
      else String x r
  | EmptyString => String x EmptyString
  end.

(** Every maximal run of sign characters replaced by the one sign it
    amounts to; the other characters stay. *)
Fixpoint collapse_signs (s : string) : string :=
  match s with
  | EmptyString => EmptyString
  | String x t => push_sign x (collapse_signs t)
  end.

Section Notions.
Context {V : Type} `{SymbolicEngine V}.
Implicit Types (ts : list (Term V)) (ops : list string).

(** [combine_terms] on [terms] and [ops] ends with [r]. *)
Definition evals (terms : list (pyval V)) ops (r : outcome (pyval V)) : Prop :=
  exists f, combine_fuel f terms ops = Some r.

(** [t.sympy_term == 0] *)
Definition is_zero_term (t : Term V) : bool := eng_is_zero (sympy_term t).

(** The elements of [xs] that survive: position [j] goes exactly when
    term [j] exists and is zero. *)
Fixpoint prune_aligned {X : Type} ts (xs : list X) : list X :=
  match ts, xs with
  | t :: ts', x :: xs' =>
      if is_zero_term t then prune_aligned ts' xs'
      else x :: prune_aligned ts' xs'
  | _, _ => xs
  end.

(** The operations left when the token that follows a zero term is the
    one deleted, which is how the specification words it. *)
Definition prune_following ts ops : list string :=
  match ops with
  | [] => []
  | o :: ops' => o :: prune_aligned ts ops'
  end.

(** The three lists of an expression are aligned. *)
Definition aligned (st : triple V) : Prop :=
  length st.1.2 = length st.1.1 /\ length st.2 = S (length st.1.1).

(** [o] is one of the five operation tokens. *)
Definition is_operator (o : string) : bool :=
  String.eqb o "^" || String.eqb o "*" || String.eqb o "/"
  || String.eqb o "+" || String.eqb o "-".

(** The method of [Term] that the token [o] stands for. *)
Definition op_method (o : string) : Term V -> Term V -> Term V :=
  if String.eqb o "^" then Term_pow
  else if String.eqb o "*" then Term_mul
  else if String.eqb o "/" then Term_truediv
  else if String.eqb o "+" then Term_add
  else Term_sub.

(** The tokens and the renderings of the terms, alternating: token,
    term, token, term, ... as far as both lists go. *)
Fixpoint interleave (conv : string -> string) (field : Term V -> string)
    ops ts : string :=
  match ops, ts with
  | o :: ops', t :: ts' => conv o +:+ field t +:+ interleave conv field ops' ts'
  | _, _ => ""
  end.

(** Evaluation from left to right: each token applied to the value so far
    and the next term. *)
Definition fold_left_ops (t0 : Term V) (interior : list string)
    (rest : list (Term V)) : Term V :=
  foldl (fun acc ot => op_method ot.1 acc ot.2) t0 (zip interior rest).
(** The three precedence levels of the operation tokens. *)
Definition is_pow (o : string) : bool := String.eqb o "^".
Definition is_muldiv (o : string) : bool :=
  String.eqb o "*" || String.eqb o "/".
Definition is_addsub (o : string) : bool :=
  String.eqb o "+" || String.eqb o "-".

(** One pass from left to right over terms and the tokens between
    them: an operation of the level [lvl] is applied to the value so far
    and the next term, any other token is kept with the term before
    it. *)
Fixpoint reduce_level (lvl : string -> bool) ts (interior : list string)
  : list (Term V) * list string :=
  match interior with
  | o :: interior' =>
      match ts with
      | a :: b :: ts' =>
          if lvl o then reduce_level lvl (op_method o a b :: ts') interior'
          else
            let '(ts1, os1) := reduce_level lvl (b :: ts') interior' in
            (a :: ts1, o :: os1)
      | _ => (ts, interior)
      end
  | [] => (ts, [])
  end.

(** The value by the usual order of operations, every level taken from
    left to right: first the powers, then products and quotients, then
    sums and differences. *)
Definition eval_by_precedence ts (interior : list string)
  : option (Term V) :=
  let '(ts1, os1) := reduce_level is_pow ts interior in
  let '(ts2, os2) := reduce_level is_muldiv ts1 os1 in
  let '(ts3, _) := reduce_level is_addsub ts2 os2 in
  head ts3.
End Notions.

(** * Properties *)

(** ** Facts about the list primitives *)

Section PyFacts.
Import Py.

Lemma index_from_first (tok : string) (ops : list string) (k0 k : nat) :
  ops !! k = Some tok ->
  (forall j, (j < k)%nat -> ops !! j <> Some tok) ->
  index_from k0 tok ops = Some (k0 + k)%nat.
Proof.
  revert k0 k. induction ops as [|o ops IH]; intros k0 k Hk Hlt; [done|].
  simpl. destruct (String.eqb_spec o tok) as [->|Hne].
  - destruct k as [|k]; [f_equal; lia|].
    exfalso. apply (Hlt 0%nat); [lia|done].
  - destruct k as [|k]; [simpl in Hk; congruence|].
    rewrite (IH (S k0) k); [f_equal; lia|done|].
    intros j Hj. apply (Hlt (S j)). lia.
Qed.

Lemma index_first (tok : string) (ops : list string) (k : nat) :
  ops !! k = Some tok ->
  (forall j, (j < k)%nat -> ops !! j <> Some tok) ->
  index tok ops = Some k.
Proof. intros. unfold index. by rewrite (index_from_first tok ops 0 k). Qed.

Lemma index_from_absent (tok : string) (ops : list string) (k0 : nat) :
  (forall j, ops !! j <> Some tok) -> index_from k0 tok ops = None.
Proof.
  revert k0. induction ops as [|o ops IH]; intros k0 Hno; [done|].
  simpl. destruct (String.eqb_spec o tok) as [->|Hne].
  - exfalso. by apply (Hno 0%nat).
  - apply IH. intros j. apply (Hno (S j)).
Qed.

Lemma index_absent (tok : string) (ops : list string) :
  (forall j, ops !! j <> Some tok) -> index tok ops = None.
Proof. apply index_from_absent. Qed.

Lemma index_from_Some (tok : string) (ops : list string) (k0 k : nat) :
  index_from k0 tok ops = Some k ->
  (k0 <= k)%nat /\ ops !! (k - k0)%nat = Some tok /\
  forall j, (j < k - k0)%nat -> ops !! j <> Some tok.
Proof.
  revert k0. induction ops as [|o ops IH]; intros k0; [done|].
  simpl. destruct (String.eqb_spec o tok) as [->|Hne].
  - intros [= <-]. replace (k0 - k0)%nat with 0%nat by lia.
    split; [lia|]. split; [done|]. intros; lia.
  - intros Hi. destruct (IH _ Hi) as (Hle & Hk & Hlt).
    split; [lia|].
    replace (k - k0)%nat with (S (k - S k0)) by lia.
    split; [done|]. intros [|j] Hj; simpl; [congruence|].
    apply Hlt. lia.
Qed.

Lemma index_Some (tok : string) (ops : list string) (k : nat) :
  index tok ops = Some k ->
  ops !! k = Some tok /\ forall j, (j < k)%nat -> ops !! j <> Some tok.
Proof.
  intros Hi. apply index_from_Some in Hi.
  by rewrite Nat.sub_0_r in Hi; destruct Hi as (_ & ? & ?).
Qed.

Lemma index_None (tok : string) (ops : list string) :
  index tok ops = None -> forall j, ops !! j <> Some tok.
Proof.
  unfold index. generalize 0%nat.
  induction ops as [|o ops IH]; intros k0 Hi j; [by destruct j|].
  simpl in Hi. destruct (String.eqb_spec o tok) as [->|Hne]; [done|].
  destruct j as [|j]; simpl; [congruence|]. by eapply IH.
Qed.
End PyFacts.

(** ** Operator precedence *)

Section Precedence.
Context {V : Type} `{SymbolicEngine V}.

(** With no grouping mark, [combine_terms] goes to the operator cases. *)
Lemma combine_fuel_arith (fuel : nat) (terms : list (pyval V))
    (ops : list string) :
  length ops = S (length terms) -> length terms <> 1%nat ->
  Py.locs "(" ops = [] -> Py.locs ")" ops = [] ->
  combine_fuel (S fuel) terms ops =
    match arith_step terms ops with
    | None => Some (Return None)
    | Some (Raise e) => Some (Raise e)
    | Some (Return (terms', ops')) => combine_fuel fuel terms' ops'
    end.
Proof.
  intros Hlen Hne Hl Hr. simpl. rewrite Hl, Hr. simpl.
  replace (length ops =? length terms + 1)%nat with true
    by (symmetry; apply Nat.eqb_eq; lia).
  simpl. destruct terms as [|t [|t' terms]]; simpl in *; done.
Qed.

(** The leftmost of the tokens [*] and [/] decides the mul/div case. *)
Lemma muldiv_step_leftmost (terms : list (pyval V)) (ops : list string)
    (k : nat) (tok : string) :
  ops !! k = Some tok -> tok = "*" \/ tok = "/" ->
  (forall j, (j < k)%nat -> ops !! j <> Some "*" /\ ops !! j <> Some "/") ->
  muldiv_step terms ops =
    Some (apply_binop (if String.eqb tok "*" then Term_mul else Term_truediv)
            k terms ops).
Proof.
  intros Hk Htok Hlt. unfold muldiv_step. destruct Htok as [-> | ->]; simpl.
  - rewrite (index_first "*" ops k) by (done || intros; by apply Hlt).
    destruct (Py.index "/" ops) as [d|] eqn:Hd; [|done].
    apply index_Some in Hd as [Hd Hdlt].
    destruct (Nat.ltb_spec k d) as [_|Hle]; [done|].
    exfalso. destruct (decide (d = k)) as [->|Hne]; [congruence|].
    destruct (Hlt d) as [_ Hnd]; [lia|done].
  - rewrite (index_first "/" ops k) by (done || intros; by apply Hlt).
    destruct (Py.index "*" ops) as [m|] eqn:Hm; [|done].
    apply index_Some in Hm as [Hm Hmlt].
    destruct (Nat.ltb_spec m k) as [Hlt'|Hle].
    { exfalso. by destruct (Hlt m Hlt') as [Hnm _]. }
    destruct (Nat.ltb_spec k m) as [_|Hle']; [done|].
    exfalso. assert (m = k) as -> by lia. congruence.
Qed.
End Precedence.

(** ** Facts about grouping marks *)

Section LocsFacts.
Import Py.

Lemma locs_from_app (k : nat) (c : ascii) (l1 l2 : list string) :
  locs_from k c (l1 ++ l2) =
  locs_from k c l1 ++ locs_from (k + length l1) c l2.
Proof.
  revert k. induction l1 as [|o l1 IH]; intros k; simpl.
  - by rewrite Nat.add_0_r.
  - rewrite IH. replace (S k + length l1)%nat with (k + S (length l1))%nat by lia.
    by destruct (contains c o).
Qed.

Lemma locs_from_length (k k' : nat) (c : ascii) (l : list string) :
  length (locs_from k c l) = length (locs_from k' c l).
Proof.
  revert k k'. induction l as [|o l IH]; intros k k'; simpl; [done|].
  destruct (contains c o); simpl; by rewrite (IH (S k) (S k')).
Qed.

Lemma count_mark_app (c : ascii) (l1 l2 : list string) :
  count_mark c (l1 ++ l2) = (count_mark c l1 + count_mark c l2)%nat.
Proof.
  unfold count_mark, locs. rewrite locs_from_app, length_app.
  by rewrite (locs_from_length (0 + length l1) 0).
Qed.

Lemma count_mark_cons (c : ascii) (o : string) (l : list string) :
  count_mark c (o :: l) =
  ((if contains c o then 1 else 0) + count_mark c l)%nat.
Proof.
  unfold count_mark, locs. simpl.
  destruct (contains c o); simpl; by rewrite (locs_from_length 1 0).
Qed.

Lemma locs_from_nil (k : nat) (c : ascii) (l : list string) :
  locs_from k c l = [] <->
  forall j o, l !! j = Some o -> contains c o = false.
Proof.
  revert k. induction l as [|o l IH]; intros k; simpl.
  - split; [intros _ j o'; by rewrite lookup_nil | done].
  - destruct (contains c o) eqn:Ho.
    + split; [done|]. intros Hall. specialize (Hall 0%nat o eq_refl). congruence.
    + rewrite IH. split.
      * intros Hall [|j] o'; simpl; [congruence | apply Hall].
      * intros Hall j o'. apply (Hall (S j)).
Qed.

Lemma count_mark_zero (c : ascii) (l : list string) :
  count_mark c l = 0%nat <->
  forall j o, l !! j = Some o -> contains c o = false.
Proof.
  unfold count_mark, locs. rewrite <- (locs_from_nil 0).
  by rewrite length_zero_iff_nil.
Qed.

(** The last position that holds a mark. *)
Lemma locs_from_last (k : nat) (c : ascii) (l : list string) (L : nat) :
  last (locs_from k c l) = Some L ->
  (k <= L)%nat /\
  (exists o, l !! (L - k)%nat = Some o /\ contains c o = true) /\
  forall j o, (L - k < j)%nat -> l !! j = Some o -> contains c o = false.
Proof.
  revert k. induction l as [|o l IH]; intros k; simpl; [done|].
  assert (Hrec : last (locs_from (S k) c l) = Some L ->
    (k <= L)%nat /\
    (exists o0, (o :: l) !! (L - k)%nat = Some o0 /\ contains c o0 = true) /\
    forall j o0, (L - k < j)%nat -> (o :: l) !! j = Some o0 ->
                 contains c o0 = false).
  { intros Hl. destruct (IH _ Hl) as (Hle & (o0 & Ho0 & Hc) & Hafter).
    split; [lia|]. replace (L - k)%nat with (S (L - S k)) by lia.
    split; [by exists o0|].
    intros [|j] o1 Hj; [lia|]. simpl. apply Hafter. lia. }
  destruct (contains c o) eqn:Ho; [|done].
  destruct (locs_from (S k) c l) as [|i rest] eqn:Hrest.
  - simpl. intros [= <-]. replace (k - k)%nat with 0%nat by lia.
    split; [lia|]. split; [by exists o|].
    intros [|j] o1 Hj; [lia|]. simpl.
    by apply (proj1 (locs_from_nil (S k) c l) Hrest).
  - intros Hl. apply Hrec. by rewrite last_cons_cons in Hl.
Qed.

Lemma locs_last (c : ascii) (l : list string) (L : nat) :
  last (locs c l) = Some L ->
  (exists o, l !! L = Some o /\ contains c o = true) /\
  forall j o, (L < j)%nat -> l !! j = Some o -> contains c o = false.
Proof.
  intros Hl. apply locs_from_last in Hl. rewrite Nat.sub_0_r in Hl. tauto.
Qed.

Lemma contains_remove_char_same (c : ascii) (s : string) :
  contains c (remove_char c s) = false.
Proof.
  induction s as [|d s IH]; simpl; [done|].
  destruct (Ascii.eqb c d) eqn:Hcd; simpl; [done|]. by rewrite Hcd.
Qed.

Lemma contains_remove_char_other (c c' : ascii) (s : string) :
  c <> c' -> contains c (remove_char c' s) = contains c s.
Proof.
  intros Hne. induction s as [|d s IH]; simpl; [done|].
  destruct (Ascii.eqb_spec c' d) as [<-|Hd]; simpl.
  - destruct (Ascii.eqb_spec c c'); [done|]. done.
  - by rewrite IH.
Qed.
End LocsFacts.

(** ** Facts about slices *)

Section SliceFacts.
Context {A : Type}.
Implicit Types l : list A.

Lemma clamp_nat l (i : nat) : Py.clamp l (Z.of_nat i) = Nat.min i (length l).
Proof. unfold Py.clamp. destruct (Z.ltb_spec (Z.of_nat i) 0); lia. Qed.

Lemma clamp_succ l (i : nat) :
  Py.clamp l (Z.of_nat i + 1) = Nat.min (S i) (length l).
Proof. unfold Py.clamp. destruct (Z.ltb_spec (Z.of_nat i + 1) 0); lia. Qed.

Lemma clamp_le l (i : Z) : (Py.clamp l i <= length l)%nat.
Proof. unfold Py.clamp. destruct (Z.ltb_spec i 0); lia. Qed.

Lemma length_slice l (lo hi : Z) :
  length (Py.slice l lo hi) = (Py.clamp l hi - Py.clamp l lo)%nat.
Proof.
  unfold Py.slice. rewrite length_take, length_drop.
  pose proof (clamp_le l hi). lia.
Qed.

Lemma slice_nat l (lo hi : nat) :
  (lo <= hi <= length l)%nat ->
  Py.slice l (Z.of_nat lo) (Z.of_nat hi) = take (hi - lo) (drop lo l).
Proof.
  intros Hb. unfold Py.slice. rewrite !clamp_nat.
  by rewrite !Nat.min_l by lia.
Qed.

Lemma delslice_nat l (lo hi : nat) :
  (lo <= hi <= length l)%nat ->
  Py.delslice l (Z.of_nat lo) (Z.of_nat hi) = take lo l ++ drop hi l.
Proof.
  intros Hb. unfold Py.delslice. rewrite !clamp_nat.
  rewrite !Nat.min_l by lia. by rewrite Nat.max_r by lia.
Qed.

Lemma norm_index_nat l (i : nat) :
  (i < length l)%nat -> Py.norm_index l (Z.of_nat i) = Some i.
Proof.
  intros Hi. unfold Py.norm_index.
  destruct (Z.leb_spec 0 (Z.of_nat i)); [|lia].
  destruct (Z.ltb_spec (Z.of_nat i) (Z.of_nat (length l))); [|lia].
  simpl. by rewrite Nat2Z.id.
Qed.

Lemma getitem_nat l (i : nat) (x : A) :
  l !! i = Some x -> Py.getitem l (Z.of_nat i) = Return x.
Proof.
  intros Hi. unfold Py.getitem.
  rewrite norm_index_nat by (by eapply lookup_lt_Some). by rewrite Hi.
Qed.

Lemma setitem_nat l (i : nat) (x : A) :
  (i < length l)%nat -> Py.setitem l (Z.of_nat i) x = Return (<[i:=x]> l).
Proof. intros Hi. unfold Py.setitem. by rewrite norm_index_nat. Qed.

Lemma delitem_nat l (i : nat) :
  (i < length l)%nat -> Py.delitem l (Z.of_nat i) = Return (delete i l).
Proof. intros Hi. unfold Py.delitem. by rewrite norm_index_nat. Qed.

(** The inner call of the grouping case passes its length check only
    for a closing position [c] with [L < c <= len(terms)]. *)
Lemma group_slices_aligned {B : Type} (terms : list A) (ops : list B)
    (L : nat) (c : Z) :
  length ops = S (length terms) ->
  S (S (length (Py.slice ops (Z.of_nat L + 1) c))) =
    S (length (Py.slice terms (Z.of_nat L) c)) ->
  exists cn : nat, c = Z.of_nat cn /\ (L < cn <= length terms)%nat.
Proof.
  intros Hlen. rewrite (length_slice terms).
  unfold Py.slice, Py.clamp. rewrite length_take, length_drop, Hlen.
  intros Heq. exists (Z.to_nat c).
  destruct (Z.ltb_spec c 0); destruct (Z.ltb_spec (Z.of_nat L) 0);
    destruct (Z.ltb_spec (Z.of_nat L + 1) 0); lia.
Qed.
End SliceFacts.

(** ** The grouping case on lists split at the two marks *)

Section GroupFacts.
Context {V : Type} `{SymbolicEngine V}.
Implicit Types (terms tpre tmid tpost : list (pyval V)).
Implicit Types (ops pre mid post : list string).

Lemma group_inner_split tpre tmid tpost pre oL mid oc post (L cn : nat) :
  L = length pre -> cn = (L + S (length mid))%nat ->
  length tpre = L -> length tmid = S (length mid) ->
  group_inner (tpre ++ tmid ++ tpost) (pre ++ oL :: mid ++ oc :: post)
              L (Z.of_nat cn)
  = (tmid, "" :: mid ++ [""]).
Proof.
  intros HL Hcn Htpre Htmid. unfold group_inner.
  replace (Z.of_nat L + 1) with (Z.of_nat (S L)) by lia.
  rewrite !slice_nat by (rewrite ?length_app; simpl; rewrite ?length_app; simpl; lia).
  f_equal.
  - rewrite <- Htpre, drop_app_length.
    replace (cn - length tpre)%nat with (length tmid) by lia.
    by rewrite take_app_length.
  - simpl. do 2 f_equal.
    replace (pre ++ oL :: mid ++ oc :: post)
      with ((pre ++ [oL]) ++ mid ++ oc :: post) by by rewrite <- app_assoc.
    replace (S L) with (length (pre ++ [oL])) by (rewrite length_app; simpl; lia).
    rewrite drop_app_length.
    replace (cn - length (pre ++ [oL]))%nat with (length mid)
      by (rewrite length_app; simpl; lia).
    by rewrite take_app_length.
Qed.

Lemma group_outer_split tpre tmid tpost pre oL mid oc post (L cn : nat)
    (new_term : pyval V) :
  L = length pre -> cn = (L + S (length mid))%nat ->
  length tpre = L -> length tmid = S (length mid) ->
  group_outer (tpre ++ tmid ++ tpost) (pre ++ oL :: mid ++ oc :: post)
              L (Z.of_nat cn) new_term
  = Return (tpre ++ new_term :: tpost,
            pre ++ Py.remove_char "(" oL :: Py.remove_char ")" oc :: post).
Proof.
  intros HL Hcn Htpre Htmid. unfold group_outer.
  replace (Z.of_nat L + 1) with (Z.of_nat (S L)) by lia.
  rewrite !delslice_nat by (rewrite ?length_app; simpl; rewrite ?length_app; simpl; lia).
  assert (Hops1 : take (S L) (pre ++ oL :: mid ++ oc :: post)
                  ++ drop cn (pre ++ oL :: mid ++ oc :: post)
                  = pre ++ oL :: oc :: post).
  { replace (pre ++ oL :: mid ++ oc :: post)
      with ((pre ++ [oL]) ++ mid ++ oc :: post) by by rewrite <- app_assoc.
    replace (S L) with (length (pre ++ [oL])) by (rewrite length_app; simpl; lia).
    rewrite take_app_length.
    rewrite app_assoc.
    replace cn with (length ((pre ++ [oL]) ++ mid))
      by (rewrite !length_app; simpl; lia).
    rewrite drop_app_length. by rewrite <- app_assoc. }
  rewrite Hops1.
  assert (Hterms1 : take L (tpre ++ tmid ++ tpost)
                    ++ drop cn (tpre ++ tmid ++ tpost) = tpre ++ tpost).
  { rewrite <- Htpre at 1. rewrite take_app_length. rewrite app_assoc.
    replace cn with (length (tpre ++ tmid)) by (rewrite length_app; lia).
    by rewrite drop_app_length. }
  rewrite Hterms1.
  rewrite (getitem_nat _ L oL) by (by apply list_lookup_middle).
  simpl. rewrite setitem_nat by (rewrite length_app; simpl; lia). simpl.
  assert (Hins1 : <[L:=Py.remove_char "(" oL]> (pre ++ oL :: oc :: post)
                  = pre ++ Py.remove_char "(" oL :: oc :: post).
  { replace L with (length pre + 0)%nat by lia. by rewrite insert_app_r. }
  rewrite Hins1.
  replace (Z.of_nat L + 1) with (Z.of_nat (S L)) by lia.
  rewrite (getitem_nat _ (S L) oc).
  2:{ replace (pre ++ Py.remove_char "(" oL :: oc :: post)
        with ((pre ++ [Py.remove_char "(" oL]) ++ oc :: post)
        by by rewrite <- app_assoc.
      apply list_lookup_middle. rewrite length_app. simpl. lia. }
  simpl. rewrite setitem_nat by (rewrite length_app; simpl; lia). simpl.
  do 2 f_equal.
  - unfold Py.insert. rewrite <- Htpre.
    by rewrite take_app_length, drop_app_length.
  - replace (S L) with (length pre + 1)%nat by lia. by rewrite insert_app_r.
Qed.
End GroupFacts.

(** ** One operator step *)

Section StepFacts.
Context {V : Type} `{SymbolicEngine V}.
Implicit Types (terms : list (pyval V)) (ops : list string).

Lemma norm_index_lt {A : Type} (l : list A) (i : Z) (k : nat) :
  Py.norm_index l i = Some k -> (k < length l)%nat.
Proof.
  unfold Py.norm_index.
  destruct (Z.leb_spec 0 i), (Z.ltb_spec i (Z.of_nat (length l))); simpl;
    try (intros [= <-]; lia);
    destruct (Z.leb_spec (- Z.of_nat (length l)) i), (Z.ltb_spec i 0); simpl;
    try done; intros [= <-]; lia.
Qed.

Lemma length_delete_lt {A : Type} (l : list A) (k : nat) :
  (k < length l)%nat -> S (length (delete k l)) = length l.
Proof.
  intros Hk. rewrite length_delete by (by apply lookup_lt_is_Some_2). lia.
Qed.

Lemma count_mark_delete (c : ascii) ops (k : nat) :
  (count_mark c (delete k ops) <= count_mark c ops)%nat.
Proof.
  rewrite delete_take_drop.
  rewrite <- (take_drop k ops) at 3. rewrite !count_mark_app.
  destruct (drop k ops) as [|o rest] eqn:Hd.
  - rewrite (drop_ge ops (S k)); [done|].
    apply (f_equal length) in Hd. rewrite length_drop in Hd. simpl in Hd. lia.
  - replace (drop (S k) ops) with rest.
    + rewrite count_mark_cons. lia.
    + rewrite <- (Nat.add_1_l k), Nat.add_comm, <- drop_drop, Hd. done.
Qed.

(** A step that succeeds takes one term and one token away. *)
Lemma apply_binop_Return (f : Term V -> Term V -> Term V) (loc : nat)
    terms ops terms' ops' :
  apply_binop f loc terms ops = Return (terms', ops') ->
  S (length terms') = length terms /\ S (length ops') = length ops /\
  exists k, ops' = delete k ops.
Proof.
  unfold apply_binop, Py.delitem, Py.getitem, Py.setitem.
  destruct (Py.norm_index ops (Z.of_nat loc)) as [k|] eqn:Hk; [|done].
  simpl.
  destruct (Py.norm_index terms (Z.of_nat loc - 1)) as [ka|] eqn:Hka; [|done].
  destruct (terms !! ka) as [a|]; [|done]. simpl.
  destruct (Py.norm_index terms (Z.of_nat loc)) as [kb|] eqn:Hkb; [|done].
  destruct (terms !! kb) as [b|]; [|done]. simpl.
  destruct (py_binop f a b) as [v|]; [|done]. simpl.
  destruct (Py.norm_index (<[kb:=v]> terms) (Z.of_nat loc - 1)) as [kd|] eqn:Hkd;
    [|done].
  simpl. intros [= <- <-].
  apply norm_index_lt in Hk, Hkd. rewrite length_insert in Hkd.
  rewrite !length_delete_lt by (by rewrite ?length_insert).
  rewrite length_insert. eauto.
Qed.

Lemma arith_step_Return terms ops terms' ops' :
  arith_step terms ops = Some (Return (terms', ops')) ->
  exists f loc, apply_binop f loc terms ops = Return (terms', ops').
Proof.
  unfold arith_step, muldiv_step, addsub_step.
  repeat case_match; intros [= Hs]; eauto.
Qed.
End StepFacts.

(** ** Termination of [combine_terms] *)

Section Termination.
Context {V : Type} `{SymbolicEngine V}.
Implicit Types (terms : list (pyval V)) (ops : list string).

Lemma combine_fuel_mono (f f' : nat) terms ops (r : outcome (pyval V)) :
  (f <= f')%nat ->
  combine_fuel f terms ops = Some r -> combine_fuel f' terms ops = Some r.
Proof.
  revert f' terms ops r.
  induction f as [|f IH]; intros f' terms ops r Hle Hr; [done|].
  destruct f' as [|f']; [lia|].
  assert (Hrec : forall t o r', combine_fuel f t o = Some r' ->
                                combine_fuel f' t o = Some r').
  { intros. eapply IH; [lia|done]. }
  simpl in *.
  destruct (negb (length ops =? length terms + 1)%nat); [done|].
  assert (Hbody :
    forall body body' : option (outcome (pyval V)),
      (body = Some r -> body' = Some r) ->
      match terms with [t] => Some (Return t) | _ => body end = Some r ->
      match terms with [t] => Some (Return t) | _ => body' end = Some r).
  { intros body body' Hb. destruct terms as [|t0 [|t1 ts]]; auto. }
  revert Hr. apply Hbody. clear Hbody.
  destruct (negb (length (Py.locs "(" ops) =? length (Py.locs ")" ops))%nat);
    [done|].
  destruct (last (Py.locs "(" ops)) as [L|].
  - destruct (head (Py.locs "(" ops)) as [l0|],
      (head (Py.locs ")" ops)) as [r0|]; try done.
    destruct (negb (l0 <? r0)%nat); [done|].
    destruct (combine_fuel f _ _) as [[new_term|e]|] eqn:Hin; [| |done].
    + rewrite (Hrec _ _ _ Hin).
      destruct (group_outer terms ops L _ new_term) as [[terms' ops']|e];
        [|done].
      apply Hrec.
    + by rewrite (Hrec _ _ _ Hin).
  - destruct (arith_step terms ops) as [[[terms' ops']|e]|]; [|done|done].
    apply Hrec.
Qed.

Lemma combine_fuel_checked (f : nat) terms ops (v : pyval V) :
  combine_fuel f terms ops = Some (Return v) ->
  length ops = S (length terms).
Proof.
  destruct f as [|f]; [done|]. simpl.
  destruct (Nat.eqb_spec (length ops) (length terms + 1)); [lia|done].
Qed.

Lemma combine_fuel_unchecked (f : nat) terms ops :
  length ops <> S (length terms) ->
  combine_fuel (S f) terms ops = Some (Raise AssertionError).
Proof.
  intros Hne. simpl.
  destruct (Nat.eqb_spec (length ops) (length terms + 1)); [lia|done].
Qed.

(** Any pair of positions [L < cn <= len(terms)] splits the two lists
    into the part before the group, the group and the part after it. *)
Lemma split_at_marks terms ops (L cn : nat) :
  length ops = S (length terms) -> (L < cn <= length terms)%nat ->
  exists tpre tmid tpost pre oL mid oc post,
    terms = tpre ++ tmid ++ tpost /\
    ops = pre ++ oL :: mid ++ oc :: post /\
    L = length pre /\ cn = (L + S (length mid))%nat /\
    length tpre = L /\ length tmid = S (length mid) /\
    length post = length tpost.
Proof.
  intros Hlen Hb.
  destruct (lookup_lt_is_Some_2 ops L) as [oL HoL]; [lia|].
  set (rest := drop (S L) ops).
  assert (Hrest : length rest = (length terms - L)%nat)
    by (unfold rest; rewrite length_drop; lia).
  destruct (lookup_lt_is_Some_2 rest (cn - S L)) as [oc Hoc]; [lia|].
  exists (take L terms), (take (cn - L) (drop L terms)),
    (drop (cn - L) (drop L terms)),
    (take L ops), oL, (take (cn - S L) rest), oc, (drop (S (cn - S L)) rest).
  rewrite !length_take, !length_drop, Hrest.
  split; [by rewrite !take_drop|].
  split.
  { rewrite (take_drop_middle rest _ oc Hoc). unfold rest.
    by rewrite (take_drop_middle ops L oL HoL). }
  repeat split; lia.
Qed.

(** Splitting does not raise the number of opening marks. *)
Lemma count_mark_split (c : ascii) pre oL mid oc post :
  count_mark c (pre ++ oL :: mid ++ oc :: post) =
  (count_mark c pre + (if Py.contains c oL then 1 else 0) + count_mark c mid
   + (if Py.contains c oc then 1 else 0) + count_mark c post)%nat.
Proof.
  rewrite count_mark_app, count_mark_cons, count_mark_app, count_mark_cons.
  lia.
Qed.

(** The bound of [combine_terms] is enough: the recursion ends within
    it, on every input. *)
Lemma combine_fuel_enough (f : nat) terms ops :
  (combine_bound terms ops <= f)%nat ->
  exists r, combine_fuel f terms ops = Some r.
Proof.
  revert terms ops. induction f as [|f IH]; intros terms ops Hf.
  { unfold combine_bound in Hf. lia. }
  destruct (decide (length ops = S (length terms))) as [Hlen|Hlen];
    [|rewrite combine_fuel_unchecked by done; eauto].
  unfold combine_bound in Hf. fold (count_mark "(" ops) in Hf.
  simpl.
  replace (length ops =? length terms + 1)%nat with true
    by (symmetry; apply Nat.eqb_eq; lia).
  simpl.
  assert (Hbody : forall body : option (outcome (pyval V)),
    (length terms <> 1%nat -> exists r, body = Some r) ->
    exists r, match terms with [t] => Some (Return t) | _ => body end
              = Some r).
  { intros body Hb. destruct terms as [|t0 [|t1 ts]]; eauto. }
  apply Hbody. clear Hbody. intros Hne.
  destruct (negb (length (Py.locs "(" ops) =? length (Py.locs ")" ops))%nat);
    [eauto|].
  destruct (last (Py.locs "(" ops)) as [L|] eqn:Hlast.
  - destruct (head (Py.locs "(" ops)) as [l0|],
      (head (Py.locs ")" ops)) as [r0|]; eauto.
    destruct (negb (l0 <? r0)%nat); [eauto|].
    set (c := closest_loc L (Py.locs ")" ops)).
    assert (Hopen : (1 <= count_mark "(" ops)%nat).
    { unfold count_mark. destruct (Py.locs "(" ops); simpl; [done|lia]. }
    destruct (locs_last _ _ _ Hlast) as [(oL' & HoL' & HcL) _].
    destruct (decide (S (S (length (Py.slice ops (Z.of_nat L + 1) c)))
                      = S (length (Py.slice terms (Z.of_nat L) c))))
      as [Hal|Hal].
    + destruct (group_slices_aligned terms ops L c Hlen Hal)
        as (cn & Hc & Hcn).
      destruct (split_at_marks terms ops L cn Hlen Hcn)
        as (tpre & tmid & tpost & pre & oL & mid & oc & post
            & -> & -> & HL & Hcn' & Htpre & Htmid & Hpost).
      rewrite Hc.
      pose proof (group_inner_split tpre tmid tpost pre oL mid oc post L cn
                    HL Hcn' Htpre Htmid) as Hinner.
      unfold group_inner in Hinner. injection Hinner as -> Hops.
      apply app_inv_tail in Hops. rewrite Hops.
      assert (HoL : oL = oL').
      { rewrite HL in HoL'. rewrite list_lookup_middle in HoL' by done.
        congruence. }
      subst oL'. rewrite count_mark_split, HcL in Hf.
      rewrite !length_app in Hf.
      assert (Hin : (combine_bound tmid ("" :: mid ++ [""]) <= f)%nat).
      { unfold combine_bound. fold (count_mark "(" ("" :: mid ++ [""])).
        rewrite count_mark_cons, count_mark_app, count_mark_cons. simpl.
        change (count_mark "(" []) with 0%nat.
        destruct (Py.contains "(" oc); lia. }
      destruct (IH tmid ("" :: mid ++ [""]) Hin) as [[new_term|e] ->];
        [|eauto].
      rewrite (group_outer_split tpre tmid tpost pre oL mid oc post L cn)
        by done.
      apply IH. unfold combine_bound.
      fold (count_mark "(" (pre ++ Py.remove_char "(" oL
                              :: Py.remove_char ")" oc :: post)).
      rewrite count_mark_app, !count_mark_cons.
      rewrite contains_remove_char_same.
      rewrite contains_remove_char_other by done.
      rewrite length_app. simpl. destruct (Py.contains "(" oc); lia.
    + destruct f as [|f]; [lia|].
      rewrite combine_fuel_unchecked; [eauto|].
      simpl. rewrite length_app. simpl. lia.
  - destruct (arith_step terms ops) as [[[terms' ops']|e]|] eqn:Hstep; eauto.
    destruct (arith_step_Return _ _ _ _ Hstep) as (g & loc & Hg).
    destruct (apply_binop_Return _ _ _ _ _ _ Hg) as (Ht & Ho & k & ->).
    apply IH. unfold combine_bound. fold (count_mark "(" (delete k ops)).
    pose proof (count_mark_delete "(" ops k). lia.
Qed.

(** The grouping case, once the inner call has passed its length check:
    the lists split at the last opening mark and the chosen closing
    mark, and the group holds no opening mark. *)
Lemma group_case_split terms ops (L : nat) (c : Z) :
  length ops = S (length terms) ->
  last (Py.locs "(" ops) = Some L ->
  length (group_inner terms ops L c).2 = S (length (group_inner terms ops L c).1) ->
  exists (cn : nat) tpre tmid tpost pre oL mid oc post,
    c = Z.of_nat cn /\
    terms = tpre ++ tmid ++ tpost /\
    ops = pre ++ oL :: mid ++ oc :: post /\
    L = length pre /\ cn = (L + S (length mid))%nat /\
    length tpre = L /\ length tmid = S (length mid) /\
    length post = length tpost /\
    Py.contains "(" oL = true /\ count_mark "(" mid = 0%nat.
Proof.
  intros Hlen Hlast Hal. unfold group_inner in Hal. simpl in Hal.
  rewrite length_app in Hal. simpl in Hal.
  destruct (group_slices_aligned terms ops L c Hlen) as (cn & Hc & Hcn);
    [lia|].
  destruct (split_at_marks terms ops L cn Hlen Hcn)
    as (tpre & tmid & tpost & pre & oL & mid & oc & post
        & Ht & Ho & HL & Hcn' & Htpre & Htmid & Hpost).
  exists cn, tpre, tmid, tpost, pre, oL, mid, oc, post.
  destruct (locs_last _ _ _ Hlast) as [(oL' & HoL' & HcL) Hafter].
  rewrite Ho, HL, list_lookup_middle in HoL' by done.
  injection HoL' as <-.
  repeat (split; [done|]).
  apply count_mark_zero. intros j o Hj.
  apply (Hafter (L + S j)%nat); [lia|].
  rewrite Ho, HL.
  replace (pre ++ oL :: mid ++ oc :: post)
    with ((pre ++ [oL]) ++ mid ++ oc :: post) by by rewrite <- app_assoc.
  rewrite lookup_app_r by (rewrite length_app; simpl; lia).
  rewrite length_app. simpl.
  replace (length pre + S j - (length pre + 1))%nat with j by lia.
  by apply lookup_app_l_Some.
Qed.
End Termination.

(** C4 (as stated, refuted). On the terms [2, 3, 4] with operations
    ['(', '+', '+', ')'] the grouping case is taken: its first recursive
    call is on all three terms and its second on a single term, so
    neither is on a sequence exactly one shorter. *)
Lemma C4_grouping_counterexample :
  let terms := [IntEngine.num 2; IntEngine.num 3; IntEngine.num 4] in
  let ops := ["("; "+"; "+"; ")"] in
  ~ (forall L : nat, last (Py.locs "(" ops) = Some L ->
       let c := closest_loc L (Py.locs ")" ops) in
       S (length (group_inner terms ops L c).1) = length terms /\
       forall new_term terms' ops',
         group_outer terms ops L c new_term = Return (terms', ops') ->
         S (length terms') = length terms).
Proof.
  intros terms ops Hall.
  destruct (Hall 0%nat eq_refl) as [Hinner _].
  vm_compute in Hinner. discriminate.
Qed.

(** C4 (amended). [combine_terms] ends on every input: the recursion
    stays within [combine_bound]. A step of the exponent, mul/div or
    add/sub case recurses on one term and one token less. A step of the
    grouping case recurses first on the enclosed terms, at least one and
    at most all of them, with a group that holds no opening mark, and then
    on the outer lists, where the enclosed terms have become one term and
    one opening mark has gone. *)
Theorem C4_termination_and_steps (V : Type) (E : SymbolicEngine V)
    (terms : list (pyval V)) (ops : list string) :
  (exists r, forall fuel, (combine_bound terms ops <= fuel)%nat ->
               combine_fuel fuel terms ops = Some r)
  /\
  (forall terms' ops',
     arith_step terms ops = Some (Return (terms', ops')) ->
     S (length terms') = length terms /\ S (length ops') = length ops)
  /\
  (forall (L fuel : nat) (new_term : pyval V),
     length ops = S (length terms) ->
     last (Py.locs "(" ops) = Some L ->
     let c := closest_loc L (Py.locs ")" ops) in
     let inner := group_inner terms ops L c in
     combine_fuel fuel inner.1 inner.2 = Some (Return new_term) ->
     exists terms' ops',
       group_outer terms ops L c new_term = Return (terms', ops') /\
       (1 <= length inner.1 <= length terms)%nat /\
       count_mark "(" inner.2 = 0%nat /\
       (length terms' + length inner.1 = S (length terms))%nat /\
       S (count_mark "(" ops') = count_mark "(" ops /\
       length ops' = S (length terms')).
Proof.
  split; [|split].
  - destruct (combine_fuel_enough (combine_bound terms ops) terms ops)
      as [r Hr]; [done|].
    exists r. intros fuel Hfuel. by apply (combine_fuel_mono _ _ _ _ _ Hfuel).
  - intros terms' ops' Hstep.
    destruct (arith_step_Return _ _ _ _ Hstep) as (g & loc & Hg).
    destruct (apply_binop_Return _ _ _ _ _ _ Hg) as (Ht & Ho & _). done.
  - intros L fuel new_term Hlen Hlast c inner Hin.
    apply combine_fuel_checked in Hin.
    destruct (group_case_split terms ops L c Hlen Hlast Hin)
      as (cn & tpre & tmid & tpost & pre & oL & mid & oc & post
          & Hc & -> & -> & HL & Hcn & Htpre & Htmid & Hpost & HcL & Hmid).
    subst inner. rewrite Hc.
    rewrite (group_inner_split tpre tmid tpost pre oL mid oc post L cn) by done.
    rewrite (group_outer_split tpre tmid tpost pre oL mid oc post L cn) by done.
    eexists _, _. split; [done|]. simpl.
    rewrite !length_app. simpl.
    rewrite count_mark_cons, !count_mark_app, !count_mark_cons, Hmid.
    rewrite count_mark_app, !count_mark_cons, Hmid, HcL.
    rewrite contains_remove_char_same.
    rewrite contains_remove_char_other by done.
    change (count_mark "(" []) with 0%nat. simpl.
    repeat split; lia.
Qed.

Lemma C4_termination_and_steps_witness :
  S (length [IntEngine.num 5]) = length [IntEngine.num 2; IntEngine.num 3] /\
  S (length [""; ""]) = length [""; "+"; ""].
Proof.
  apply (proj1 (proj2 (C4_termination_and_steps Z IntEngine.engine
           [IntEngine.num 2; IntEngine.num 3] [""; "+"; ""]))).
  reflexivity.
Defined.

(** ** Errors on unbalanced grouping marks *)

(** C3. With more than one term, [combine_terms] raises the assertion
    error, and returns nothing, whenever the number of tokens with an
    opening mark differs from the number of tokens with a closing mark,
    or an opening mark exists and the first one does not come before the
    first closing mark. *)
Theorem C3_unbalanced_grouping (V : Type) (E : SymbolicEngine V)
    (terms : list (pyval V)) (ops : list string) :
  (1 < length terms)%nat ->
  (count_mark "(" ops <> count_mark ")" ops \/
   exists l, head (Py.locs "(" ops) = Some l /\
             forall r, head (Py.locs ")" ops) = Some r -> ~ (l < r)%nat) ->
  combine_terms terms ops = Some (Raise AssertionError).
Proof.
  intros Hterms Hbad. unfold combine_terms, combine_bound.
  rewrite Nat.add_1_r. simpl.
  destruct (negb (length ops =? length terms + 1)%nat); [done|].
  destruct terms as [|t0 [|t1 ts]]; simpl in Hterms; try lia.
  unfold count_mark in Hbad.
  destruct (Nat.eqb_spec (length (Py.locs "(" ops)) (length (Py.locs ")" ops)))
    as [Heq|Hne]; simpl; [|done].
  destruct Hbad as [Hbad|(l & Hl & Hr)]; [done|].
  destruct (Py.locs "(" ops) as [|l' left] eqn:Hleft; [done|].
  simpl in Hl. injection Hl as ->.
  destruct (last (l :: left)) as [L|] eqn:Hlast.
  2:{ rewrite last_cons in Hlast. by destruct (last left). }
  destruct (Py.locs ")" ops) as [|r0 right]; [done|]. simpl.
  specialize (Hr r0 eq_refl).
  destruct (Nat.ltb_spec l r0); [lia|done].
Qed.

Lemma C3_unbalanced_grouping_witness :
  combine_terms [IntEngine.num 2; IntEngine.num 3] ["("; "+"; ""]
  = Some (Raise AssertionError).
Proof.
  apply (C3_unbalanced_grouping Z IntEngine.engine).
  - simpl; lia.
  - left. vm_compute. lia.
Defined.

(** ** Falling off the end *)

(** C10. With more than one term and one token more than terms, if no
    token holds a grouping mark and none is exactly [^], [*], [/], [+] or
    [-], then no case of [combine_terms] applies: it raises nothing and
    returns [None]. *)
Theorem C10_falls_through (V : Type) (E : SymbolicEngine V)
    (terms : list (pyval V)) (ops : list string) :
  (1 < length terms)%nat ->
  length ops = S (length terms) ->
  (forall j o, ops !! j = Some o ->
     Py.contains "(" o = false /\ Py.contains ")" o = false /\
     o <> "^" /\ o <> "*" /\ o <> "/" /\ o <> "+" /\ o <> "-") ->
  combine_terms terms ops = Some (Return None).
Proof.
  intros Hterms Hlen Hops. unfold combine_terms, combine_bound.
  rewrite Nat.add_1_r.
  rewrite combine_fuel_arith; try done; try lia.
  - unfold arith_step, muldiv_step, addsub_step.
    rewrite !index_absent; [done|..];
      intros j Hj; destruct (Hops j _ Hj) as (_ & _ & ? & ? & ? & ? & ?); done.
  - apply (locs_from_nil 0). intros j o Hj. by destruct (Hops j o Hj).
  - apply (locs_from_nil 0). intros j o Hj. by destruct (Hops j o Hj) as (_ & ? & _).
Qed.

Lemma C10_falls_through_witness :
  combine_terms [IntEngine.num 2; IntEngine.num 3] [""; ""; ""]
  = Some (Return None).
Proof.
  apply (C10_falls_through Z IntEngine.engine).
  - simpl; lia.
  - reflexivity.
  - intros [|[|[|j]]] o; simpl; intros [= <-]; repeat split; done.
Defined.

(** ** Zero pruning *)

Section ZeroClean.
Context {V : Type} `{SymbolicEngine V}.
Implicit Types (ts : list (Term V)) (ops : list string).

Lemma prune_aligned_app {X : Type} ts1 ts2 (xs1 xs2 : list X) :
  length xs1 = length ts1 ->
  prune_aligned (ts1 ++ ts2) (xs1 ++ xs2)
  = prune_aligned ts1 xs1 ++ prune_aligned ts2 xs2.
Proof.
  revert xs1. induction ts1 as [|t ts1 IH]; intros [|x xs1] Hlen;
    simpl in *; try done.
  injection Hlen as Hlen. rewrite IH by done.
  by destruct (is_zero_term t).
Qed.

Lemma prune_aligned_nil {X : Type} (xs : list X) : prune_aligned [] xs = xs.
Proof. by destruct xs. Qed.

Lemma prune_aligned_self ts :
  prune_aligned ts ts = filter (fun t => is_zero_term t = false) ts.
Proof.
  induction ts as [|t ts IH]; [done|]. simpl. rewrite filter_cons, IH.
  destruct (is_zero_term t); by case_decide.
Qed.

Lemma delete_middle_at {X : Type} (l1 l2 : list X) (x : X) (k : nat) :
  length l1 = k -> delete k (l1 ++ x :: l2) = l1 ++ l2.
Proof. intros <-. apply delete_middle. Qed.

(** The loop, run over the indices below [length ts1], prunes the first
    [length ts1] positions and leaves the rest of the three lists. *)
Lemma zero_clean_loop_prefix ts1 (u2 r1 r2 : list (pyval V)) (o1 o2 : list string) :
  length r1 = length ts1 -> length o1 = length ts1 ->
  zero_clean_loop (reverse (seq 0 (length ts1)))
    ((Some <$> ts1) ++ u2, r1 ++ r2, o1 ++ o2)
  = (((Some <$> prune_aligned ts1 ts1) ++ u2,
      prune_aligned ts1 r1 ++ r2, prune_aligned ts1 o1 ++ o2), Return ()).
Proof.
  revert u2 r1 r2 o1 o2.
  induction ts1 as [|t ts1 IH] using rev_ind; intros u2 r1 r2 o1 o2 Hr Ho.
  { destruct r1, o1; done. }
  rewrite length_app in Hr, Ho. simpl in Hr, Ho.
  destruct r1 as [|x r1 _] using rev_ind; [simpl in Hr; lia|].
  destruct o1 as [|o o1 _] using rev_ind; [simpl in Ho; lia|].
  rewrite length_app in Hr, Ho. simpl in Hr, Ho.
  assert (Hr1 : length r1 = length ts1) by lia.
  assert (Ho1 : length o1 = length ts1) by lia.
  rewrite length_app. simpl. rewrite Nat.add_1_r, seq_S, reverse_app. simpl.
  rewrite !prune_aligned_app by done. simpl.
  rewrite fmap_app. simpl. rewrite <- !app_assoc. simpl.
  rewrite (getitem_nat _ (length ts1) (Some t))
    by (apply list_lookup_middle; by rewrite length_fmap).
  destruct (is_zero_term t) eqn:Hz; unfold is_zero_term in Hz; rewrite Hz.
  - rewrite !delitem_nat by (rewrite length_app, ?length_fmap; simpl; lia).
    rewrite !delete_middle_at by (by rewrite ?length_fmap).
    rewrite IH by done. by rewrite !app_nil_r.
  - rewrite IH by done.
    rewrite fmap_app. simpl. by rewrite <- !app_assoc.
Qed.

(** [zero_clean] on aligned lists. *)
Lemma zero_clean_triple_aligned ts (r : list (pyval V)) ops :
  length r = length ts -> length ops = S (length ts) ->
  zero_clean_triple (Some <$> ts, r, ops)
  = ((Some <$> filter (fun t => is_zero_term t = false) ts,
      prune_aligned ts r, prune_aligned ts ops), Return ()).
Proof.
  intros Hr Ho. unfold zero_clean_triple. simpl. rewrite length_fmap.
  destruct ops as [|o ops _] using rev_ind; [done|].
  rewrite length_app in Ho. simpl in Ho.
  pose proof (zero_clean_loop_prefix ts [] r [] ops [o]) as Hloop.
  rewrite !app_nil_r in Hloop. etrans; [apply Hloop; lia|].
  rewrite prune_aligned_self.
  replace (prune_aligned ts (ops ++ [o]))
    with (prune_aligned (ts ++ []) (ops ++ [o])) by by rewrite app_nil_r.
  by rewrite prune_aligned_app, prune_aligned_nil by lia.
Qed.
End ZeroClean.

(** C5 (as stated, refuted). Pruning the terms [0, 5] with operations
    ['', '+', ''] leaves the operations ['+', '']: the token deleted is
    the one before the zero term, not the one that follows it. *)
Lemma C5_following_counterexample :
  let ts := [Term_init 0 true; Term_init 5 true] in
  let ops := [""; "+"; ""] in
  (zero_clean_triple (Some <$> ts, Some <$> ts, ops)).1.2 = ["+"; ""] /\
  (zero_clean_triple (Some <$> ts, Some <$> ts, ops)).1.2
    <> prune_following ts ops.
Proof. split; [reflexivity|]. vm_compute. discriminate. Qed.

(** C5 (amended). Zero pruning runs whenever an [Expression] is
    constructed. It removes exactly the positions whose unreduced term is
    zero, together with the reduced term and the operation token at the
    same index, which is the token written before that term. A term that
    is not zero in unreduced form stays, whatever its reduced
    counterpart. *)
Theorem C5_zero_clean (V : Type) (E : SymbolicEngine V)
    (ts : list (Term V)) (r : list (pyval V)) (ops : list string) :
  length r = length ts -> length ops = S (length ts) ->
  zero_clean_triple (Some <$> ts, r, ops)
    = ((Some <$> filter (fun t => is_zero_term t = false) ts,
        prune_aligned ts r, prune_aligned ts ops), Return ())
  /\
  (forall (h : heap) (l : loc), deref h l = ops ->
     Expression_init h (Some <$> ts) r l
     = (store h l (prune_aligned ts ops),
        Return (mkExpression
                  (Some <$> filter (fun t => is_zero_term t = false) ts)
                  (prune_aligned ts r) l)))
  /\
  (forall t, t ∈ ts -> is_zero_term t = false ->
     t ∈ filter (fun t => is_zero_term t = false) ts).
Proof.
  intros Hr Ho. split; [by apply zero_clean_triple_aligned|]. split.
  - intros h l Hl. unfold Expression_init.
    rewrite Hl, length_fmap, Ho, Hr.
    replace (S (length ts) =? length ts + 1)%nat with true
      by (symmetry; apply Nat.eqb_eq; lia).
    rewrite Nat.eqb_refl.
    unfold zero_clean. cbn [negb unreduced_terms reduced_terms operations].
    rewrite Hl.
    pose proof (zero_clean_triple_aligned ts r ops Hr Ho) as Hz.
    by rewrite Hz.
  - intros t Ht Hz. by apply list_elem_of_filter.
Qed.

Lemma C5_zero_clean_witness :
  zero_clean_triple
    (Some <$> [Term_init 5 true; Term_init 0 true; Term_init 3 true],
     [IntEngine.num 0; IntEngine.num 0; IntEngine.num 3],
     [""; "-"; "+"; ""])
  = ((IntEngine.num <$> [5; 3], [IntEngine.num 0; IntEngine.num 3],
      [""; "+"; ""]), Return ()).
Proof.
  apply (proj1 (C5_zero_clean Z IntEngine.engine
           [Term_init 5 true; Term_init 0 true; Term_init 3 true]
           [IntEngine.num 0; IntEngine.num 0; IntEngine.num 3]
           [""; "-"; "+"; ""] eq_refl eq_refl)).
Defined.

(** ** The operations of [Term] and the [expand] flag *)

(** C8 (the code departs from it). Every operation of [Term] hands the
    engine's result to [expand], whatever flag the two terms were built
    with: the flag is dropped by the constructor. On [x] and [x + 1],
    both built with the flag unset, the product is the expanded
    [x*x + x*1] and not the engine's own result [x*(x + 1)]. *)
Theorem C8_expand_flag_ignored :
  (forall (V : Type) (E : SymbolicEngine V) (f : V -> V -> V) (v w : V)
          (flag flag' : bool),
     Term_binop f (Term_init v flag) (Term_init w flag')
     = Term_init (eng_expand (f v w)) true)
  /\
  (let x := ToyEngine.SVar in
   let x1 := ToyEngine.SAdd ToyEngine.SVar (ToyEngine.SNum 1) in
   Term_mul (Term_init x false) (Term_init x1 false)
     = Term_init (ToyEngine.SAdd (ToyEngine.SMul x x)
                                 (ToyEngine.SMul x (ToyEngine.SNum 1))) true
   /\ Term_mul (Term_init x false) (Term_init x1 false)
     <> Term_init (eng_mul x x1) false).
Proof.
  split; [done|]. split; [reflexivity|]. vm_compute. discriminate.
Qed.

(** ** The "No solution" marker *)

Section NoSolution.
Context {V : Type} `{SymbolicEngine V} `{SolverEngine V}.

Lemma slice_drop_tail {A : Type} (l : list A) (cut : Z) :
  0 < cut <= Z.of_nat (length l) ->
  Py.slice l 0 (- cut) = take (length l - Z.to_nat cut) l.
Proof.
  intros Hcut. unfold Py.slice, Py.clamp.
  destruct (Z.ltb_spec (- cut) 0); [|lia].
  destruct (Z.ltb_spec 0 0); [lia|].
  replace (Z.to_nat (Z.min 0 (Z.of_nat (length l)))) with 0%nat by lia.
  rewrite drop_0. f_equal. lia.
Qed.

Lemma elem_of_slice_tail {A : Type} (a b : list A) (x : A) (cut : Z) :
  0 < cut <= Z.of_nat (length b) ->
  x ∈ Py.slice (a ++ x :: b) 0 (- cut).
Proof.
  intros Hcut. rewrite slice_drop_tail by (rewrite length_app; simpl; lia).
  apply list_elem_of_lookup. exists (length a).
  rewrite lookup_take_lt by (rewrite length_app; simpl; lia).
  by apply list_lookup_middle.
Qed.

Lemma foldl_chunks {A B : Type} (g : B -> list A) (a : list A) (l : list B) :
  foldl (fun acc s => acc ++ g s) a l
  = a ++ foldl (fun acc s => acc ++ g s) [] l.
Proof.
  revert a. induction l as [|s l IH]; intros a; simpl.
  - by rewrite app_nil_r.
  - rewrite (IH (a ++ g s)), (IH (g s)). by rewrite app_assoc.
Qed.

(** The code points of the marker: none is [=], a backslash or
    U+220A. *)
Lemma marker_chars (x : N) :
  x ∈ of_string "No solution" ->
  x <> 61%N /\ x <> 92%N /\ x <> element_of.
Proof.
  intros Hx. vm_compute in Hx.
  repeat (apply elem_of_cons in Hx as [->|Hx]; [by vm_compute|]).
  by apply elem_of_nil in Hx.
Qed.

Lemma equality_text_has_sign (render : V -> string) (var : V)
    (solutions : list V) :
  solutions <> [] -> 61%N ∈ equality_text render "=" var solutions.
Proof.
  destruct solutions as [|s rest]; [done|]. intros _.
  unfold equality_text. cbn [foldl]. rewrite foldl_chunks, app_nil_l.
  change (of_string "=") with [61%N].
  change (of_string ", ") with [44%N; 32%N].
  rewrite <- !app_assoc.
  apply (elem_of_slice_tail (of_string (render var)) _ 61%N 2).
  rewrite !length_app. cbn [length]. lia.
Qed.

Lemma interval_text_has_member (render : V -> string) (pre post join : ustr)
    (x : N) (cut : Z) (var : V) (solutions : list V) :
  solutions <> [] -> 0 < cut -> cut = Z.of_nat (length join) ->
  x ∈ interval_text render (pre ++ x :: post) join cut var solutions.
Proof.
  destruct solutions as [|s rest]; [done|]. intros _ Hcut Hjoin.
  unfold interval_text. cbn [foldl]. rewrite foldl_chunks.
  rewrite <- !app_assoc. rewrite (app_assoc (of_string (render var)) pre).
  apply (elem_of_slice_tail (of_string (render var) ++ pre) _ x cut).
  rewrite !length_app. lia.
Qed.
End NoSolution.

(** C9. When solving an equation yields no solution, both solution
    renderers return the text "No solution"; when it yields at least one,
    neither returns that text: an equality always shows its [=] sign and
    an interval form its membership sign. *)
Theorem C9_no_solution_marker (V : Type) (E : SymbolicEngine V)
    (S : SolverEngine V) (h : heap) (e : Equation V) (lhs_term rhs_term : V) :
  side_value h (lhs e) = Some (Return lhs_term) ->
  side_value h (rhs e) = Some (Return rhs_term) ->
  let solutions :=
    solutions_of (middle_sign e) (variable e) lhs_term rhs_term in
  (solutions = [] ->
     str_solution_from_equation h e = Some (Return (of_string "No solution")) /\
     latex_solution_from_equation h e = Some (Return (of_string "No solution")))
  /\
  (solutions <> [] ->
     str_solution_from_equation h e <> Some (Return (of_string "No solution")) /\
     latex_solution_from_equation h e <> Some (Return (of_string "No solution"))).
Proof.
  intros Hl Hr solutions.
  unfold str_solution_from_equation, latex_solution_from_equation,
    solution_from_equation.
  rewrite Hl, Hr. fold solutions. split.
  - intros ->. done.
  - intros Hne.
    assert (Hlen : (length solutions =? 0)%nat = false).
    { apply Nat.eqb_neq. by destruct solutions. }
    unfold str_solution_text, latex_solution_text. rewrite Hlen.
    destruct (String.eqb_spec (middle_sign e) "=") as [->|Hsign].
    + pose proof (equality_text_has_sign eng_str (variable e) solutions Hne)
        as Hstr.
      pose proof (equality_text_has_sign eng_latex (variable e) solutions Hne)
        as Hlatex.
      split.
      * intros [= Heq]. rewrite Heq in Hstr.
        by destruct (marker_chars _ Hstr) as (? & _).
      * destruct (length (equality_text eng_latex "=" _ _) =? 0)%nat eqn:Hz.
        { apply Nat.eqb_eq, length_zero_iff_nil in Hz. rewrite Hz in Hlatex.
          by apply elem_of_nil in Hlatex. }
        intros [= Heq]. rewrite Heq in Hlatex.
        by destruct (marker_chars _ Hlatex) as (? & _).
    + pose proof (interval_text_has_member eng_str [space] [space]
                    [space; union; space] element_of 3 (variable e) solutions
                    Hne ltac:(lia) eq_refl) as Hstr.
      pose proof (interval_text_has_member eng_latex [32%N]
                    [105%N; 110%N; 32%N] (of_string " \cup ") 92%N 6
                    (variable e) solutions Hne ltac:(lia) eq_refl) as Hlatex.
      change ([32%N] ++ 92%N :: [105%N; 110%N; 32%N])
        with (of_string " \in ") in Hlatex.
      change ([space] ++ element_of :: [space])
        with [space; element_of; space] in Hstr.
      split.
      * intros [= Heq]. rewrite Heq in Hstr.
        by destruct (marker_chars _ Hstr) as (_ & _ & ?).
      * destruct (length (interval_text eng_latex _ _ _ _ _) =? 0)%nat eqn:Hz.
        { apply Nat.eqb_eq, length_zero_iff_nil in Hz. rewrite Hz in Hlatex.
          by apply elem_of_nil in Hlatex. }
        intros [= Heq]. rewrite Heq in Hlatex.
        by destruct (marker_chars _ Hlatex) as (_ & ? & _).
Qed.

Lemma C9_no_solution_marker_witness :
  let e := mkEquation (mkExpression [IntEngine.num 2] [IntEngine.num 2] 0%nat)
                      (mkExpression [IntEngine.num 3] [IntEngine.num 3] 0%nat)
                      "=" 0 in
  str_solution_from_equation [[""; ""]] e
    = Some (Return (of_string "No solution")) /\
  latex_solution_from_equation [[""; ""]] e
    = Some (Return (of_string "No solution")).
Proof.
  intros e.
  apply (proj1 (C9_no_solution_marker Z IntEngine.engine IntEngine.solver
                 [[""; ""]] e 2 3 eq_refl eq_refl)).
  reflexivity.
Defined.

(** ** The parallel-array invariant *)

Section Parallel.
Context {V : Type} `{SymbolicEngine V}.

Lemma norm_index_nat_Some {A : Type} (l : list A) (i k : nat) :
  Py.norm_index l (Z.of_nat i) = Some k -> k = i /\ (i < length l)%nat.
Proof.
  unfold Py.norm_index.
  destruct (Z.leb_spec 0 (Z.of_nat i)); [|lia].
  destruct (Z.ltb_spec (Z.of_nat i) (Z.of_nat (length l))); simpl.
  - intros [= <-]. lia.
  - destruct (Z.leb_spec (- Z.of_nat (length l)) (Z.of_nat i)),
      (Z.ltb_spec (Z.of_nat i) 0); simpl; try done; lia.
Qed.

Lemma zero_clean_at_aligned (i : nat) (st st' : triple V) :
  zero_clean_at i st = (st', Return ()) -> aligned st -> aligned st'.
Proof.
  destruct st as [[u r] ops]. unfold aligned. simpl.
  unfold Py.getitem, Py.delitem.
  destruct (Py.norm_index u (Z.of_nat i)) as [k|] eqn:Hk; [|done].
  apply norm_index_nat_Some in Hk as [-> Hi].
  destruct (u !! i) as [[t|]|]; try done.
  destruct (eng_is_zero (sympy_term t)); [|by intros [= <-]].
  intros Hst [Hr Ho].
  rewrite !norm_index_nat in Hst by lia.
  injection Hst as <-. simpl.
  pose proof (length_delete_lt u i). pose proof (length_delete_lt r i).
  pose proof (length_delete_lt ops i). lia.
Qed.

Lemma zero_clean_loop_aligned (idxs : list nat) (st st' : triple V) :
  zero_clean_loop idxs st = (st', Return ()) -> aligned st -> aligned st'.
Proof.
  revert st. induction idxs as [|i idxs IH]; intros st; simpl.
  - by intros [= <-].
  - destruct (zero_clean_at i st) as [st1 [[]|e]] eqn:Hat; [|done].
    intros Hloop Hal. apply (IH st1); [done|].
    by apply (zero_clean_at_aligned i st).
Qed.

Lemma deref_store (h : heap) (l : loc) (ops : list string) :
  (l < length h)%nat -> deref (store h l ops) l = ops.
Proof.
  intros Hl. unfold deref, store. by rewrite list_lookup_insert_eq.
Qed.

Lemma deref_valid (h : heap) (l : loc) :
  deref h l <> [] -> (l < length h)%nat.
Proof.
  unfold deref. intros Hne. apply lookup_lt_is_Some.
  destruct (h !! l); [eauto|done].
Qed.

Lemma deref_alloc (h : heap) (ops : list string) :
  deref (alloc h ops).1 (alloc h ops).2 = ops.
Proof. unfold deref, alloc. simpl. by rewrite list_lookup_middle. Qed.

(** [zero_clean] keeps the invariant of the expression it runs on. *)
Lemma zero_clean_parallel (h h' : heap) (e e' : Expression V) :
  zero_clean h e = (h', e', Return ()) -> parallel h e -> parallel h' e'.
Proof.
  unfold zero_clean, parallel.
  destruct (zero_clean_triple _) as [[[u r] ops] res] eqn:Hz.
  intros [= <- <- ->] [Hur Hops].
  unfold zero_clean_triple in Hz.
  apply zero_clean_loop_aligned in Hz as [Hr Ho];
    [|by split; simpl; [symmetry|]].
  simpl in *. rewrite deref_store; [done|].
  apply deref_valid. by destruct (deref h (operations e)).
Qed.

(** The constructor accepts only aligned lists and returns an
    expression that satisfies the invariant. *)
Lemma Expression_init_parallel (h h' : heap) (u r : list (pyval V))
    (l : loc) (e : Expression V) :
  Expression_init h u r l = (h', Return e) -> parallel h' e.
Proof.
  unfold Expression_init.
  destruct (Nat.eqb_spec (length (deref h l)) (length u + 1)) as [Ho|];
    [|done].
  destruct (Nat.eqb_spec (length u) (length r)) as [Hr|]; [|done].
  simpl. destruct (zero_clean h _) as [[h1 e1] [[]|x]] eqn:Hz; [|done].
  intros [= <- <-]. apply (zero_clean_parallel _ _ _ _ Hz).
  split; simpl; [done|lia].
Qed.

(** [simplify] leaves one term on each side and the pair ['', '']. *)
Lemma simplify_parallel (h h' : heap) (e e' : Expression V) :
  simplify h e = Some (h', e', Return ()) ->
  parallel h' e' /\ length (unreduced_terms e') = 1%nat /\
  deref h' (operations e') = [""; ""].
Proof.
  unfold simplify.
  destruct (combine_unreduced h e) as [[u|]|]; try done.
  destruct (combine_reduced h e) as [[r|]|]; try done.
  simpl. intros [= <- <-]. unfold parallel. simpl.
  pose proof (deref_alloc h [""; ""]) as Hd. simpl in Hd. by rewrite Hd.
Qed.

(** Every closure operator returns an expression that satisfies the
    invariant, or raises. *)
Lemma closure_parallel (op : string) (h h' : heap)
    (self other e : Expression V) :
  closure op h self other = (h', Return e) -> parallel h' e.
Proof. unfold closure. simpl. apply Expression_init_parallel. Qed.
End Parallel.

(** C7 (the code departs from it). The constructor copies the two term
    lists but keeps the list of operations by reference, and zero pruning
    deletes from that list in place. Build [e1] on the terms [1] and the
    list object ['', ''], then [e2] on the terms [0] and the same list
    object: both constructions succeed, pruning of [e2] empties one slot
    of the shared list, and [e1] is left with one term and one operation.
    The same happens through [copy], which hands the expression's own
    list of operations to the constructor. *)
Theorem C7_shared_operations_break_invariant :
  let h0 : heap := [[""; ""]] in
  let one := [IntEngine.num 1] in
  let zero := [IntEngine.num 0] in
  (exists e1 e2 h2,
     Expression_init h0 one one 0%nat = (h0, Return e1) /\
     parallel h0 e1 /\
     Expression_init h0 zero zero 0%nat = (h2, Return e2) /\
     parallel h2 e2 /\
     length (unreduced_terms e1) = 1%nat /\
     deref h2 (operations e1) = [""] /\
     ~ parallel h2 e1)
  /\
  (let h : heap := [[""; "+"; ""]] in
   let e := mkExpression [IntEngine.num 1; IntEngine.num 2]
                         [IntEngine.num 1; IntEngine.num 2] 0%nat in
   exists c h' e',
     copy h e = (h, Return c) /\ parallel h c /\
     zero_clean h (mkExpression [IntEngine.num 0; IntEngine.num 2]
                                (reduced_terms e) (operations e))
       = (h', e', Return ()) /\
     parallel h' e' /\ ~ parallel h' c).
Proof.
  split.
  - eexists _, _, _. split; [reflexivity|]. split; [by split|].
    split; [reflexivity|]. split; [by split|].
    split; [reflexivity|]. split; [reflexivity|].
    intros [_ Hops]. vm_compute in Hops. discriminate.
  - eexists _, _, _. split; [reflexivity|]. split; [by split|].
    split; [reflexivity|]. split; [by split|].
    intros [_ Hops]. vm_compute in Hops. discriminate.
Qed.

(** ** Culling doubled signs *)

Section CullSigns.

Lemma string_ind2 (P : string -> Prop) :
  P EmptyString -> (forall x, P (String x EmptyString)) ->
  (forall x y t, P t -> P (String y t) -> P (String x (String y t))) ->
  forall s, P s.
Proof.
  intros H0 H1 H2 s.
  assert (Hboth : P s /\ forall x, P (String x s)).
  { induction s as [|y t [IHt IHyt]]; [by split|].
    split; [apply IHyt|]. intros x. apply H2; [done|apply IHyt]. }
  apply Hboth.
Qed.

Lemma prefix_two (a b x y : ascii) (t : string) :
  String.prefix (String a (String b EmptyString)) (String x (String y t))
  = Ascii.eqb a x && Ascii.eqb b y.
Proof.
  simpl.
  destruct (ascii_dec a x) as [->|Hax], (ascii_dec b y) as [->|Hby];
    rewrite ?Ascii.eqb_refl; simpl.
  - by destruct t.
  - symmetry. by apply Ascii.eqb_neq.
  - symmetry. apply andb_false_iff. left. by apply Ascii.eqb_neq.
  - symmetry. apply andb_false_iff. left. by apply Ascii.eqb_neq.
Qed.

Lemma prefix_two_short (a b x : ascii) :
  String.prefix (String a (String b EmptyString)) (String x EmptyString)
  = false.
Proof. simpl. by destruct (ascii_dec a x). Qed.

Lemma replace_go_cons (old new : string) (x : ascii) (s : string) :
  PyStr.replace_go old new 0 (String x s)
  = if String.prefix old (String x s)
    then new +:+ PyStr.replace_go old new (String.length old - 1) s
    else String x (PyStr.replace_go old new 0 s).
Proof. done. Qed.

Lemma replace_go_skip (old new : string) (k : nat) (x : ascii) (s : string) :
  PyStr.replace_go old new (S k) (String x s) = PyStr.replace_go old new k s.
Proof. done. Qed.

Lemma replace_pair_cons (a b c x y : ascii) (t : string) :
  replace_pair a b c (String x (String y t))
  = if Ascii.eqb a x && Ascii.eqb b y
    then String c (replace_pair a b c t)
    else String x (replace_pair a b c (String y t)).
Proof. done. Qed.

(** The general [replace] agrees with the direct recursion. *)
Lemma replace_is_replace_pair (a b c : ascii) (s : string) :
  PyStr.replace (String a (String b EmptyString)) (String c EmptyString) s
  = replace_pair a b c s.
Proof.
  unfold PyStr.replace.
  induction s as [|x|x y t IHt IHyt] using string_ind2; [done| |].
  - cbn [PyStr.replace_go]. by rewrite prefix_two_short.
  - rewrite replace_go_cons, replace_pair_cons, prefix_two.
    destruct (Ascii.eqb a x && Ascii.eqb b y).
    + change (String.length (String a (String b EmptyString)) - 1)%nat
        with 1%nat.
      rewrite replace_go_skip, IHt. done.
    + by rewrite IHyt.
Qed.

Lemma sign_not_nonsign (a x : ascii) :
  is_sign a = true -> is_sign x = false -> Ascii.eqb a x = false.
Proof.
  intros Ha Hx. destruct (Ascii.eqb_spec a x) as [->|]; [congruence|done].
Qed.

Section Pass.
Variables (a b c : ascii).
Hypotheses (Ha : is_sign a = true) (Hb : is_sign b = true)
           (Hc : is_sign c = true).
Local Abbreviation R := (replace_pair a b c).

Lemma replace_pair_nonsign (x : ascii) (s : string) :
  is_sign x = false -> R (String x s) = String x (R s).
Proof.
  intros Hx. destruct s as [|y t]; [done|].
  rewrite replace_pair_cons. by rewrite (sign_not_nonsign a x).
Qed.

Lemma replace_pair_sign_nonsign (x y : ascii) (t : string) :
  is_sign y = false ->
  R (String x (String y t)) = String x (String y (R t)).
Proof.
  intros Hy. rewrite replace_pair_cons, (sign_not_nonsign b y) by done.
  rewrite andb_false_r. by rewrite replace_pair_nonsign.
Qed.

Lemma no_three_nonsign (x : ascii) (s : string) :
  is_sign x = false -> no_three_signs (String x s) = no_three_signs s.
Proof.
  intros Hx. destruct s as [|y [|z t]]; try done.
  cbn [no_three_signs]. by rewrite Hx.
Qed.

Lemma no_three_sign_nonsign (x y : ascii) (s : string) :
  is_sign y = false ->
  no_three_signs (String x (String y s)) = no_three_signs s.
Proof.
  intros Hy. rewrite <- (no_three_nonsign y s Hy).
  destruct s as [|z t]; [done|].
  change (no_three_signs (String x (String y (String z t))))
    with (negb (is_sign x && is_sign y && is_sign z)
          && no_three_signs (String y (String z t))).
  by rewrite Hy, andb_false_r.
Qed.

Lemma pairs_ok_nonsign (G : ascii -> ascii -> bool) (x : ascii) (s : string) :
  is_sign x = false -> pairs_ok G (String x s) = pairs_ok G s.
Proof. intros Hx. destruct s as [|y t]; [done|]. simpl. by rewrite Hx. Qed.

Lemma pairs_ok_sign_nonsign (G : ascii -> ascii -> bool) (x y : ascii)
    (s : string) :
  is_sign y = false -> pairs_ok G (String x (String y s)) = pairs_ok G s.
Proof.
  intros Hy. rewrite <- (pairs_ok_nonsign G y s Hy).
  change (pairs_ok G (String x (String y s)))
    with ((negb (is_sign x && is_sign y) || G x y)
          && pairs_ok G (String y s)).
  by rewrite Hy, andb_false_r.
Qed.

(** One pass over a text without three signs in a row: the pattern is
    gone, no other pair of signs is new, and there are still no three
    signs in a row. *)
Lemma replace_pair_pass (G : ascii -> ascii -> bool) (s : string) :
  no_three_signs s = true -> pairs_ok G s = true ->
  no_three_signs (R s) = true /\
  pairs_ok (fun x y => G x y && negb (Ascii.eqb a x && Ascii.eqb b y))
           (R s) = true.
Proof.
  induction s as [|x|x y t IHt IHyt] using string_ind2; [done|done|].
  intros H3 Hp.
  destruct (is_sign x) eqn:Hx.
  2:{ rewrite replace_pair_nonsign by done.
      rewrite no_three_nonsign, pairs_ok_nonsign in * by done. auto. }
  destruct (is_sign y) eqn:Hy.
  2:{ rewrite replace_pair_sign_nonsign by done.
      rewrite no_three_sign_nonsign, pairs_ok_sign_nonsign in * by done.
      auto. }
  assert (Hxy : G x y = true).
  { cbn [pairs_ok] in Hp. rewrite Hx, Hy in Hp. cbn [andb negb orb] in Hp.
    by apply andb_true_iff in Hp as [? _]. }
  rewrite replace_pair_cons.
  destruct t as [|z t'].
  { destruct (Ascii.eqb a x && Ascii.eqb b y) eqn:Hm; [done|].
    cbn [replace_pair no_three_signs pairs_ok].
    by rewrite Hx, Hy, Hxy, Hm. }
  assert (Hz : is_sign z = false).
  { cbn [no_three_signs] in H3. rewrite Hx, Hy in H3.
    cbn [andb] in H3.
    apply andb_true_iff in H3 as [Hz _]. by apply negb_true_iff. }
  assert (H3t : no_three_signs (String z t') = true).
  { change (no_three_signs (String x (String y (String z t'))))
      with (negb (is_sign x && is_sign y && is_sign z)
            && no_three_signs (String y (String z t'))) in H3.
    apply andb_true_iff in H3 as [_ H3].
    rewrite no_three_sign_nonsign in H3 by done.
    by rewrite no_three_nonsign. }
  assert (Hpt : pairs_ok G (String z t') = true).
  { change (pairs_ok G (String x (String y (String z t'))))
      with ((negb (is_sign x && is_sign y) || G x y)
            && pairs_ok G (String y (String z t'))) in Hp.
    apply andb_true_iff in Hp as [_ Hp].
    rewrite pairs_ok_sign_nonsign in Hp by done.
    by rewrite pairs_ok_nonsign. }
  destruct (IHt H3t Hpt) as [IH3 IHp].
  rewrite replace_pair_nonsign in IH3, IHp by done.
  rewrite no_three_nonsign in IH3 by done.
  rewrite pairs_ok_nonsign in IHp by done.
  destruct (Ascii.eqb a x && Ascii.eqb b y) eqn:Hm.
  - rewrite replace_pair_nonsign by done.
    by rewrite no_three_sign_nonsign, pairs_ok_sign_nonsign.
  - rewrite replace_pair_sign_nonsign by done.
    split.
    + change (no_three_signs (String x (String y (String z (R t')))))
        with (negb (is_sign x && is_sign y && is_sign z)
              && no_three_signs (String y (String z (R t')))).
      by rewrite Hz, andb_false_r, no_three_sign_nonsign.
    + match goal with |- pairs_ok ?G' _ = true =>
        change (pairs_ok G' (String x (String y (String z (R t')))))
          with ((negb (is_sign x && is_sign y) || G' x y)
                && pairs_ok G' (String y (String z (R t'))))
      end.
      rewrite pairs_ok_sign_nonsign by done.
      by rewrite Hxy, Hm, IHp, orb_true_r.
Qed.

(** A pass changes nothing when its pattern is not an allowed pair. *)
Lemma replace_pair_absent (G : ascii -> ascii -> bool) (s : string) :
  G a b = false -> pairs_ok G s = true -> R s = s.
Proof.
  intros Hab.
  induction s as [|x|x y t IHt IHyt] using string_ind2; [done|done|].
  intros Hp. rewrite replace_pair_cons.
  change (pairs_ok G (String x (String y t)))
    with ((negb (is_sign x && is_sign y) || G x y)
          && pairs_ok G (String y t)) in Hp.
  apply andb_true_iff in Hp as [Hxy Hrest].
  destruct (Ascii.eqb_spec a x) as [<-|]; [|by rewrite IHyt].
  destruct (Ascii.eqb_spec b y) as [<-|]; [|by rewrite IHyt].
  by rewrite Ha, Hb, Hab in Hxy.
Qed.
End Pass.

Lemma pairs_ok_weaken (G G' : ascii -> ascii -> bool) (s : string) :
  (forall x y, is_sign x = true -> is_sign y = true ->
               G x y = true -> G' x y = true) ->
  pairs_ok G s = true -> pairs_ok G' s = true.
Proof.
  intros HG.
  induction s as [|x|x y t IHt IHyt] using string_ind2; [done|done|].
  change (pairs_ok G (String x (String y t)))
    with ((negb (is_sign x && is_sign y) || G x y)
          && pairs_ok G (String y t)).
  change (pairs_ok G' (String x (String y t)))
    with ((negb (is_sign x && is_sign y) || G' x y)
          && pairs_ok G' (String y t)).
  intros [Hxy Hrest]%andb_true_iff. rewrite (IHyt Hrest), andb_true_r.
  destruct (is_sign x) eqn:Hx, (is_sign y) eqn:Hy; try done.
  cbn [andb negb orb] in *. by apply HG.
Qed.

Lemma pairs_ok_all (s : string) : pairs_ok (fun _ _ => true) s = true.
Proof.
  induction s as [|x|x y t IHt IHyt] using string_ind2; [done|done|].
  change (pairs_ok (fun _ _ => true) (String x (String y t)))
    with ((negb (is_sign x && is_sign y) || true)
          && pairs_ok (fun _ _ => true) (String y t)).
  by rewrite orb_true_r, IHyt.
Qed.

Lemma sign_pair_cases (x y : ascii) :
  is_sign x && is_sign y
  = (Ascii.eqb "+" x && Ascii.eqb "-" y) || (Ascii.eqb "-" x && Ascii.eqb "+" y)
    || (Ascii.eqb "-" x && Ascii.eqb "-" y)
    || (Ascii.eqb "+" x && Ascii.eqb "+" y).
Proof.
  unfold is_sign. rewrite (Ascii.eqb_sym x "+"), (Ascii.eqb_sym x "-"),
    (Ascii.eqb_sym y "+"), (Ascii.eqb_sym y "-").
  destruct (Ascii.eqb "+" x), (Ascii.eqb "-" x), (Ascii.eqb "+" y),
    (Ascii.eqb "-" y); done.
Qed.

Lemma has_substring_two (a b x y : ascii) (t : string) :
  PyStr.has_substring (String a (String b EmptyString)) (String x (String y t))
  = (Ascii.eqb a x && Ascii.eqb b y)
    || PyStr.has_substring (String a (String b EmptyString)) (String y t).
Proof.
  change (PyStr.has_substring ?p (String x (String y t)))
    with (String.prefix p (String x (String y t))
          || PyStr.has_substring p (String y t)).
  by rewrite prefix_two.
Qed.

Lemma has_substring_one (a b x : ascii) :
  PyStr.has_substring (String a (String b EmptyString)) (String x EmptyString)
  = false.
Proof.
  change (PyStr.has_substring ?p (String x EmptyString))
    with (String.prefix p (String x EmptyString) || String.prefix p EmptyString).
  by rewrite prefix_two_short.
Qed.

(** No pair of adjacent signs is the same as none of the four doubled
    signs. *)
Lemma pairs_none_iff (s : string) :
  pairs_ok (fun _ _ => false) s = true <-> no_doubled_sign s.
Proof.
  unfold no_doubled_sign.
  induction s as [|x|x y t IHt IHyt] using string_ind2.
  - done.
  - by rewrite !has_substring_one.
  - change (pairs_ok (fun _ _ => false) (String x (String y t)))
      with ((negb (is_sign x && is_sign y) || false)
            && pairs_ok (fun _ _ => false) (String y t)).
    rewrite !has_substring_two, sign_pair_cases, orb_false_r.
    rewrite andb_true_iff, IHyt, negb_true_iff, !orb_false_iff. tauto.
Qed.

Lemma cull_signs_passes (s : string) :
  cull_signs s
  = replace_pair "+" "+" "+"
      (replace_pair "-" "-" "+"
         (replace_pair "-" "+" "-" (replace_pair "+" "-" "-" s))).
Proof. unfold cull_signs. by rewrite !replace_is_replace_pair. Qed.

(** A single pass is enough when no three signs stand in a row. *)
Lemma cull_signs_normalizes (s : string) :
  no_three_signs s = true -> no_doubled_sign (cull_signs s).
Proof.
  intros H3. rewrite cull_signs_passes. apply pairs_none_iff.
  destruct (replace_pair_pass "+" "-" "-" eq_refl eq_refl _ s H3
              (pairs_ok_all s)) as [H31 Hp1].
  destruct (replace_pair_pass "-" "+" "-" eq_refl eq_refl _ _ H31 Hp1)
    as [H32 Hp2].
  destruct (replace_pair_pass "-" "-" "+" eq_refl eq_refl _ _ H32 Hp2)
    as [H33 Hp3].
  destruct (replace_pair_pass "+" "+" "+" eq_refl eq_refl _ _ H33 Hp3)
    as [_ Hp4].
  revert Hp4. apply pairs_ok_weaken. intros x y Hx Hy.
  pose proof (sign_pair_cases x y) as Hc. rewrite Hx, Hy in Hc.
  cbn [andb] in Hc.
  destruct (Ascii.eqb "+" x), (Ascii.eqb "-" x), (Ascii.eqb "+" y),
    (Ascii.eqb "-" y); done.
Qed.

(** The four rules change nothing in a text without doubled signs. *)
Lemma cull_signs_fixed (s : string) :
  no_doubled_sign s -> cull_signs s = s.
Proof.
  intros Hs%pairs_none_iff. rewrite cull_signs_passes.
  rewrite (replace_pair_absent "+" "-" "-" eq_refl eq_refl (fun _ _ => false))
    by done.
  rewrite (replace_pair_absent "-" "+" "-" eq_refl eq_refl (fun _ _ => false))
    by done.
  rewrite (replace_pair_absent "-" "-" "+" eq_refl eq_refl (fun _ _ => false))
    by done.
  by rewrite (replace_pair_absent "+" "+" "+" eq_refl eq_refl
                (fun _ _ => false)).
Qed.
End CullSigns.

(** C6 (as stated, refuted). The terms [1, -2] joined by the token '--'
    give the text "1---2"; the four rules, applied once each, leave
    "1+-2", which still holds "+-" and which the rules would change
    again. *)
Lemma C6_single_pass_counterexample :
  let e := mkExpression [IntEngine.num 1; IntEngine.num (-2)]
                        [IntEngine.num 1; IntEngine.num (-2)] 0%nat in
  str_question_from_expression [[""; "--"; ""]] e = Return "1+-2" /\
  latex_question_from_expression [[""; "--"; ""]] e = Return "1+-2" /\
  PyStr.has_substring "+-" "1+-2" = true /\
  cull_signs "1+-2" <> "1+-2".
Proof. repeat split; try reflexivity. vm_compute. discriminate. Qed.

(** C6 (amended). Both question renderers apply the four rewrites once
    each, in the order "+-" to "-", "-+" to "-", "--" to "+", "++" to
    "+". When the text built from the tokens and terms has no three sign
    characters in a row, the rendered question holds none of "+-", "-+",
    "--", "++"; and the four rules change nothing in a text that holds
    none of them. *)
Theorem C6_cull_signs :
  (forall (V : Type) (h : heap) (e : Expression V) (raw : string),
     no_three_signs raw = true ->
     (question_text (fun o => o) str_term (unreduced_terms e)
        (deref h (operations e)) = Return raw ->
      exists q, str_question_from_expression h e = Return q /\
                no_doubled_sign q)
     /\
     (question_text convert_op_to_latex latex_term (unreduced_terms e)
        (deref h (operations e)) = Return raw ->
      exists q, latex_question_from_expression h e = Return q /\
                no_doubled_sign q))
  /\
  (forall s : string, no_doubled_sign s -> cull_signs s = s).
Proof.
  split; [|apply cull_signs_fixed].
  intros V h e raw H3.
  unfold str_question_from_expression, latex_question_from_expression.
  split; intros ->; simpl; eexists; (split; [done|]);
    by apply cull_signs_normalizes.
Qed.

Lemma C6_cull_signs_witness :
  exists q,
    str_question_from_expression [[""; "+"; "-"; ""]]
      (mkExpression [IntEngine.num 1; IntEngine.num (-2); IntEngine.num (-3)]
                    [IntEngine.num 1; IntEngine.num (-2); IntEngine.num (-3)]
                    0%nat) = Return q /\
    no_doubled_sign q.
Proof.
  apply (proj1 (proj1 C6_cull_signs Z [[""; "+"; "-"; ""]]
                 (mkExpression
                    [IntEngine.num 1; IntEngine.num (-2); IntEngine.num (-3)]
                    [IntEngine.num 1; IntEngine.num (-2); IntEngine.num (-3)]
                    0%nat) "1+-2--3" eq_refl)).
  reflexivity.
Defined.

(** ** Selecting the group: first and last marks, nearest closing mark *)

Section Selection.
Import Py.

Lemma locs_from_elem (k : nat) (c : ascii) (l : list string) (j : nat) :
  j ∈ locs_from k c l <->
  (k <= j)%nat /\ exists o, l !! (j - k)%nat = Some o /\ contains c o = true.
Proof.
  revert k. induction l as [|o l IH]; intros k; simpl.
  - split; [by intros ?%elem_of_nil|]. by intros (_ & o & Ho & _).
  - assert (Htail : j ∈ locs_from (S k) c l <->
              (S k <= j)%nat /\
              exists o', (o :: l) !! (j - k)%nat = Some o' /\
                         contains c o' = true).
    { rewrite IH. split.
      - intros (Hle & o' & Ho' & Hc). split; [done|]. exists o'.
        by replace (j - k)%nat with (S (j - S k)) by lia.
      - intros (Hle & o' & Ho' & Hc). split; [done|]. exists o'.
        by replace (j - k)%nat with (S (j - S k)) in Ho' by lia. }
    destruct (contains c o) eqn:Ho.
    + rewrite elem_of_cons, Htail. split.
      * intros [->|(Hle & Hex)]; [|split; [lia|done]].
        split; [lia|]. exists o. by rewrite Nat.sub_diag.
      * intros (Hle & o' & Ho' & Hc).
        destruct (decide (j = k)) as [->|Hne]; [by left|right].
        split; [lia|]. by exists o'.
    + rewrite Htail. split.
      * intros (Hle & Hex). split; [lia|done].
      * intros (Hle & o' & Ho' & Hc).
        destruct (decide (j = k)) as [->|Hne].
        { rewrite Nat.sub_diag in Ho'. simpl in Ho'. congruence. }
        split; [lia|]. by exists o'.
Qed.

Lemma locs_elem (c : ascii) (l : list string) (j : nat) :
  j ∈ locs c l <-> exists o, l !! j = Some o /\ contains c o = true.
Proof.
  unfold locs. rewrite locs_from_elem, Nat.sub_0_r. split.
  - by intros [_ ?].
  - intros ?. split; [lia|done].
Qed.

(** The positions are listed in increasing order. *)
Lemma locs_from_head (k : nat) (c : ascii) (l : list string) (a : nat) :
  head (locs_from k c l) = Some a ->
  forall j, j ∈ locs_from k c l -> (a <= j)%nat.
Proof.
  revert k. induction l as [|o l IH]; intros k; simpl; [done|].
  destruct (contains c o).
  - simpl. intros [= <-] j [->|Hj]%elem_of_cons; [lia|].
    apply locs_from_elem in Hj as [Hle _]. lia.
  - apply IH.
Qed.

Lemma locs_last_intro (c : ascii) (l : list string) (L : nat) (o : string) :
  l !! L = Some o -> contains c o = true ->
  (forall j o', (L < j)%nat -> l !! j = Some o' -> contains c o' = false) ->
  last (locs c l) = Some L.
Proof.
  intros HL Hc Hafter.
  destruct (last (locs c l)) as [L'|] eqn:Hlast.
  - destruct (locs_last _ _ _ Hlast) as [(o' & Ho' & Hc') Hafter'].
    destruct (Nat.lt_trichotomy L L') as [Hlt|[->|Hlt]]; [|done|].
    + by rewrite (Hafter L' o' Hlt Ho') in Hc'.
    + by rewrite (Hafter' L o Hlt HL) in Hc.
  - apply last_None in Hlast.
    assert (Hin : L ∈ locs c l) by (apply locs_elem; eauto).
    rewrite Hlast in Hin. by apply elem_of_nil in Hin.
Qed.

(** The assertion on the first marks passes when some opening mark
    stands at [l0] and no closing mark stands at or before [l0]. *)
Lemma head_check_passes (ops : list string) (l0 : nat) (o : string) :
  ops !! l0 = Some o -> contains "(" o = true ->
  (forall j o', (j <= l0)%nat -> ops !! j = Some o' ->
                contains ")" o' = false) ->
  length (locs "(" ops) = length (locs ")" ops) ->
  exists a b, head (locs "(" ops) = Some a /\ head (locs ")" ops) = Some b /\
              (a < b)%nat.
Proof.
  intros Hl0 Hc Hbefore Hcount.
  assert (Hin : l0 ∈ locs "(" ops) by (apply locs_elem; eauto).
  destruct (locs "(" ops) as [|a left] eqn:Hleft;
    [by apply elem_of_nil in Hin|].
  destruct (locs ")" ops) as [|b right] eqn:Hright; [done|].
  exists a, b. split; [done|]. split; [done|].
  assert (Ha : (a <= l0)%nat).
  { unfold locs in Hleft.
    apply (locs_from_head 0 "(" ops a); by rewrite Hleft. }
  assert (Hb : b ∈ locs ")" ops) by (rewrite Hright; left).
  apply locs_elem in Hb as (ob & Hob & Hcb).
  destruct (Nat.le_gt_cases b l0) as [Hle|Hgt]; [|lia].
  by rewrite (Hbefore b ob Hle Hob) in Hcb.
Qed.
End Selection.

Section Closest.

Lemma closest_fold_spec (L : nat) (rs : list nat) :
  let st := foldl (closest_step L) (10000, -1) rs in
  (st = (10000, -1) /\
   forall r, r ∈ rs -> (L < r)%nat -> 10000 <= Z.of_nat r - Z.of_nat L)
  \/
  (exists c, st = (Z.of_nat c - Z.of_nat L, Z.of_nat c) /\ nearest L rs c).
Proof.
  induction rs as [|r rs IH] using rev_ind; simpl.
  { left. split; [done|]. by intros r ?%elem_of_nil. }
  rewrite foldl_app. simpl.
  destruct IH as [[-> Hfar]|(c & -> & Hin & HLc & Hd & Hmin)];
    unfold closest_step; simpl.
  - destruct (Z.ltb_spec 0 (Z.of_nat r - Z.of_nat L)) as [Hpos|Hpos];
      destruct (Z.ltb_spec (Z.of_nat r - Z.of_nat L) 10000) as [Hlt|Hlt];
      simpl.
    + right. exists r. split; [done|]. unfold nearest.
      split; [apply elem_of_app; right; by left|].
      split; [lia|]. split; [done|].
      intros r' [Hr'|Hr']%elem_of_app Hgt.
      * specialize (Hfar r' Hr' Hgt). lia.
      * apply list_elem_of_singleton in Hr' as ->. lia.
    + left. split; [done|]. intros r' [Hr'|Hr']%elem_of_app Hgt; [auto|].
      apply list_elem_of_singleton in Hr' as ->. lia.
    + left. split; [done|]. intros r' [Hr'|Hr']%elem_of_app Hgt; [auto|].
      apply list_elem_of_singleton in Hr' as ->. lia.
    + left. split; [done|]. intros r' [Hr'|Hr']%elem_of_app Hgt; [auto|].
      apply list_elem_of_singleton in Hr' as ->. lia.
  - right.
    destruct (Z.ltb_spec 0 (Z.of_nat r - Z.of_nat L)) as [Hpos|Hpos];
      destruct (Z.ltb_spec (Z.of_nat r - Z.of_nat L)
                           (Z.of_nat c - Z.of_nat L)) as [Hlt|Hlt];
      simpl.
    + exists r. split; [done|]. unfold nearest.
      split; [apply elem_of_app; right; by left|].
      split; [lia|]. split; [lia|].
      intros r' [Hr'|Hr']%elem_of_app Hgt.
      * specialize (Hmin r' Hr' Hgt). lia.
      * apply list_elem_of_singleton in Hr' as ->. lia.
    + exists c. split; [done|]. unfold nearest.
      split; [apply elem_of_app; by left|]. split; [done|]. split; [done|].
      intros r' [Hr'|Hr']%elem_of_app Hgt; [auto|].
      apply list_elem_of_singleton in Hr' as ->. lia.
    + exists c. split; [done|]. unfold nearest.
      split; [apply elem_of_app; by left|]. split; [done|]. split; [done|].
      intros r' [Hr'|Hr']%elem_of_app Hgt; [auto|].
      apply list_elem_of_singleton in Hr' as ->. lia.
    + exists c. split; [done|]. unfold nearest.
      split; [apply elem_of_app; by left|]. split; [done|]. split; [done|].
      intros r' [Hr'|Hr']%elem_of_app Hgt; [auto|].
      apply list_elem_of_singleton in Hr' as ->. lia.
Qed.

Lemma closest_loc_intro (L : nat) (rs : list nat) (c : nat) :
  nearest L rs c -> closest_loc L rs = Z.of_nat c.
Proof.
  intros (Hin & HLc & Hd & Hmin). unfold closest_loc.
  destruct (closest_fold_spec L rs) as [[_ Hfar]|(c' & -> & Hin' & HLc' & _ & Hmin')].
  - specialize (Hfar c Hin HLc). lia.
  - simpl. specialize (Hmin c' Hin' HLc'). specialize (Hmin' c Hin HLc).
    f_equal. lia.
Qed.

Lemma closest_loc_elim (L : nat) (rs : list nat) (c : nat) :
  closest_loc L rs = Z.of_nat c -> nearest L rs c.
Proof.
  unfold closest_loc.
  destruct (closest_fold_spec L rs) as [[-> _]|(c' & -> & Hn)]; simpl.
  - lia.
  - intros Hc. by replace c with c' by lia.
Qed.
End Closest.

(** ** The grouping case, read off a split of the operations *)

Section SplitSelection.
Import Py.
Implicit Types (pre mid post rest ops : list string) (oL oc : string).

Lemma lookup_after pre oL rest (j : nat) (o : string) :
  rest !! j = Some o -> (pre ++ oL :: rest) !! (length pre + S j)%nat = Some o.
Proof.
  intros Hj. rewrite lookup_app_r by lia.
  by replace (length pre + S j - length pre)%nat with (S j) by lia.
Qed.

Lemma lookup_after_inv pre oL rest (j : nat) (o : string) :
  (length pre < j)%nat -> (pre ++ oL :: rest) !! j = Some o ->
  rest !! (j - S (length pre))%nat = Some o.
Proof.
  intros Hj. rewrite lookup_app_r by lia.
  by replace (j - length pre)%nat with (S (j - S (length pre))) by lia.
Qed.

Lemma last_open_split pre oL rest :
  contains "(" oL = true -> count_mark "(" rest = 0%nat ->
  last (locs "(" (pre ++ oL :: rest)) = Some (length pre).
Proof.
  intros HoL Hrest. apply (locs_last_intro _ _ _ oL).
  - by apply list_lookup_middle.
  - done.
  - intros j o Hj Ho. apply lookup_after_inv in Ho; [|done].
    by apply (proj1 (count_mark_zero "(" rest) Hrest _ _ Ho).
Qed.

Lemma last_open_split_inv pre oL rest :
  last (locs "(" (pre ++ oL :: rest)) = Some (length pre) ->
  contains "(" oL = true /\ count_mark "(" rest = 0%nat.
Proof.
  intros Hlast. destruct (locs_last _ _ _ Hlast) as [(o & Ho & Hc) Hafter].
  rewrite list_lookup_middle in Ho by done. injection Ho as <-.
  split; [done|]. apply count_mark_zero. intros j o Hj.
  apply (Hafter (length pre + S j)%nat); [lia|]. by apply lookup_after.
Qed.

Lemma nearest_split pre oL mid oc post :
  contains ")" oc = true -> count_mark ")" mid = 0%nat ->
  Z.of_nat (S (length mid)) < 10000 ->
  nearest (length pre) (locs ")" (pre ++ oL :: mid ++ oc :: post))
          (length pre + S (length mid)).
Proof.
  intros Hoc Hmid Hfar. unfold nearest.
  split.
  { apply locs_elem. exists oc. split; [|done].
    apply lookup_after. by apply list_lookup_middle. }
  split; [lia|]. split; [lia|].
  intros r Hr Hgt. apply locs_elem in Hr as (o & Ho & Hc).
  destruct (Nat.le_gt_cases (length pre + S (length mid)) r) as [|Hlt];
    [done|].
  apply lookup_after_inv in Ho; [|done].
  rewrite lookup_app_l in Ho by lia.
  by rewrite (proj1 (count_mark_zero ")" mid) Hmid _ _ Ho) in Hc.
Qed.

Lemma nearest_split_inv pre oL mid oc post :
  nearest (length pre) (locs ")" (pre ++ oL :: mid ++ oc :: post))
          (length pre + S (length mid)) ->
  contains ")" oc = true /\ count_mark ")" mid = 0%nat /\
  Z.of_nat (S (length mid)) < 10000.
Proof.
  intros (Hin & _ & Hfar & Hmin).
  apply locs_elem in Hin as (o & Ho & Hc).
  apply lookup_after_inv in Ho; [|lia].
  replace (length pre + S (length mid) - S (length pre))%nat
    with (length mid) in Ho by lia.
  rewrite list_lookup_middle in Ho by done. injection Ho as <-.
  split; [done|]. split; [|lia].
  apply count_mark_zero. intros j o Hj.
  destruct (contains ")" o) eqn:Hco; [|done]. exfalso.
  assert (Hjlt : (j < length mid)%nat) by by eapply lookup_lt_Some.
  assert (Hjin : (length pre + S j)%nat
                 ∈ locs ")" (pre ++ oL :: mid ++ oc :: post)).
  { apply locs_elem. exists o. split; [|done].
    apply lookup_after. by apply lookup_app_l_Some. }
  specialize (Hmin _ Hjin). lia.
Qed.
End SplitSelection.

Section GroupStep.
Context {V : Type} `{SymbolicEngine V}.
Implicit Types (terms tpre tmid tpost : list (pyval V)).
Implicit Types (ops pre mid post : list string) (oL oc : string).

(** The grouping case of [combine_terms], once its checks pass. *)
Lemma combine_fuel_group (fuel : nat) terms ops (L : nat) :
  length ops = S (length terms) -> length terms <> 1%nat ->
  count_mark "(" ops = count_mark ")" ops ->
  last (Py.locs "(" ops) = Some L -> head_ok ops ->
  combine_fuel (S fuel) terms ops =
    let c := closest_loc L (Py.locs ")" ops) in
    match combine_fuel fuel (group_inner terms ops L c).1
                            (group_inner terms ops L c).2 with
    | None => None
    | Some (Raise e) => Some (Raise e)
    | Some (Return new_term) =>
        match group_outer terms ops L c new_term with
        | Raise e => Some (Raise e)
        | Return (terms', ops') => combine_fuel fuel terms' ops'
        end
    end.
Proof.
  intros Hlen Hne Hcount Hlast (a & b & Ha & Hb & Hab).
  unfold count_mark in Hcount. simpl.
  rewrite Hlast, Ha, Hb, Hcount, Nat.eqb_refl.
  replace (length ops =? length terms + 1)%nat with true
    by (symmetry; apply Nat.eqb_eq; lia).
  replace (a <? b)%nat with true by (symmetry; by apply Nat.ltb_lt).
  simpl. by destruct terms as [|t0 [|t1 ts]].
Qed.

(** One grouping step on lists split at the chosen marks. *)
Lemma group_step (g : nat) tpre tmid tpost pre oL mid oc post (w : pyval V) :
  length tpre = length pre -> length tmid = S (length mid) ->
  length tpost = length post ->
  length (tpre ++ tmid ++ tpost) <> 1%nat ->
  Py.contains "(" oL = true -> count_mark "(" (mid ++ oc :: post) = 0%nat ->
  Py.contains ")" oc = true -> count_mark ")" mid = 0%nat ->
  Z.of_nat (length tmid) < 10000 ->
  count_mark "(" (pre ++ oL :: mid ++ oc :: post)
    = count_mark ")" (pre ++ oL :: mid ++ oc :: post) ->
  head_ok (pre ++ oL :: mid ++ oc :: post) ->
  combine_fuel g tmid ("" :: mid ++ [""]) = Some (Return w) ->
  combine_fuel (S g) (tpre ++ tmid ++ tpost) (pre ++ oL :: mid ++ oc :: post)
  = combine_fuel g (tpre ++ w :: tpost)
      (pre ++ Py.remove_char "(" oL :: Py.remove_char ")" oc :: post).
Proof.
  intros Htpre Htmid Htpost Hne HoL Hrest Hoc Hmid Hfar Hcount Hhead Hin.
  rewrite (combine_fuel_group g _ _ (length pre)); try done.
  - rewrite (closest_loc_intro _ _ (length pre + S (length mid)))
      by (apply nearest_split; [done|done|lia]).
    cbn zeta.
    rewrite (group_inner_split tpre tmid tpost pre oL mid oc post
               (length pre) (length pre + S (length mid))) by done.
    simpl. rewrite Hin.
    by rewrite (group_outer_split tpre tmid tpost pre oL mid oc post
                  (length pre) (length pre + S (length mid))) by done.
  - rewrite !length_app. simpl. rewrite !length_app. simpl. lia.
  - by apply last_open_split.
Qed.

(** A grouping step that returns went through such a split. *)
Lemma group_step_inv (f : nat) terms ops (L : nat) (v : pyval V) :
  combine_fuel (S f) terms ops = Some (Return v) ->
  length terms <> 1%nat -> last (Py.locs "(" ops) = Some L ->
  exists tpre tmid tpost pre oL mid oc post w,
    terms = tpre ++ tmid ++ tpost /\ ops = pre ++ oL :: mid ++ oc :: post /\
    L = length pre /\
    length tpre = length pre /\ length tmid = S (length mid) /\
    length tpost = length post /\
    Py.contains "(" oL = true /\ count_mark "(" (mid ++ oc :: post) = 0%nat /\
    Py.contains ")" oc = true /\ count_mark ")" mid = 0%nat /\
    Z.of_nat (length tmid) < 10000 /\
    count_mark "(" ops = count_mark ")" ops /\
    combine_fuel f tmid ("" :: mid ++ [""]) = Some (Return w) /\
    combine_fuel f (tpre ++ w :: tpost)
      (pre ++ Py.remove_char "(" oL :: Py.remove_char ")" oc :: post)
    = Some (Return v).
Proof.
  intros Hret Hne Hlast.
  pose proof (combine_fuel_checked _ _ _ _ Hret) as Hlen.
  simpl in Hret. rewrite Hlast in Hret.
  replace (length ops =? length terms + 1)%nat with true in Hret
    by (symmetry; apply Nat.eqb_eq; lia).
  simpl in Hret.
  assert (Hv : Some (Return v) =
           (if negb (length (Py.locs "(" ops) =? length (Py.locs ")" ops))%nat
     then Some (Raise AssertionError)
     else match head (Py.locs "(" ops) with
          | Some l0 => match head (Py.locs ")" ops) with
            | Some r0 =>
              if negb (l0 <? r0)%nat then Some (Raise AssertionError)
              else
                match combine_fuel f
                  (Py.slice terms (Z.of_nat L) (closest_loc L (Py.locs ")" ops)))
                  ("" :: Py.slice ops (Z.of_nat L + 1)
                           (closest_loc L (Py.locs ")" ops)) ++ [""]) with
                | Some (Return new_term) =>
                    match group_outer terms ops L
                            (closest_loc L (Py.locs ")" ops)) new_term with
                    | Return (terms', ops') => combine_fuel f terms' ops'
                    | Raise e => Some (Raise e)
                    end
                | Some (Raise e) => Some (Raise e)
                | None => None
                end
            | None => Some (Raise IndexError)
            end
          | None => Some (Raise IndexError)
          end)).
  { rewrite <- Hret. by destruct terms as [|t0 [|t1 ts]]. }
  clear Hret.
  destruct (Nat.eqb_spec (length (Py.locs "(" ops)) (length (Py.locs ")" ops)))
    as [Hcount|]; [|done].
  simpl in Hv.
  destruct (head (Py.locs "(" ops)) as [l0|]; [|done].
  destruct (head (Py.locs ")" ops)) as [r0|]; [|done].
  destruct (negb (l0 <? r0)%nat); [done|].
  set (c := closest_loc L (Py.locs ")" ops)) in *.
  destruct (combine_fuel f _ _) as [[w|e]|] eqn:Hin; try done.
  pose proof (combine_fuel_checked _ _ _ _ Hin) as Hal.
  destruct (group_case_split terms ops L c Hlen Hlast)
    as (cn & tpre & tmid & tpost & pre & oL & mid & oc & post
        & Hc & -> & -> & HL & Hcn & Htpre & Htmid & Hpost & HcL & Hmid0).
  { done. }
  rewrite Hc in Hv, Hin.
  rewrite (group_outer_split tpre tmid tpost pre oL mid oc post L cn) in Hv
    by done.
  pose proof (group_inner_split tpre tmid tpost pre oL mid oc post L cn
                HL Hcn Htpre Htmid) as Hginner.
  unfold group_inner in Hginner. injection Hginner as Hg1 Hg2.
  apply app_inv_tail in Hg2. rewrite Hg1, Hg2 in Hin.
  rewrite HL in Hlast. apply last_open_split_inv in Hlast as [_ Hrest].
  assert (Hnear : nearest (length pre)
                    (Py.locs ")" (pre ++ oL :: mid ++ oc :: post))
                    (length pre + S (length mid))).
  { apply closest_loc_elim. rewrite <- HL, <- Hcn. exact Hc. }
  apply nearest_split_inv in Hnear as (Hoc & Hmidc & Hfar).
  exists tpre, tmid, tpost, pre, oL, mid, oc, post, w.
  repeat (split; [done || lia|]). done.
Qed.
End GroupStep.

(** ** A group evaluated inside a larger expression *)

Section Embedding.
Context {V : Type} `{SymbolicEngine V}.
Implicit Types (terms t : list (pyval V)) (ops i : list string).

Lemma evals_combine_terms terms ops r :
  evals terms ops r <-> combine_terms terms ops = Some r.
Proof.
  unfold combine_terms. split; [|by exists (combine_bound terms ops)].
  intros [f Hf].
  destruct (combine_fuel_enough (combine_bound terms ops) terms ops)
    as [r' Hr']; [done|].
  rewrite Hr'. f_equal.
  apply (combine_fuel_mono f (f + combine_bound terms ops)) in Hf; [|lia].
  apply (combine_fuel_mono _ (f + combine_bound terms ops)) in Hr'; [|lia].
  congruence.
Qed.

Lemma combine_fuel_balanced (f : nat) terms ops (v : pyval V) :
  combine_fuel (S f) terms ops = Some (Return v) ->
  length terms <> 1%nat ->
  count_mark "(" ops = count_mark ")" ops.
Proof.
  intros Hret Hne. unfold count_mark. simpl in Hret.
  destruct (negb (length ops =? length terms + 1)%nat); [done|].
  destruct (Nat.eqb_spec (length (Py.locs "(" ops)) (length (Py.locs ")" ops)))
    as [|Hcount]; [done|].
  simpl in Hret. by destruct terms as [|t0 [|t1 ts]].
Qed.

Variables (tpre tpost : list (pyval V)) (pre post : list string)
          (oL oC : string).
Hypothesis Htpre : length tpre = length pre.
Hypothesis Htpost : length tpost = length post.
Hypothesis HoL : Py.contains "(" oL = true.
Hypothesis HoC : Py.contains ")" oC = true.
Hypothesis HoC_open : Py.contains "(" oC = false.
Hypothesis Hpost_open : count_mark "(" post = 0%nat.
Hypothesis Hbal :
  (count_mark "(" pre + 1
   = count_mark ")" pre + (if Py.contains ")" oL then 1 else 0) + 1
     + count_mark ")" post)%nat.
Hypothesis Hhead :
  exists l0 o, (pre ++ [oL]) !! l0 = Some o /\ Py.contains "(" o = true /\
    forall j o', (j <= l0)%nat -> (pre ++ [oL]) !! j = Some o' ->
                 Py.contains ")" o' = false.

Lemma embed_head_ok (rest : list string) :
  count_mark "(" (pre ++ oL :: rest) = count_mark ")" (pre ++ oL :: rest) ->
  head_ok (pre ++ oL :: rest).
Proof.
  intros Hcount. destruct Hhead as (l0 & o & Hl0 & Ho & Hbefore).
  assert (Hlt : (l0 < length (pre ++ [oL]))%nat) by by eapply lookup_lt_Some.
  replace (pre ++ oL :: rest) with ((pre ++ [oL]) ++ rest) in *
    by by rewrite <- app_assoc.
  apply (head_check_passes _ l0 o).
  - by apply lookup_app_l_Some.
  - done.
  - intros j o' Hj Ho'. rewrite lookup_app_l in Ho' by lia. eauto.
  - done.
Qed.

Lemma embed_balance i :
  count_mark "(" i = count_mark ")" i ->
  count_mark "(" (pre ++ oL :: i ++ oC :: post)
  = count_mark ")" (pre ++ oL :: i ++ oC :: post).
Proof.
  intros Hi. rewrite !count_mark_split, HoL, HoC, HoC_open, Hpost_open. lia.
Qed.

(** If the group [t], [i] combines to [v] on its own, then the
    expression around it goes on as if [v] stood in its place. *)
Lemma embed_sim (f : nat) t i (v : pyval V) (r : outcome (pyval V)) :
  Z.of_nat (length t) < 10000 ->
  combine_fuel f t ("" :: i ++ [""]) = Some (Return v) ->
  evals (tpre ++ v :: tpost)
        (pre ++ Py.remove_char "(" oL :: Py.remove_char ")" oC :: post) r ->
  evals (tpre ++ t ++ tpost) (pre ++ oL :: i ++ oC :: post) r.
Proof.
  revert t i. induction f as [|f IH]; intros t i Hfar Hret Htarget; [done|].
  pose proof (combine_fuel_checked _ _ _ _ Hret) as Hlen.
  simpl in Hlen. rewrite length_app in Hlen. simpl in Hlen.
  destruct (last (Py.locs "(" ("" :: i ++ [""]))) as [L|] eqn:Hlast.
  - (* a group inside [i] is resolved first, in both *)
    assert (Hne : length t <> 1%nat).
    { intros Ht. destruct i as [|? ?]; [done|simpl in Hlen; lia]. }
    destruct (group_step_inv f t _ L v Hret Hne Hlast)
      as (tpre' & tmid & tpost' & pre' & oL' & mid & oc & post' & w
          & -> & Hops & HL & Hl1 & Hl2 & Hl3 & HcL & Hrest & Hoc & Hmid
          & Hfar' & Hcount & Hin & Hout).
    destruct pre' as [|e0 pre']; simpl in Hops.
    { injection Hops as <- _. done. }
    injection Hops as <- Hops.
    destruct post' as [|e1 post' _] using rev_ind.
    { rewrite app_comm_cons, app_assoc in Hops.
      apply app_inj_tail in Hops as [_ <-]. done. }
    rewrite !app_comm_cons, !app_assoc in Hops.
    apply app_inj_tail in Hops as [Hi <-].
    rewrite <- !app_assoc, <- !app_comm_cons in Hi. subst i.
    rewrite length_app in Hl3. simpl in Hl3, Hl1.
    assert (Hrest' : count_mark "(" (mid ++ oc :: post') = 0%nat).
    { rewrite count_mark_app, count_mark_cons in *.
      rewrite count_mark_app in Hrest. lia. }
    assert (Hbal_i : count_mark "(" (pre' ++ oL' :: mid ++ oc :: post')
                     = count_mark ")" (pre' ++ oL' :: mid ++ oc :: post')).
    { rewrite (count_mark_cons "(" ""), (count_mark_cons ")" ""),
        (count_mark_app "(" _ [""]), (count_mark_app ")" _ [""]) in Hcount.
      change (count_mark "(" [""]) with 0%nat in Hcount.
      change (count_mark ")" [""]) with 0%nat in Hcount.
      simpl in Hcount. lia. }
    destruct (IH (tpre' ++ w :: tpost')
                 (pre' ++ Py.remove_char "(" oL' :: Py.remove_char ")" oc
                    :: post')) as [f2 Hf2].
    { rewrite !length_app in *. simpl in *. lia. }
    { rewrite <- Hout. f_equal. simpl. by rewrite <- !app_assoc. }
    { done. }
    exists (S (Nat.max f f2)).
    apply (combine_fuel_mono f (Nat.max f f2)) in Hin; [|lia].
    apply (combine_fuel_mono f2 (Nat.max f f2)) in Hf2; [|lia].
    rewrite <- Hf2.
    pose proof (group_step (Nat.max f f2) (tpre ++ tpre') tmid
                  (tpost' ++ tpost) (pre ++ oL :: pre') oL' mid oc
                  (post' ++ oC :: post) w) as Hstep.
    repeat first [rewrite <- app_assoc in Hstep
                 | rewrite <- app_comm_cons in Hstep].
    repeat first [rewrite <- app_assoc | rewrite <- app_comm_cons].
    apply Hstep; clear Hstep.
    + rewrite !length_app. simpl. lia.
    + done.
    + rewrite !length_app. simpl. lia.
    + rewrite !length_app in *. simpl in *. lia.
    + done.
    + rewrite count_mark_app, count_mark_cons, count_mark_app, count_mark_cons.
      rewrite count_mark_app, count_mark_cons in Hrest'.
      rewrite HoC_open, Hpost_open. lia.
    + done.
    + done.
    + done.
    + replace (pre ++ oL :: pre' ++ oL' :: mid ++ oc :: post' ++ oC :: post)
        with (pre ++ oL :: (pre' ++ oL' :: mid ++ oc :: post') ++ oC :: post)
        by (by repeat first [rewrite <- app_assoc
                            | rewrite <- app_comm_cons]).
      by apply embed_balance.
    + replace (pre ++ oL :: pre' ++ oL' :: mid ++ oc :: post' ++ oC :: post)
        with (pre ++ oL :: (pre' ++ oL' :: mid ++ oc :: post') ++ oC :: post)
        by (by repeat first [rewrite <- app_assoc
                            | rewrite <- app_comm_cons]).
      apply embed_head_ok. by apply embed_balance.
    + done.
  - (* [i] holds no opening mark: the whole of it is the group *)
    apply last_None in Hlast.
    assert (Hopen : count_mark "(" i = 0%nat).
    { assert (Hc : count_mark "(" ("" :: i ++ [""]) = 0%nat)
        by (unfold count_mark; by rewrite Hlast).
      rewrite count_mark_cons, count_mark_app in Hc. simpl in Hc. lia. }
    assert (Hclose : count_mark ")" i = 0%nat).
    { destruct (decide (length t = 1%nat)) as [Ht|Hne].
      - destruct i; [done|simpl in Hlen; lia].
      - pose proof (combine_fuel_balanced _ _ _ _ Hret Hne) as Hc.
        rewrite !count_mark_cons, !count_mark_app in Hc.
        change (count_mark "(" [""]) with 0%nat in Hc.
        change (count_mark ")" [""]) with 0%nat in Hc.
        simpl in Hc. lia. }
    destruct (decide (length (tpre ++ t ++ tpost) = 1%nat)) as [Hone|Hne].
    + rewrite !length_app in Hone.
      destruct tpre; [|simpl in Hone; lia].
      destruct tpost; [|simpl in Hone; lia].
      destruct pre; [|done]. destruct post; [|done].
      destruct t as [|v0 [|? ?]]; try (simpl in Hone; lia).
      destruct i; [|simpl in Hlen; lia].
      simpl in Hret. injection Hret as ->.
      destruct Htarget as [[|ft] Hft]; [done|].
      simpl in Hft. injection Hft as <-. by exists 1%nat.
    + destruct Htarget as [f2 Hf2].
      exists (S (Nat.max (S f) f2)).
      apply (combine_fuel_mono (S f) (Nat.max (S f) f2)) in Hret; [|lia].
      apply (combine_fuel_mono f2 (Nat.max (S f) f2)) in Hf2; [|lia].
      rewrite <- Hf2. apply group_step; try done.
      * lia.
      * rewrite count_mark_app, count_mark_cons, Hopen, HoC_open, Hpost_open.
        done.
      * apply embed_balance. lia.
      * apply embed_head_ok, embed_balance. lia.
Qed.
End Embedding.

(** ** The closure operators *)

Section ClosureAdd.
Context {V : Type} `{SymbolicEngine V}.
Implicit Types (tp tq : list (pyval V)) (ip iq : list string).

Lemma slice_interior {A : Type} (b0 b1 : A) (i : list A) :
  Py.slice (b0 :: i ++ [b1]) 1 (-1) = i.
Proof.
  assert (H1 : Py.clamp (b0 :: i ++ [b1]) 1 = 1%nat).
  { unfold Py.clamp. cbn [length]. rewrite length_app. cbn [length].
    destruct (Z.ltb_spec 1 0); lia. }
  assert (H2 : Py.clamp (b0 :: i ++ [b1]) (-1) = S (length i)).
  { unfold Py.clamp. cbn [length]. rewrite length_app. cbn [length].
    destruct (Z.ltb_spec (-1) 0); lia. }
  unfold Py.slice. rewrite H1, H2.
  replace (S (length i) - 1)%nat with (length i) by lia.
  change (drop 1 (b0 :: i ++ [b1])) with (i ++ [b1]).
  apply take_app_length.
Qed.

Lemma closure_ops_interior (op : string) (b0 b1 c0 c1 : string) ip iq :
  closure_ops op (b0 :: ip ++ [b1]) (c0 :: iq ++ [c1])
  = "(" :: ip ++ (")" +:+ op +:+ "(") :: iq ++ [")"].
Proof. unfold closure_ops. by rewrite !slice_interior. Qed.

Lemma interior_balanced (f : nat) tp ip (a : pyval V) :
  combine_fuel f tp ("" :: ip ++ [""]) = Some (Return a) ->
  S (length ip) = length tp /\ count_mark "(" ip = count_mark ")" ip.
Proof.
  intros Hret. pose proof (combine_fuel_checked _ _ _ _ Hret) as Hlen.
  simpl in Hlen. rewrite length_app in Hlen. simpl in Hlen.
  split; [lia|]. destruct f as [|f]; [done|].
  destruct (decide (length tp = 1%nat)) as [Hone|Hne].
  - destruct ip; [done|simpl in Hlen; lia].
  - pose proof (combine_fuel_balanced _ _ _ _ Hret Hne) as Hc.
    rewrite !count_mark_cons, !count_mark_app in Hc.
    change (count_mark "(" [""]) with 0%nat in Hc.
    change (count_mark ")" [""]) with 0%nat in Hc.
    simpl in Hc. lia.
Qed.

End ClosureAdd.

Section ClosureExpression.
Context {V : Type} `{SymbolicEngine V}.

Lemma prune_aligned_nonzero {X : Type} (ts : list (Term V)) (xs : list X) :
  Forall (fun t => is_zero_term t = false) ts -> prune_aligned ts xs = xs.
Proof.
  intros Hts. revert xs.
  induction Hts as [|t ts Ht _ IH]; intros [|x xs]; simpl; try done.
  by rewrite Ht, IH.
Qed.

Lemma filter_nonzero (ts : list (Term V)) :
  Forall (fun t => is_zero_term t = false) ts ->
  filter (fun t => is_zero_term t = false) ts = ts.
Proof.
  intros Hts. rewrite <- prune_aligned_self. by apply prune_aligned_nonzero.
Qed.

(** The constructor on aligned lists. *)
Lemma Expression_init_aligned (h : heap) (l : loc) (ts : list (Term V))
    (r : list (pyval V)) :
  length r = length ts -> length (deref h l) = S (length ts) ->
  Expression_init h (Some <$> ts) r l
  = (store h l (prune_aligned ts (deref h l)),
     Return (mkExpression
               (Some <$> filter (fun t => is_zero_term t = false) ts)
               (prune_aligned ts r) l)).
Proof.
  intros Hr Ho. unfold Expression_init.
  rewrite length_fmap, Ho, Hr.
  replace (S (length ts) =? length ts + 1)%nat with true
    by (symmetry; apply Nat.eqb_eq; lia).
  rewrite Nat.eqb_refl.
  unfold zero_clean. cbn [negb unreduced_terms reduced_terms operations].
  pose proof (zero_clean_triple_aligned ts r (deref h l) Hr Ho) as Hz.
  by rewrite Hz.
Qed.

End ClosureExpression.

(** C2 (the code departs from it). Each closure operator reads
    [operations[1:-1]] of both operands: whatever the first and the last
    token of an operand hold never reaches the merged list, although the
    comment in the code says that the parentheses are added to preserve
    the order of operations. Two operands that the constructor accepts
    show it. With [p] the terms [2, 3, 4] under
    ['', '*(', '+', ')'] and [q] the term [1], [p] combines to 14 and [q]
    to 1, but [p + q] has the operations ['(', '*(', '+', ')+(', ')'],
    whose marks do not balance, and combining it raises. With [p] built
    from the terms [0, 5, 3] under ['', '-', '+', ''], pruning leaves
    [5, 3] under ['-', '+', '']: [p] combines to -2 and [q] to 1, yet
    [p + q] combines to 9 where the engine's addition gives -1. *)
Theorem C2_closure_drops_edge_tokens :
  (forall (op b0 b1 c0 c1 : string) (ip iq : list string),
     closure_ops op (b0 :: ip ++ [b1]) (c0 :: iq ++ [c1])
     = "(" :: ip ++ (")" +:+ op +:+ "(") :: iq ++ [")"])
  /\
  (let h : heap := [[""; "*("; "+"; ")"]; [""; ""]] in
   let p := mkExpression [IntEngine.num 2; IntEngine.num 3; IntEngine.num 4]
                         [IntEngine.num 2; IntEngine.num 3; IntEngine.num 4]
                         0%nat in
   let q := mkExpression [IntEngine.num 1] [IntEngine.num 1] 1%nat in
   Expression_init h (unreduced_terms p) (reduced_terms p) 0%nat
     = (h, Return p) /\
   combine_reduced h p = Some (Return (IntEngine.num 14)) /\
   combine_reduced h q = Some (Return (IntEngine.num 1)) /\
   exists h' e, Expression_add h p q = (h', Return e) /\
     deref h' (operations e) = ["("; "*("; "+"; ")+("; ")"] /\
     combine_reduced h' e = Some (Raise AssertionError))
  /\
  (let h : heap := [[""; "-"; "+"; ""]; [""; ""]] in
   let zs := [IntEngine.num 0; IntEngine.num 5; IntEngine.num 3] in
   let q := mkExpression [IntEngine.num 1] [IntEngine.num 1] 1%nat in
   exists h1 p h' e,
     Expression_init h zs zs 0%nat = (h1, Return p) /\
     combine_reduced h1 p = Some (Return (IntEngine.num (-2))) /\
     combine_reduced h1 q = Some (Return (IntEngine.num 1)) /\
     Expression_add h1 p q = (h', Return e) /\
     deref h' (operations e) = ["("; "+"; ")+("; ")"] /\
     combine_reduced h' e = Some (Return (IntEngine.num 9)) /\
     py_binop Term_add (IntEngine.num (-2)) (IntEngine.num 1)
       = Return (IntEngine.num (-1))).
Proof.
  split; [|split].
  - intros. apply closure_ops_interior.
  - split; [reflexivity|]. split; [reflexivity|]. split; [reflexivity|].
    eexists _, _. split; [reflexivity|]. split; reflexivity.
  - eexists _, _, _, _. split; [reflexivity|]. split; [reflexivity|].
    split; [reflexivity|]. split; [reflexivity|]. split; [reflexivity|].
    split; reflexivity.
Qed.

(** * Further properties of the code *)

(** ** Operator steps on well-formed flat input *)

Section FlatInput.
Context {V : Type} `{SymbolicEngine V}.
Implicit Types (ts rest : list (Term V)) (interior ops : list string).

(** A step at a position between two terms replaces them by the result
    and deletes the token. *)
Lemma apply_binop_interior (f : Term V -> Term V -> Term V) (k : nat)
    (t1 t2 : list (pyval V)) (a b : Term V) ops :
  k = S (length t1) -> (k < length ops)%nat ->
  apply_binop f k (t1 ++ Some a :: Some b :: t2) ops
  = Return (t1 ++ Some (f a b) :: t2, delete k ops).
Proof.
  intros -> Hk. unfold apply_binop.
  rewrite delitem_nat by done. simpl.
  replace (Z.of_nat (S (length t1)) - 1) with (Z.of_nat (length t1)) by lia.
  rewrite (getitem_nat _ (length t1) (Some a)) by (by apply list_lookup_middle).
  simpl.
  rewrite (getitem_nat _ (S (length t1)) (Some b)).
  2:{ replace (t1 ++ Some a :: Some b :: t2)
        with ((t1 ++ [Some a]) ++ Some b :: t2) by (by rewrite <- app_assoc).
      apply list_lookup_middle. rewrite length_app. simpl. lia. }
  simpl. rewrite setitem_nat by (rewrite length_app; simpl; lia). simpl.
  assert (Hins : <[S (length t1):=Some (f a b)]>
                   (t1 ++ Some a :: Some b :: t2)
                 = t1 ++ Some a :: Some (f a b) :: t2).
  { replace (S (length t1)) with (length t1 + 1)%nat by lia.
    by rewrite insert_app_r. }
  rewrite Hins.
  rewrite delitem_nat by (rewrite length_app; simpl; lia). simpl.
  by rewrite delete_middle.
Qed.

(** The case analysis of one pass: either no token is an operation, or
    the step is taken at a position that holds one. *)
Lemma arith_step_cases (terms : list (pyval V)) ops :
  (arith_step terms ops = None /\
   forall j o, ops !! j = Some o -> is_operator o = false)
  \/
  (exists k o, ops !! k = Some o /\ is_operator o = true /\
     arith_step terms ops = Some (apply_binop (op_method o) k terms ops)).
Proof.
  unfold arith_step, muldiv_step, addsub_step.
  destruct (Py.index "^" ops) as [k|] eqn:Hc.
  { right. apply index_Some in Hc as [Hk _]. by exists k, "^". }
  destruct (Py.index "*" ops) as [m|] eqn:Hm,
    (Py.index "/" ops) as [d|] eqn:Hd.
  - apply index_Some in Hm as [Hm _]. apply index_Some in Hd as [Hd _].
    destruct (Nat.ltb_spec m d); [right; by exists m, "*"|].
    destruct (Nat.ltb_spec d m); [right; by exists d, "/"|].
    assert (m = d) as -> by lia. congruence.
  - right. apply index_Some in Hm as [Hm _]. by exists m, "*".
  - right. apply index_Some in Hd as [Hd _]. by exists d, "/".
  - destruct (Py.index "+" ops) as [a|] eqn:Ha,
      (Py.index "-" ops) as [b|] eqn:Hb.
    + apply index_Some in Ha as [Ha _]. apply index_Some in Hb as [Hb _].
      destruct (Nat.ltb_spec a b); [right; by exists a, "+"|].
      destruct (Nat.ltb_spec b a); [right; by exists b, "-"|].
      assert (a = b) as -> by lia. congruence.
    + right. apply index_Some in Ha as [Ha _]. by exists a, "+".
    + right. apply index_Some in Hb as [Hb _]. by exists b, "-".
    + left. split; [done|]. intros j o Hj.
      pose proof (index_None _ _ Hc j). pose proof (index_None _ _ Hm j).
      pose proof (index_None _ _ Hd j). pose proof (index_None _ _ Ha j).
      pose proof (index_None _ _ Hb j). unfold is_operator.
      destruct (String.eqb_spec o "^") as [->|]; [congruence|].
      destruct (String.eqb_spec o "*") as [->|]; [congruence|].
      destruct (String.eqb_spec o "/") as [->|]; [congruence|].
      destruct (String.eqb_spec o "+") as [->|]; [congruence|].
      destruct (String.eqb_spec o "-") as [->|]; [congruence|]. done.
Qed.

Lemma operator_no_mark (o : string) (c : ascii) :
  is_operator o = true -> c = "("%char \/ c = ")"%char ->
  Py.contains c o = false.
Proof.
  unfold is_operator. intros Ho Hc.
  destruct (String.eqb_spec o "^") as [->|]; [by destruct Hc as [-> | ->]|].
  destruct (String.eqb_spec o "*") as [->|]; [by destruct Hc as [-> | ->]|].
  destruct (String.eqb_spec o "/") as [->|]; [by destruct Hc as [-> | ->]|].
  destruct (String.eqb_spec o "+") as [->|]; [by destruct Hc as [-> | ->]|].
  destruct (String.eqb_spec o "-") as [->|]; [by destruct Hc as [-> | ->]|].
  done.
Qed.

Lemma flat_no_mark interior (c : ascii) :
  Forall (fun o => is_operator o = true) interior ->
  c = "("%char \/ c = ")"%char ->
  Py.locs c ("" :: interior ++ [""]) = [].
Proof.
  intros Hops Hc. apply (locs_from_nil 0). intros j o Hj.
  destruct j as [|j]; simpl in Hj.
  { injection Hj as <-. by destruct Hc as [-> | ->]. }
  apply lookup_app_Some in Hj as [Hj|[_ Hj]].
  - apply (operator_no_mark o c); [|done].
    by apply (proj1 (Forall_lookup _ _) Hops j o).
  - apply list_lookup_singleton_Some in Hj as [_ <-].
    by destruct Hc as [-> | ->].
Qed.

Lemma flat_lengths ts interior :
  length ts = S (length interior) ->
  length ("" :: interior ++ [""]) = S (length (Some <$> ts)).
Proof. intros Hl. simpl. rewrite length_app, length_fmap. simpl. lia. Qed.

Lemma delete_app_lt {A} (k : nat) (l m : list A) :
  (k < length l)%nat -> delete k (l ++ m) = delete k l ++ m.
Proof.
  revert k. induction l as [|x l IH]; intros [|k] Hk; simpl in *; try lia.
  - done.
  - f_equal. apply IH. lia.
Qed.

Lemma flat_step (f : Term V -> Term V -> Term V) (fuel k : nat)
    ts1 ts2 (a b : Term V) interior :
  length (ts1 ++ a :: b :: ts2) = S (length interior) ->
  Forall (fun o => is_operator o = true) interior ->
  k = length ts1 ->
  arith_step (Some <$> (ts1 ++ a :: b :: ts2)) ("" :: interior ++ [""])
    = Some (apply_binop f (S k) (Some <$> (ts1 ++ a :: b :: ts2))
              ("" :: interior ++ [""])) ->
  combine_fuel (S fuel) (Some <$> (ts1 ++ a :: b :: ts2))
               ("" :: interior ++ [""])
  = combine_fuel fuel (Some <$> (ts1 ++ f a b :: ts2))
                 ("" :: delete k interior ++ [""]).
Proof.
  intros Hlen Hops -> Hstep.
  rewrite combine_fuel_arith.
  - rewrite Hstep. rewrite !fmap_app, !fmap_cons.
    rewrite length_app in Hlen. simpl in Hlen.
    rewrite (apply_binop_interior f (S (length ts1)) (Some <$> ts1)
               (Some <$> ts2) a b).
    + f_equal. simpl. f_equal. apply delete_app_lt. lia.
    + by rewrite length_fmap.
    + simpl. rewrite length_app. simpl. lia.
  - by apply flat_lengths.
  - rewrite length_fmap, length_app. simpl. lia.
  - apply flat_no_mark; auto.
  - apply flat_no_mark; auto.
Qed.

Lemma split_two {A} (k : nat) (l : list A) :
  (S k < length l)%nat ->
  exists l1 a b l2, l = l1 ++ a :: b :: l2 /\ length l1 = k.
Proof.
  intros Hk. exists (take k l).
  destruct (drop k l) as [|a [|b l2]] eqn:Hd;
    apply (f_equal length) in Hd as Hd'; rewrite length_drop in Hd';
    simpl in Hd'; try lia.
  exists a, b, l2. split; [|rewrite length_take; lia].
  by rewrite <- Hd, take_drop.
Qed.

Lemma operator_nonempty o : is_operator o = true -> o <> "".
Proof. by intros Ho ->. Qed.

Lemma evals_singleton (t : Term V) :
  evals [Some t] [""; ""] (Return (Some t)).
Proof. by exists 1%nat. Qed.

Lemma flat_evals ts interior :
  length ts = S (length interior) ->
  Forall (fun o => is_operator o = true) interior ->
  exists t, evals (Some <$> ts) ("" :: interior ++ [""]) (Return (Some t)).
Proof.
  remember (length interior) as n eqn:Hn. revert ts interior Hn.
  induction n as [|n IH]; intros ts interior Hn Hlen Hops.
  { destruct interior; [|done]. destruct ts as [|t [|]]; try done.
    exists t. apply evals_singleton. }
  destruct (arith_step_cases (Some <$> ts) ("" :: interior ++ [""]))
    as [[_ Hno]|(k & o & Hk & Ho & Hstep)].
  { exfalso. destruct interior as [|o interior]; [done|].
    apply Forall_cons in Hops as [Ho _].
    specialize (Hno 1%nat o eq_refl). congruence. }
  destruct k as [|k]; [simpl in Hk; injection Hk as <-; done|].
  simpl in Hk. apply lookup_app_Some in Hk as [Hk|[_ Hk]].
  2:{ apply list_lookup_singleton_Some in Hk as [_ <-]. done. }
  apply lookup_lt_Some in Hk as Hklt.
  destruct (split_two k ts) as (ts1 & a & b & ts2 & -> & Hl1); [lia|].
  destruct (IH (ts1 ++ op_method o a b :: ts2) (delete k interior))
    as [t [f Hf]].
  - rewrite length_delete by (by apply lookup_lt_is_Some_2). lia.
  - rewrite length_app in *. simpl in *. lia.
  - by apply Forall_delete.
  - exists t, (S f). rewrite <- Hf.
    apply flat_step; [by rewrite <- Hn| done | done | exact Hstep].
Qed.

Lemma addsub_step_leftmost (terms : list (pyval V)) (ops : list string)
    (k : nat) (tok : string) :
  ops !! k = Some tok -> tok = "+" \/ tok = "-" ->
  (forall j, (j < k)%nat -> ops !! j <> Some "+" /\ ops !! j <> Some "-") ->
  addsub_step terms ops =
    Some (apply_binop (if String.eqb tok "+" then Term_add else Term_sub)
            k terms ops).
Proof.
  intros Hk Htok Hlt. unfold addsub_step. destruct Htok as [-> | ->]; simpl.
  - rewrite (index_first "+" ops k) by (done || intros; by apply Hlt).
    destruct (Py.index "-" ops) as [d|] eqn:Hd; [|done].
    apply index_Some in Hd as [Hd Hdlt].
    destruct (Nat.ltb_spec k d) as [_|Hle]; [done|].
    exfalso. destruct (decide (d = k)) as [->|Hne]; [congruence|].
    destruct (Hlt d) as [_ Hnd]; [lia|done].
  - rewrite (index_first "-" ops k) by (done || intros; by apply Hlt).
    destruct (Py.index "+" ops) as [m|] eqn:Hm; [|done].
    apply index_Some in Hm as [Hm Hmlt].
    destruct (Nat.ltb_spec m k) as [Hlt'|Hle].
    { exfalso. by destruct (Hlt m Hlt') as [Hnm _]. }
    destruct (Nat.ltb_spec k m) as [_|Hle']; [done|].
    exfalso. assert (m = k) as -> by lia. congruence.
Qed.

Lemma flat_tokens_in (allowed interior : list string) j o :
  Forall (fun o => o ∈ allowed) interior ->
  ("" :: interior ++ [""]) !! j = Some o -> o = "" \/ o ∈ allowed.
Proof.
  intros Hall Hj. destruct j as [|j]; simpl in Hj; [left; congruence|].
  apply lookup_app_Some in Hj as [Hj|[_ Hj]].
  - right. by apply (proj1 (Forall_lookup _ _) Hall j o).
  - apply list_lookup_singleton_Some in Hj as [_ <-]. by left.
Qed.

Lemma elem_of_two (x a b : string) : x ∈ [a; b] -> x = a \/ x = b.
Proof.
  intros Hx. apply elem_of_cons in Hx as [->|Hx]; [by left|].
  apply list_elem_of_singleton in Hx as ->. by right.
Qed.

Lemma level_first_step (allowed : list string) (terms : list (pyval V))
    o interior :
  allowed = ["^"] \/ allowed = ["*"; "/"] \/ allowed = ["+"; "-"] ->
  Forall (fun o => o ∈ allowed) (o :: interior) ->
  arith_step terms ("" :: (o :: interior) ++ [""])
  = Some (apply_binop (op_method o) 1 terms ("" :: (o :: interior) ++ [""])).
Proof.
  intros Hal Hall.
  assert (Ho : o ∈ allowed) by (by apply Forall_cons in Hall as [? _]).
  assert (Hfirst : forall j, (j < 1)%nat ->
            forall tok, tok <> "" ->
            ("" :: (o :: interior) ++ [""]) !! j <> Some tok).
  { intros [|j] Hj tok Hne; [simpl; congruence|lia]. }
  assert (Hnone : forall tok, tok <> "" -> tok ∉ allowed ->
            forall j, ("" :: (o :: interior) ++ [""]) !! j <> Some tok).
  { intros tok Hne Hnot j Hj.
    destruct (flat_tokens_in allowed (o :: interior) j tok Hall Hj); done. }
  unfold arith_step.
  destruct Hal as [-> | [-> | ->]].
  - apply list_elem_of_singleton in Ho as ->.
    rewrite (index_first "^" _ 1); [done|done|]. intros j Hj. by apply Hfirst.
  - apply elem_of_two in Ho.
    rewrite (index_absent "^")
      by (apply Hnone; [done|by intros [?|?]%elem_of_two]).
    rewrite (muldiv_step_leftmost terms _ 1 o); [| done | done |].
    + by destruct Ho as [-> | ->].
    + intros j Hj. split; by apply Hfirst.
  - apply elem_of_two in Ho.
    rewrite (index_absent "^")
      by (apply Hnone; [done|by intros [?|?]%elem_of_two]).
    unfold muldiv_step.
    rewrite (index_absent "*")
      by (apply Hnone; [done|by intros [?|?]%elem_of_two]).
    rewrite (index_absent "/")
      by (apply Hnone; [done|by intros [?|?]%elem_of_two]).
    rewrite (addsub_step_leftmost terms _ 1 o); [| done | done |].
    + by destruct Ho as [-> | ->].
    + intros j Hj. split; by apply Hfirst.
Qed.

Lemma level_operators (allowed interior : list string) :
  allowed = ["^"] \/ allowed = ["*"; "/"] \/ allowed = ["+"; "-"] ->
  Forall (fun o => o ∈ allowed) interior ->
  Forall (fun o => is_operator o = true) interior.
Proof.
  intros Hal Hall. eapply Forall_impl; [exact Hall|]. intros o Ho. simpl in Ho.
  destruct Hal as [-> | [-> | ->]].
  - by apply list_elem_of_singleton in Ho as ->.
  - by apply elem_of_two in Ho as [-> | ->].
  - by apply elem_of_two in Ho as [-> | ->].
Qed.

Lemma level_evals (allowed : list string) (t0 : Term V) rest interior :
  allowed = ["^"] \/ allowed = ["*"; "/"] \/ allowed = ["+"; "-"] ->
  Forall (fun o => o ∈ allowed) interior ->
  length rest = length interior ->
  evals (Some <$> (t0 :: rest)) ("" :: interior ++ [""])
        (Return (Some (fold_left_ops t0 interior rest))).
Proof.
  intros Hal. revert t0 rest.
  induction interior as [|o interior IH]; intros t0 rest Hall Hlen.
  { destruct rest; [|done]. apply evals_singleton. }
  destruct rest as [|t1 rest]; [done|].
  destruct (IH (op_method o t0 t1) rest) as [f Hf].
  { by apply Forall_cons in Hall as [_ ?]. }
  { simpl in Hlen. lia. }
  exists (S f).
  change (fold_left_ops t0 (o :: interior) (t1 :: rest))
    with (fold_left_ops (op_method o t0 t1) interior rest).
  rewrite <- Hf.
  apply (flat_step (op_method o) f 0 [] rest t0 t1 (o :: interior)).
  - simpl in *. lia.
  - by apply (level_operators allowed).
  - done.
  - by apply (level_first_step allowed).
Qed.
End FlatInput.

(** Operations of one precedence level are applied from left to right:
    with only [^] tokens, only [*] and [/], or only [+] and [-],
    [combine_terms] returns the left fold of the operations over the
    terms; a chain of [^] is therefore left-associative. *)
Theorem level_left_to_right {V : Type} `{SymbolicEngine V}
    (allowed : list string) (t0 : Term V) (rest : list (Term V))
    (interior : list string) :
  allowed = ["^"] \/ allowed = ["*"; "/"] \/ allowed = ["+"; "-"] ->
  Forall (fun o => o ∈ allowed) interior ->
  length rest = length interior ->
  combine_terms (Some <$> (t0 :: rest)) ("" :: interior ++ [""])
  = Some (Return (Some (fold_left_ops t0 interior rest))).
Proof.
  intros Hal Hall Hlen. apply evals_combine_terms.
  by apply (level_evals allowed).
Qed.

Lemma level_left_to_right_witness :
  combine_terms (H := IntEngine.engine)
    (Some <$> (Term_init 2 true :: [Term_init 3 true; Term_init 2 true]))
    ("" :: ["^"; "^"] ++ [""])
  = Some (Return (Some (fold_left_ops (H := IntEngine.engine) (Term_init 2 true) ["^"; "^"]
                          [Term_init 3 true; Term_init 2 true]))).
Proof.
  apply (level_left_to_right (H := IntEngine.engine) ["^"]).
  - by left.
  - repeat constructor.
  - reflexivity.
Defined.

(** ** A group that is never closed *)

Lemma closest_loc_far (L : nat) (rs : list nat) :
  (forall r, r ∈ rs -> (L < r)%nat -> 10000 <= Z.of_nat r - Z.of_nat L) ->
  closest_loc L rs = -1.
Proof.
  intros Hfar. unfold closest_loc.
  destruct (closest_fold_spec L rs) as [[-> _]|(c & _ & Hin & HLc & Hd & _)];
    [done|].
  specialize (Hfar c Hin HLc). lia.
Qed.

(** When both assertions on the marks pass but no closing mark stands
    after the last opening mark (within the reach of the search, 10000
    positions), the enclosed slice runs to position [-1]; the recursive
    call then gets one token too many and its first assertion fails. *)
Theorem group_never_closed (V : Type) (E : SymbolicEngine V)
    (terms : list (pyval V)) (ops : list string) (L : nat) :
  (1 < length terms)%nat ->
  last (Py.locs "(" ops) = Some L ->
  (forall r, r ∈ Py.locs ")" ops -> (L < r)%nat ->
             10000 <= Z.of_nat r - Z.of_nat L) ->
  combine_terms terms ops = Some (Raise AssertionError).
Proof.
  intros Hterms Hlast Hfar. unfold combine_terms, combine_bound.
  destruct terms as [|t0 [|t1 ts]]; simpl in Hterms; try lia.
  set (terms := t0 :: t1 :: ts).
  replace (length (Py.locs "(" ops) + length terms + 1)%nat
    with (S (S (length (Py.locs "(" ops) + length ts + 1)))
    by (subst terms; simpl; lia).
  remember (S (length (Py.locs "(" ops) + length ts + 1)) as g eqn:Hg.
  cbn [combine_fuel].
  destruct (Nat.eqb_spec (length ops) (length terms + 1)) as [Hlen|];
    [|done].
  cbn [negb]. subst terms. cbv iota.
  destruct (Nat.eqb_spec (length (Py.locs "(" ops)) (length (Py.locs ")" ops)))
    as [Hcount|]; [|done].
  cbn [negb]. rewrite Hlast.
  destruct (Py.locs "(" ops) as [|l0 left] eqn:Hleft; [done|].
  destruct (Py.locs ")" ops) as [|r0 right] eqn:Hright; [done|].
  cbn [head].
  destruct (l0 <? r0)%nat; [|done]. cbn [negb].
  rewrite (closest_loc_far L _ Hfar).
  unfold group_inner.
  rewrite Hg, combine_fuel_unchecked; [done|].
  intros Heq. simpl in Heq. rewrite length_app in Heq. simpl in Heq.
  destruct (group_slices_aligned (t0 :: t1 :: ts) ops L (-1))
    as (cn & Hcn & _); [simpl in *; lia| lia |lia].
Qed.

Lemma group_never_closed_witness :
  combine_terms [IntEngine.num 2; IntEngine.num 3] ["("; ")"; ")("]
  = Some (Raise AssertionError).
Proof.
  apply (group_never_closed Z IntEngine.engine _ _ 2%nat).
  - simpl; lia.
  - reflexivity.
  - intros r Hr Hlt. vm_compute in Hr.
    apply elem_of_cons in Hr as [->|Hr]; [lia|].
    apply list_elem_of_singleton in Hr as ->. lia.
Defined.

(** ** A group is combined before what surrounds it *)

Lemma combine_terms_total {V : Type} `{SymbolicEngine V}
    (terms : list (pyval V)) ops :
  exists r, combine_terms terms ops = Some r.
Proof. by apply combine_fuel_enough. Qed.

(** A group between an opening token [oL] and a closing token [oC],
    with no other mark around it, is combined on its own first (its
    tokens may hold further groups); the call then goes on with the
    group's value in place of its terms and with the two marks removed
    from their tokens. *)
Theorem group_combined_first (V : Type) (E : SymbolicEngine V)
    (tpre t tpost : list (pyval V)) (pre i post : list string)
    (oL oC : string) (v : pyval V) :
  length tpre = length pre -> length tpost = length post ->
  count_mark "(" pre = 0%nat -> count_mark ")" pre = 0%nat ->
  count_mark "(" post = 0%nat -> count_mark ")" post = 0%nat ->
  Py.contains "(" oL = true -> Py.contains ")" oL = false ->
  Py.contains ")" oC = true -> Py.contains "(" oC = false ->
  Z.of_nat (length t) < 10000 ->
  combine_terms t ("" :: i ++ [""]) = Some (Return v) ->
  combine_terms (tpre ++ t ++ tpost) (pre ++ oL :: i ++ oC :: post)
  = combine_terms (tpre ++ v :: tpost)
      (pre ++ Py.remove_char "(" oL :: Py.remove_char ")" oC :: post).
Proof.
  intros Htpre Htpost Hpre1 Hpre2 Hpost1 Hpost2 HoL1 HoL2 HoC1 HoC2 Hfar Hin.
  destruct (combine_terms_total (tpre ++ v :: tpost)
              (pre ++ Py.remove_char "(" oL :: Py.remove_char ")" oC :: post))
    as [r Hr].
  rewrite Hr. apply evals_combine_terms.
  apply (embed_sim tpre tpost pre post oL oC Htpre Htpost HoL1 HoC1 HoC2 Hpost1)
    with (f := combine_bound t ("" :: i ++ [""])) (v := v); try done.
  - rewrite Hpre1, Hpre2, Hpost2, HoL2. lia.
  - exists (length pre), oL. split; [by apply list_lookup_middle|].
    split; [done|]. intros j o' Hj Ho'.
    apply lookup_app_Some in Ho' as [Ho'|[_ Ho']].
    + by apply (proj1 (count_mark_zero ")" pre) Hpre2 j).
    + apply list_lookup_singleton_Some in Ho' as [_ <-]. done.
  - by apply evals_combine_terms.
Qed.

Lemma group_combined_first_witness :
  combine_terms ([IntEngine.num 2] ++ [IntEngine.num 3; IntEngine.num 4] ++ [])
                ([""] ++ "*(" :: ["+"] ++ ")" :: [])
  = combine_terms ([IntEngine.num 2] ++ IntEngine.num 7 :: [])
      ([""] ++ Py.remove_char "(" "*(" :: Py.remove_char ")" ")" :: []).
Proof.
  apply (group_combined_first Z IntEngine.engine); try reflexivity.
Defined.

(** ** The five closure operators *)

Section ClosureOperators.
Context {V : Type} `{SymbolicEngine V}.
Implicit Types (tp tq : list (pyval V)) (ip iq : list string).

Lemma is_operator_cases (op : string) :
  is_operator op = true ->
  op = "^" \/ op = "*" \/ op = "/" \/ op = "+" \/ op = "-".
Proof.
  unfold is_operator. intros Ho.
  destruct (String.eqb_spec op "^"); [tauto|].
  destruct (String.eqb_spec op "*"); [tauto|].
  destruct (String.eqb_spec op "/"); [tauto|].
  destruct (String.eqb_spec op "+"); [tauto|].
  destruct (String.eqb_spec op "-"); [tauto|]. done.
Qed.

Lemma combine_pair (op : string) (a b : pyval V) :
  is_operator op = true ->
  evals [a; b] [""; op; ""] (py_binop (op_method op) a b).
Proof.
  intros Hop. exists 2%nat.
  destruct (is_operator_cases op Hop) as [-> | [-> | [-> | [-> | ->]]]];
    by destruct a, b.
Qed.

(** Combining the merged lists of [p <op> q] applies the operation to
    what the two operands combine to, each read with its first and last
    token cleared. *)
Lemma closure_combine (op : string) tp tq ip iq (a b : pyval V) :
  is_operator op = true ->
  Z.of_nat (length tp) < 10000 -> Z.of_nat (length tq) < 10000 ->
  combine_terms tp ("" :: ip ++ [""]) = Some (Return a) ->
  combine_terms tq ("" :: iq ++ [""]) = Some (Return b) ->
  combine_terms (tp ++ tq) ("(" :: ip ++ (")" +:+ op +:+ "(") :: iq ++ [")"])
  = Some (py_binop (op_method op) a b).
Proof.
  intros Hop Hfp Hfq Hp Hq. apply evals_combine_terms.
  destruct (interior_balanced _ _ _ _ Hp) as [Hlp Hbp].
  destruct (interior_balanced _ _ _ _ Hq) as [Hlq Hbq].
  pose proof (combine_pair op a b Hop) as Hpair.
  replace (tp ++ tq) with (tp ++ tq ++ []) by by rewrite app_nil_r.
  change ("(" :: ip ++ (")" +:+ op +:+ "(") :: iq ++ [")"])
    with (("(" :: ip) ++ (")" +:+ op +:+ "(") :: iq ++ ")" :: []).
  assert (Hmid : Py.contains "(" (")" +:+ op +:+ "(") = true /\
                 Py.contains ")" (")" +:+ op +:+ "(") = true /\
                 Py.remove_char "(" (")" +:+ op +:+ "(") = ")" +:+ op /\
                 Py.remove_char ")" (")" +:+ op) = op /\
                 Py.contains "(" (")" +:+ op) = false).
  { destruct (is_operator_cases op Hop) as [-> | [-> | [-> | [-> | ->]]]];
      by repeat split. }
  destruct Hmid as (Hm1 & Hm2 & Hm3 & Hm4 & Hm5).
  eapply (embed_sim tp [] ("(" :: ip) [] (")" +:+ op +:+ "(") ")"); try done.
  - rewrite (count_mark_cons "("), (count_mark_cons ")"), Hm2.
    change (count_mark ")" []) with 0%nat. simpl. lia.
  - exists 0%nat, "(". split; [done|]. split; [done|].
    intros j o' Hj. replace j with 0%nat by lia. by intros [= <-].
  - rewrite Hm3.
    change (Py.remove_char ")" ")") with "".
    change (evals ([] ++ tp ++ [b]) ([] ++ "(" :: ip ++ (")" +:+ op) :: [""])
              (py_binop (op_method op) a b)).
    eapply (embed_sim [] [b] [] [""] "(" (")" +:+ op)); try done.
    + exists 0%nat, "(". split; [done|]. split; [done|].
      intros j o' Hj. replace j with 0%nat by lia. by intros [= <-].
    + rewrite Hm4. exact Hpair.
Qed.

(** [p <op> q] for two pruned expressions: the expression built and its
    list of operations. *)
Lemma closure_built (op : string) (h : heap) (p q : Expression V)
    (up uq : list (Term V)) (ip iq : list string) (b0 b1 c0 c1 : string) :
  unreduced_terms p = Some <$> up -> unreduced_terms q = Some <$> uq ->
  Forall (fun t => is_zero_term t = false) up ->
  Forall (fun t => is_zero_term t = false) uq ->
  length (reduced_terms p) = length up ->
  length (reduced_terms q) = length uq ->
  deref h (operations p) = b0 :: ip ++ [b1] ->
  deref h (operations q) = c0 :: iq ++ [c1] ->
  S (length ip) = length up -> S (length iq) = length uq ->
  let merged := "(" :: ip ++ (")" +:+ op +:+ "(") :: iq ++ [")"] in
  closure op h p q
  = (h ++ [merged],
     Return (mkExpression (unreduced_terms p ++ unreduced_terms q)
                          (reduced_terms p ++ reduced_terms q) (length h))).
Proof.
  intros Hup Huq Hzp Hzq Hrp Hrq Hop Hoq Hlp Hlq merged.
  unfold closure, alloc.
  rewrite Hop, Hoq, closure_ops_interior. fold merged.
  rewrite Hup, Huq, <- fmap_app.
  assert (Hd : deref (h ++ [merged]) (length h) = merged).
  { unfold deref. by rewrite list_lookup_middle. }
  rewrite Expression_init_aligned.
  - rewrite Hd, filter_nonzero, !prune_aligned_nonzero
      by (by apply Forall_app).
    f_equal. unfold store. replace (length h) with (length h + 0)%nat by lia.
    by rewrite insert_app_r.
  - rewrite !length_app. lia.
  - rewrite Hd. unfold merged. simpl. rewrite !length_app. simpl.
    rewrite !length_app. simpl. lia.
Qed.
End ClosureOperators.

(** For each of the five operators [+], [-], [*], [/] and [**] of
    [Expression], on two pruned operands that each hold at least one
    term, with one token more than terms: the result holds the terms of
    both and the operations ['('] + p.operations[1:-1] + [')<op>('] +
    q.operations[1:-1] + [')'] in a new list, and the operands' own lists
    are left as they were. If moreover each operand has fewer than 10000
    terms and, read with its first and last token cleared, combines to a
    value, then combining the result applies the operation of [Term]
    that the token stands for to these two values. (An operand without
    terms makes the operator raise, and an operand that an operator
    built, with a mark in its first and last token, does not combine
    once these are cleared: neither is covered here.) *)
Theorem closure_operator_combines (V : Type) (E : SymbolicEngine V)
    (op : string) (h : heap) (p q : Expression V) (up uq : list (Term V))
    (ip iq : list string) (b0 b1 c0 c1 : string) :
  is_operator op = true ->
  unreduced_terms p = Some <$> up -> unreduced_terms q = Some <$> uq ->
  Forall (fun t => is_zero_term t = false) up ->
  Forall (fun t => is_zero_term t = false) uq ->
  length (reduced_terms p) = length up ->
  length (reduced_terms q) = length uq ->
  deref h (operations p) = b0 :: ip ++ [b1] ->
  deref h (operations q) = c0 :: iq ++ [c1] ->
  S (length ip) = length up -> S (length iq) = length uq ->
  exists h' e,
    closure op h p q = (h', Return e) /\
    deref h' (operations e)
      = "(" :: ip ++ (")" +:+ op +:+ "(") :: iq ++ [")"] /\
    deref h' (operations p) = deref h (operations p) /\
    deref h' (operations q) = deref h (operations q) /\
    (Z.of_nat (length up) < 10000 -> Z.of_nat (length uq) < 10000 ->
     (forall a b,
        combine_terms (unreduced_terms p) ("" :: ip ++ [""])
          = Some (Return a) ->
        combine_terms (unreduced_terms q) ("" :: iq ++ [""])
          = Some (Return b) ->
        combine_unreduced h' e = Some (py_binop (op_method op) a b)) /\
     (forall a b,
        combine_terms (reduced_terms p) ("" :: ip ++ [""])
          = Some (Return a) ->
        combine_terms (reduced_terms q) ("" :: iq ++ [""])
          = Some (Return b) ->
        combine_reduced h' e = Some (py_binop (op_method op) a b))).
Proof.
  intros Hop Hup Huq Hzp Hzq Hrp Hrq Hdp Hdq Hlp Hlq.
  eexists _, _. split.
  { by apply (closure_built op h p q up uq ip iq b0 b1 c0 c1). }
  assert (Hd : forall l : nat, (l < length h)%nat ->
            deref (h ++ ["(" :: ip ++ (")" +:+ op +:+ "(") :: iq ++ [")"]]) l
            = deref h l).
  { intros l Hl. unfold deref. by rewrite lookup_app_l. }
  assert (Hvalid : forall (e : Expression V) x xs,
            deref h (operations e) = x :: xs ->
            (operations e < length h)%nat).
  { intros e x xs He. unfold deref in He.
    destruct (h !! operations e) eqn:Hl; [by eapply lookup_lt_Some|done]. }
  split; [|split; [|split; [|intros Hfp Hfq; split]]].
  - unfold deref. cbn [operations]. by rewrite list_lookup_middle.
  - apply Hd. by eapply Hvalid.
  - apply Hd. by eapply Hvalid.
  - intros a b Ha Hb. unfold combine_unreduced.
    cbn [unreduced_terms operations].
    unfold deref. rewrite list_lookup_middle by done. cbn [default].
    apply closure_combine; try done.
    + by rewrite Hup, length_fmap.
    + by rewrite Huq, length_fmap.
  - intros a b Ha Hb. unfold combine_reduced.
    cbn [reduced_terms operations].
    unfold deref. rewrite list_lookup_middle by done. cbn [default].
    apply closure_combine; try done; lia.
Qed.

Lemma closure_operator_combines_witness :
  let h : heap := [[""; "+"; ""]; [""; ""]] in
  let p := mkExpression [IntEngine.num 2; IntEngine.num 3]
                        [IntEngine.num 2; IntEngine.num 3] 0%nat in
  let q := mkExpression [IntEngine.num 4] [IntEngine.num 4] 1%nat in
  exists h' e,
    closure "*" h p q = (h', Return e) /\
    deref h' (operations e) = "(" :: ["+"] ++ ")*(" :: [] ++ [")"] /\
    combine_unreduced h' e = Some (Return (IntEngine.num 20)).
Proof.
  intros h p q.
  destruct (closure_operator_combines Z IntEngine.engine "*" h p q
              [Term_init 2 true; Term_init 3 true] [Term_init 4 true]
              ["+"] [] "" "" "" "")
    as (h' & e & He & Hops & _ & _ & Hu);
    try reflexivity.
  - repeat constructor.
  - repeat constructor.
  - exists h', e. split; [exact He|]. split; [exact Hops|].
    apply (proj1 (Hu eq_refl eq_refl) (IntEngine.num 5) (IntEngine.num 4));
      reflexivity.
Defined.

(** ** A closure operator on an operand without terms *)

Lemma length_slice_interior {A : Type} (l : list A) :
  length (Py.slice l 1 (-1)) = (length l - 2)%nat.
Proof.
  rewrite length_slice. unfold Py.clamp.
  destruct (Z.ltb_spec (-1) 0); [|lia].
  destruct (Z.ltb_spec 1 0); lia.
Qed.

Lemma length_closure_ops (op : string) (self_ops other_ops : list string) :
  length (closure_ops op self_ops other_ops)
  = (3 + (length self_ops - 2) + (length other_ops - 2))%nat.
Proof.
  unfold closure_ops. simpl. rewrite !length_app. simpl.
  rewrite length_app. simpl. rewrite !length_slice_interior. lia.
Qed.

(** An expression whose terms were all pruned away keeps one token.
    Handing it to one of the five operators, on either side, builds
    one token too many for the merged terms, and the constructor's first
    assertion fails; the merged list of operations has been allocated
    by then. *)
Theorem closure_empty_operand (V : Type) (E : SymbolicEngine V)
    (op : string) (h : heap) (p q : Expression V) :
  parallel h p -> parallel h q ->
  unreduced_terms p = [] \/ unreduced_terms q = [] ->
  closure op h p q
  = (h ++ [closure_ops op (deref h (operations p))
                          (deref h (operations q))],
     Raise AssertionError).
Proof.
  intros [Hp1 Hp2] [Hq1 Hq2] Hempty. unfold closure, alloc, Expression_init.
  assert (Hd : forall x : list string, deref (h ++ [x]) (length h) = x).
  { intros x. unfold deref. by rewrite list_lookup_middle. }
  rewrite Hd, length_closure_ops, Hp2, Hq2, length_app.
  destruct (Nat.eqb_spec
              (3 + (S (length (unreduced_terms p)) - 2)
                 + (S (length (unreduced_terms q)) - 2))
              (length (unreduced_terms p) + length (unreduced_terms q) + 1))
    as [Heq|]; [|done].
  exfalso. destruct Hempty as [Hnil|Hnil]; rewrite Hnil in Heq;
    simpl in Heq; lia.
Qed.

Lemma closure_empty_operand_witness :
  let h : heap := [[""]; [""; ""]] in
  let p : Expression Z := mkExpression [] [] 0%nat in
  let q := mkExpression [IntEngine.num 1] [IntEngine.num 1] 1%nat in
  closure "+" h p q = (h ++ [["("; ")+("; ")"]], Raise AssertionError).
Proof.
  intros h p q.
  apply (closure_empty_operand Z IntEngine.engine "+" h p q).
  - split; reflexivity.
  - split; reflexivity.
  - left. reflexivity.
Defined.

(** ** An expression built from a single zero term *)

Section ZeroExpression.
Context {V : Type} `{SymbolicEngine V} `{SolverEngine V}.

Lemma combine_reduced_empty (h : heap) (e : Expression V) :
  reduced_terms e = [] -> deref h (operations e) = [""] ->
  combine_reduced h e = Some (Return None).
Proof. unfold combine_reduced. by intros -> ->. Qed.

Lemma side_value_empty (h : heap) (e : Expression V) :
  reduced_terms e = [] -> deref h (operations e) = [""] ->
  side_value h e = Some (Raise AttributeError).
Proof.
  intros Hr Ho. unfold side_value. by rewrite combine_reduced_empty.
Qed.

Lemma solution_from_expression_empty (field : Term V -> string) (h : heap)
    (e : Expression V) :
  reduced_terms e = [] -> deref h (operations e) = [""] ->
  solution_from_expression field h e = Some (Raise AttributeError).
Proof.
  intros Hr Ho. unfold solution_from_expression.
  by rewrite combine_reduced_empty.
Qed.
End ZeroExpression.

(** [Expression([Term(0)], [Term(0)], ['', ''])], the right-hand side
    that [add_quadratic] builds for a factorable quadratic, is pruned to
    no term and the one token ['']. Its question renders as the empty
    text, but [combine_terms] returns [None] on it, so both solution
    renderers raise [AttributeError], and so does the construction of a
    [Problem] from it or from an equation that has it as right-hand
    side, even when the left-hand side renders and combines. *)
Theorem zero_expression_has_no_solution (V : Type) (E : SymbolicEngine V)
    (S : SolverEngine V) (h : heap) (l : loc) (z : Term V) :
  is_zero_term z = true -> deref h l = [""; ""] ->
  let h' := store h l [""] in
  let e := mkExpression [] [] l in
  Expression_init h [Some z] [Some z] l = (h', Return e) /\
  str_question_from_expression h' e = Return "" /\
  str_solution_from_expression h' e = Some (Raise AttributeError) /\
  latex_solution_from_expression h' e = Some (Raise AttributeError) /\
  Problem_init h' (DExpression e) = Some (Raise AttributeError) /\
  forall (lhs : Expression V) (sign : string) (var v : V) (q : string),
    side_value h' lhs = Some (Return v) ->
    str_question_from_expression h' lhs = Return q ->
    let eq := mkEquation lhs e sign var in
    str_solution_from_equation h' eq = Some (Raise AttributeError) /\
    latex_solution_from_equation h' eq = Some (Raise AttributeError) /\
    Problem_init h' (DEquation eq) = Some (Raise AttributeError).
Proof.
  intros Hz Hl h' e.
  assert (Hd : deref h' (operations e) = [""]).
  { subst h' e. cbn [operations]. apply deref_store, deref_valid.
    by rewrite Hl. }
  assert (Hsol : forall field,
            solution_from_expression field h' e = Some (Raise AttributeError)).
  { intros field. by apply solution_from_expression_empty. }
  assert (Hq : str_question_from_expression h' e = Return "").
  { unfold str_question_from_expression. by rewrite Hd. }
  split; [|split; [|split; [|split; [|split]]]].
  - rewrite (Expression_init_aligned h l [z] [Some z]); [|done|by rewrite Hl].
    rewrite Hl. simpl. rewrite filter_cons. case_decide; [congruence|].
    by rewrite Hz.
  - exact Hq.
  - apply Hsol.
  - apply Hsol.
  - unfold Problem_init. rewrite Hq. simpl.
    unfold str_solution_from_expression. by rewrite Hsol.
  - intros lhs sign var v q Hside Hlq eq.
    assert (Hs : forall text,
              solution_from_equation text h' eq = Some (Raise AttributeError)).
    { intros text. unfold solution_from_equation. subst eq. simpl.
      rewrite Hside. by rewrite side_value_empty. }
    split; [apply Hs|]. split; [apply Hs|].
    unfold Problem_init, str_question_from_equation. subst eq. simpl.
    rewrite Hlq, Hq. simpl. unfold str_solution_from_equation.
    by rewrite Hs.
Qed.

Lemma zero_expression_has_no_solution_witness :
  Expression_init [[""; ""]] [IntEngine.num 0] [IntEngine.num 0] 0%nat
    = ([[""]], Return (mkExpression [] [] 0%nat)) /\
  Problem_init (V := Z) [[""]] (DExpression (mkExpression [] [] 0%nat))
    = Some (Raise AttributeError).
Proof.
  destruct (zero_expression_has_no_solution Z IntEngine.engine
              IntEngine.solver [[""; ""]] 0%nat (Term_init 0 true))
    as (Hinit & _ & _ & _ & Hp & _); [reflexivity|reflexivity|].
  split; [exact Hinit|exact Hp].
Defined.

(** ** [Generator.add_problem] *)

Lemma is_duplicate_spec (l : list Problem) (p : Problem) :
  is_duplicate l p = true <-> Problem_str p ∈ Problem_str <$> l.
Proof.
  induction l as [|problem l IH]; cbn [is_duplicate].
  - split; [done|]. by intros ?%elem_of_nil.
  - rewrite fmap_cons, elem_of_cons. case_bool_decide as Heq.
    + split; [|done]. intros _. by left.
    + rewrite IH. split; [by right|]. intros [Hp|Hp]; [congruence|done].
Qed.

(** [add_problem] answers [True] exactly when no problem of the list has
    the text of the new one; then the new problem goes to the end of
    the list, and otherwise the generator is left as it was. A second
    attempt to add the same problem is always refused. *)
Theorem add_problem_accepts_new_text (g : Generator) (p : Problem) :
  ((add_problem g p).2 = true <->
     Problem_str p ∉ Problem_str <$> problem_list g)
  /\
  ((add_problem g p).2 = true ->
     problem_list (add_problem g p).1 = problem_list g ++ [p])
  /\
  ((add_problem g p).2 = false -> (add_problem g p).1 = g)
  /\
  add_problem (add_problem g p).1 p = ((add_problem g p).1, false).
Proof.
  unfold add_problem.
  destruct (is_duplicate (problem_list g) p) eqn:Hd; simpl.
  - apply is_duplicate_spec in Hd as Hin.
    split; [split; [done|by intros ?]|]. split; [done|]. split; [done|].
    by rewrite Hd.
  - assert (Hnot : Problem_str p ∉ Problem_str <$> problem_list g).
    { intros Hin%is_duplicate_spec. congruence. }
    split; [done|]. split; [done|]. split; [done|].
    assert (Hnow : is_duplicate (problem_list g ++ [p]) p = true).
    { apply is_duplicate_spec. rewrite fmap_app. apply elem_of_app.
      right. by left. }
    by rewrite Hnow.
Qed.

Lemma add_problem_accepts_new_text_witness :
  let p := mkProblem [] [] (of_string "1+2") (of_string "3") in
  problem_list (add_problem Generator_init p).1 = [p].
Proof.
  intros p.
  apply (proj1 (proj2 (add_problem_accepts_new_text Generator_init p))).
  reflexivity.
Defined.

(** The texts of the problems of a generator stay pairwise different:
    [add_problem] keeps that invariant, which holds of the empty list
    that [__init__] and [clear] set. *)
Theorem add_problem_keeps_texts_distinct (g : Generator) (p : Problem) :
  NoDup (Problem_str <$> problem_list g) ->
  NoDup (Problem_str <$> problem_list (add_problem g p).1).
Proof.
  intros Hnd. unfold add_problem.
  destruct (is_duplicate (problem_list g) p) eqn:Hd; simpl; [done|].
  rewrite fmap_app. apply NoDup_app. split; [done|]. split.
  - intros t Ht Hp. apply list_elem_of_singleton in Hp as ->.
    apply is_duplicate_spec in Ht. congruence.
  - apply NoDup_singleton.
Qed.

Lemma add_problem_keeps_texts_distinct_witness :
  NoDup (Problem_str <$>
           problem_list (add_problem (clear Generator_init)
                           (mkProblem [] [] (of_string "1+2") (of_string "3"))).1).
Proof.
  apply add_problem_keeps_texts_distinct. simpl. apply NoDup_nil_2.
Defined.

Lemma add_problem_same_text (g : Generator) (p p' : Problem) :
  p ∈ problem_list g -> Problem_str p' = Problem_str p ->
  add_problem g p' = (g, false).
Proof.
  intros Hin Hstr. unfold add_problem.
  assert (Hd : is_duplicate (problem_list g) p' = true).
  { apply is_duplicate_spec. rewrite Hstr. by apply list_elem_of_fmap_2. }
  by rewrite Hd.
Qed.

(** Only the two plain-text fields decide what a duplicate is: a
    problem is refused as soon as the list holds one with the same
    [str_question] and [str_solution], whatever their LaTeX fields are
    (the fields that [add_frac_to_dec] and [add_dec_to_frac] overwrite
    before they add the problem). *)
Theorem add_problem_ignores_latex (g : Generator) (p p' : Problem) :
  p ∈ problem_list g ->
  str_question p' = str_question p -> str_solution p' = str_solution p ->
  add_problem g p' = (g, false).
Proof.
  intros Hin Hq Hs. apply (add_problem_same_text g p p' Hin).
  unfold Problem_str. by rewrite Hq, Hs.
Qed.

Lemma add_problem_ignores_latex_witness :
  let p := mkProblem (of_string "\frac{1}{2}") (of_string "0.50000")
                     (of_string "1/2") (of_string "1/2") in
  let p' := mkProblem (of_string "\frac{1}{2}") (of_string "0.5")
                      (of_string "1/2") (of_string "1/2") in
  add_problem (mkGenerator [p] "") p' = (mkGenerator [p] "", false).
Proof.
  intros p p'. apply (add_problem_ignores_latex _ p p').
  - simpl. by left.
  - reflexivity.
  - reflexivity.
Defined.

(** A problem built from a tuple takes its two LaTeX fields from the
    tuple and keeps both plain-text fields empty. Its text is therefore
    the same for every tuple, and once one such problem is in the list
    every other problem built from a tuple is refused. *)
Theorem tuple_problems_collide (V : Type) (E : SymbolicEngine V)
    (S : SolverEngine V) (h h' : heap) (items items' : list ustr)
    (g : Generator) (p p' : Problem) :
  Problem_init h (DTuple items) = Some (Return p) ->
  Problem_init h' (DTuple items') = Some (Return p') ->
  p ∈ problem_list g ->
  Problem_str p = of_string "Question: " ++ [line_feed]
                    ++ of_string "Solution: " /\
  add_problem g p' = (g, false).
Proof.
  intros Hp Hp' Hin. simpl in Hp, Hp'.
  destruct (Py.getitem items 0), (Py.getitem items 1); try done.
  destruct (Py.getitem items' 0), (Py.getitem items' 1); try done.
  simpl in Hp, Hp'. injection Hp as <-; injection Hp' as <-.
  split; [reflexivity|].
  by apply (add_problem_same_text g _ _ Hin).
Qed.

Lemma tuple_problems_collide_witness :
  let p := mkProblem (of_string "x+1") (of_string "2") [] [] in
  let p' := mkProblem (of_string "x+2") (of_string "3") [] [] in
  Problem_str p = of_string "Question: " ++ [line_feed]
                    ++ of_string "Solution: " /\
  add_problem (mkGenerator [p] "") p' = (mkGenerator [p] "", false).
Proof.
  intros p p'.
  apply (tuple_problems_collide Z IntEngine.engine IntEngine.solver [] []
           [of_string "x+1"; of_string "2"] [of_string "x+2"; of_string "3"]).
  - reflexivity.
  - reflexivity.
  - simpl. by left.
Defined.

(** ** What the four rewrites keep of a question *)

Section SignRuns.

Lemma is_sign_cases (x : ascii) :
  is_sign x = true -> x = "+"%char \/ x = "-"%char.
Proof.
  unfold is_sign. intros Hx.
  destruct (Ascii.eqb_spec x "+"); [by left|].
  destruct (Ascii.eqb_spec x "-"); [by right|done].
Qed.

Lemma sign_mul_sign (x y : ascii) : is_sign (sign_mul x y) = true.
Proof. unfold sign_mul. by destruct (Ascii.eqb x y). Qed.

Lemma sign_mul_assoc (x y z : ascii) :
  is_sign x = true -> is_sign y = true -> is_sign z = true ->
  sign_mul (sign_mul x y) z = sign_mul x (sign_mul y z).
Proof.
  intros [-> | ->]%is_sign_cases [-> | ->]%is_sign_cases
         [-> | ->]%is_sign_cases; reflexivity.
Qed.

(** Two signs in front of a text amount to their product. *)
Lemma push_sign_twice (a b : ascii) (r : string) :
  is_sign a = true -> is_sign b = true ->
  push_sign a (push_sign b r) = push_sign (sign_mul a b) r.
Proof.
  intros Ha Hb. destruct r as [|z t]; simpl.
  - by rewrite Ha, Hb.
  - rewrite Hb, sign_mul_sign. simpl. destruct (is_sign z) eqn:Hz; simpl.
    + by rewrite Ha, sign_mul_sign, sign_mul_assoc.
    + by rewrite Ha, Hb.
Qed.

Lemma collapse_cons (x : ascii) (t : string) :
  collapse_signs (String x t) = push_sign x (collapse_signs t).
Proof. done. Qed.

(** One rewrite of a pair of signs into their product keeps the
    collapsed text. *)
Lemma collapse_replace_pair (a b : ascii) (s : string) :
  is_sign a = true -> is_sign b = true ->
  collapse_signs (replace_pair a b (sign_mul a b) s) = collapse_signs s.
Proof.
  intros Ha Hb.
  induction s as [|x|x y t IHt IHyt] using string_ind2; [done|done|].
  rewrite replace_pair_cons.
  destruct (Ascii.eqb_spec a x) as [<-|], (Ascii.eqb_spec b y) as [<-|];
    cbn [andb]; rewrite !collapse_cons; rewrite ?IHt, ?IHyt; try done.
  by rewrite push_sign_twice.
Qed.

Lemma collapse_cull_signs (s : string) :
  collapse_signs (cull_signs s) = collapse_signs s.
Proof.
  rewrite cull_signs_passes.
  rewrite (collapse_replace_pair "+" "+" _ eq_refl eq_refl).
  rewrite (collapse_replace_pair "-" "-" _ eq_refl eq_refl).
  rewrite (collapse_replace_pair "-" "+" _ eq_refl eq_refl).
  by rewrite (collapse_replace_pair "+" "-" _ eq_refl eq_refl).
Qed.

(** A text without two adjacent signs is its own collapsed form. *)
Lemma collapse_no_pairs (s : string) :
  pairs_ok (fun _ _ => false) s = true -> collapse_signs s = s.
Proof.
  induction s as [|x|x y t IHt IHyt] using string_ind2; [done|done|].
  change (pairs_ok (fun _ _ => false) (String x (String y t)))
    with ((negb (is_sign x && is_sign y) || false)
          && pairs_ok (fun _ _ => false) (String y t)).
  rewrite orb_false_r. intros [Hxy Hrest]%andb_true_iff.
  rewrite collapse_cons, IHyt by done. simpl.
  apply negb_true_iff in Hxy. by rewrite Hxy.
Qed.
End SignRuns.

(** The four rewrites that close both question renderers keep every
    character that is not a sign and the sign that each run of signs
    amounts to (an even number of [-] gives [+], an odd number [-]): the
    text before and the text after have the same collapsed form. When
    the text has no three signs in a row, what the renderers return is
    that collapsed form. *)
Theorem cull_signs_keeps_sign_of_runs :
  (forall s : string, collapse_signs (cull_signs s) = collapse_signs s)
  /\
  (forall s : string,
     no_three_signs s = true -> cull_signs s = collapse_signs s)
  /\
  (forall (V : Type) (h : heap) (e : Expression V) (raw : string),
     no_three_signs raw = true ->
     (question_text (fun o => o) str_term (unreduced_terms e)
        (deref h (operations e)) = Return raw ->
      str_question_from_expression h e = Return (collapse_signs raw))
     /\
     (question_text convert_op_to_latex latex_term (unreduced_terms e)
        (deref h (operations e)) = Return raw ->
      latex_question_from_expression h e = Return (collapse_signs raw))).
Proof.
  assert (Hnorm : forall s : string,
            no_three_signs s = true -> cull_signs s = collapse_signs s).
  { intros s H3. rewrite <- (collapse_cull_signs s).
    symmetry. apply collapse_no_pairs, pairs_none_iff.
    by apply cull_signs_normalizes. }
  split; [apply collapse_cull_signs|]. split; [exact Hnorm|].
  intros V h e raw H3.
  unfold str_question_from_expression, latex_question_from_expression.
  split; intros ->; simpl; by rewrite Hnorm.
Qed.

Lemma cull_signs_keeps_sign_of_runs_witness :
  cull_signs "3--2+-x" = collapse_signs "3--2+-x".
Proof.
  apply (proj1 (proj2 cull_signs_keeps_sign_of_runs) "3--2+-x").
  reflexivity.
Defined.

(** ** The question text in closed form *)

Section QuestionText.
Context {V : Type}.
Implicit Types (ts : list (Term V)) (ops : list string).

Lemma string_app_assoc (a b c : string) : (a +:+ b) +:+ c = a +:+ b +:+ c.
Proof.
  induction a as [|x a IH]; [done|].
  change (String x ((a +:+ b) +:+ c) = String x (a +:+ b +:+ c)).
  by rewrite IH.
Qed.

Lemma string_app_nil_r (a : string) : a +:+ "" = a.
Proof.
  induction a as [|x a IH]; [done|].
  change (String x (a +:+ "") = String x a). by rewrite IH.
Qed.

Lemma interleave_take conv (field : Term V -> string) ops ts :
  interleave conv field (take (length ts) ops) ts = interleave conv field ops ts.
Proof.
  revert ops. induction ts as [|t ts IH]; intros [|o ops]; simpl; try done.
  by rewrite IH.
Qed.

Lemma getitem_last {A : Type} (pre : list A) (x : A) :
  Py.getitem (pre ++ [x]) (-1) = Return x.
Proof.
  unfold Py.getitem, Py.norm_index. rewrite length_app. simpl.
  destruct (Z.leb_spec 0 (-1)); [lia|]. simpl.
  destruct (Z.leb_spec (- Z.of_nat (length pre + 1)) (-1)); [|lia]. simpl.
  replace (Z.to_nat (Z.of_nat (length pre + 1) + -1)) with (length pre) by lia.
  by rewrite list_lookup_middle.
Qed.

Lemma getitem_out_of_range {A : Type} (l : list A) (i : nat) :
  (length l <= i)%nat -> Py.getitem l (Z.of_nat i) = Raise IndexError.
Proof.
  intros Hi. unfold Py.getitem, Py.norm_index.
  destruct (Z.ltb_spec (Z.of_nat i) (Z.of_nat (length l))); [lia|].
  rewrite andb_false_r.
  destruct (Z.ltb_spec (Z.of_nat i) 0); [lia|]. by rewrite andb_false_r.
Qed.

(** The loop, from index [k] on, while both lists last. *)
Lemma question_loop_take conv (field : Term V -> string) ts ops
    (n k : nat) (acc : string) :
  (k + n <= length ts)%nat -> (k + n <= length ops)%nat ->
  question_loop conv field (seq k n) (Some <$> ts) ops acc
  = Return (acc +:+ interleave conv field (take n (drop k ops))
                                          (take n (drop k ts))).
Proof.
  revert k acc. induction n as [|n IH]; intros k acc Ht Ho.
  { simpl. by rewrite string_app_nil_r. }
  destruct (lookup_lt_is_Some_2 ts k) as [t Hk]; [lia|].
  destruct (lookup_lt_is_Some_2 ops k) as [o Hok]; [lia|].
  cbn [seq question_loop].
  rewrite (getitem_nat ops k o Hok).
  rewrite (getitem_nat (Some <$> ts) k (Some t))
    by (by rewrite list_lookup_fmap, Hk).
  cbn [mbind outcome_bind]. simpl.
  rewrite IH by lia.
  rewrite (drop_S ts t k Hk), (drop_S ops o k Hok). simpl.
  by rewrite !string_app_assoc.
Qed.

(** The loop runs out of tokens before it runs out of terms. *)
Lemma question_loop_short conv (field : Term V -> string) ts ops
    (n k : nat) (acc : string) :
  (k <= length ops < k + n)%nat -> (k + n <= length ts)%nat ->
  question_loop conv field (seq k n) (Some <$> ts) ops acc = Raise IndexError.
Proof.
  revert k acc. induction n as [|n IH]; intros k acc Ho Ht; [lia|].
  cbn [seq question_loop].
  destruct (decide (k = length ops)) as [->|Hne].
  { by rewrite (getitem_out_of_range ops (length ops)) by lia. }
  destruct (lookup_lt_is_Some_2 ts k) as [t Hk]; [lia|].
  destruct (lookup_lt_is_Some_2 ops k) as [o Hok]; [lia|].
  rewrite (getitem_nat ops k o Hok).
  rewrite (getitem_nat (Some <$> ts) k (Some t))
    by (by rewrite list_lookup_fmap, Hk).
  simpl. apply IH; lia.
Qed.

Lemma question_text_closed conv (field : Term V -> string) ts pre olast :
  (length ts <= length (pre ++ [olast]))%nat ->
  question_text conv field (Some <$> ts) (pre ++ [olast])
  = Return (interleave conv field (pre ++ [olast]) ts +:+ conv olast).
Proof.
  intros Hlen. unfold question_text. rewrite length_fmap.
  rewrite question_loop_take by (simpl; lia).
  rewrite getitem_last. simpl.
  by rewrite !drop_0, firstn_all, interleave_take.
Qed.

Lemma question_text_short conv (field : Term V -> string) ts ops :
  (length ops < length ts)%nat \/ ops = [] ->
  question_text conv field (Some <$> ts) ops = Raise IndexError.
Proof.
  intros Hshort. unfold question_text. rewrite length_fmap.
  destruct (decide (length ops < length ts)%nat) as [Hlt|Hge].
  - by rewrite question_loop_short by lia.
  - destruct Hshort as [?| ->]; [lia|].
    destruct ts; [done|simpl in Hge; lia].
Qed.
End QuestionText.

(** Both question renderers, on an expression whose unreduced terms
    are all terms. While the list of operations is not empty and not
    shorter than the list of terms, the question is the alternation
    token, term, token, term, ..., closed by the last token of the list
    (read as [operations[-1]], also when tokens were skipped), and then
    passed through the four rewrites. Otherwise the renderer raises
    [IndexError]. In the LaTeX question every token goes through
    [convert_op_to_latex], which compares by identity: [*] and [/] are
    replaced, and every other token is left as it is. *)
Theorem question_closed_form (V : Type) (h : heap) (e : Expression V)
    (ts : list (Term V)) :
  unreduced_terms e = Some <$> ts ->
  (forall pre olast,
     deref h (operations e) = pre ++ [olast] ->
     (length ts <= S (length pre))%nat ->
     str_question_from_expression h e
       = Return (cull_signs (interleave (fun o => o) str_term
                               (pre ++ [olast]) ts +:+ olast))
     /\
     latex_question_from_expression h e
       = Return (cull_signs (interleave convert_op_to_latex latex_term
                               (pre ++ [olast]) ts
                             +:+ convert_op_to_latex olast)))
  /\
  ((length (deref h (operations e)) < length ts)%nat
     \/ deref h (operations e) = [] ->
   str_question_from_expression h e = Raise IndexError /\
   latex_question_from_expression h e = Raise IndexError).
Proof.
  intros Hu. unfold str_question_from_expression,
    latex_question_from_expression. rewrite Hu. split.
  - intros pre olast -> Hlen.
    rewrite !question_text_closed by (rewrite length_app; simpl; lia).
    done.
  - intros Hshort. by rewrite !question_text_short.
Qed.

Lemma question_closed_form_witness :
  let e := mkExpression [IntEngine.num 1; IntEngine.num (-2)]
                        [IntEngine.num 1; IntEngine.num (-2)] 0%nat in
  str_question_from_expression [[""; "*"; ""]] e
    = Return (cull_signs
                (interleave (fun o => o) str_term ([""; "*"] ++ [""])
                   [Term_init 1 true; Term_init (-2) true] +:+ ""))
  /\
  latex_question_from_expression [[""; "*"; ""]] e
    = Return (cull_signs
                (interleave convert_op_to_latex latex_term ([""; "*"] ++ [""])
                   [Term_init 1 true; Term_init (-2) true]
                 +:+ convert_op_to_latex "")).
Proof.
  intros e.
  apply (proj1 (question_closed_form Z [[""; "*"; ""]] e
                  [Term_init 1 true; Term_init (-2) true] eq_refl)
           [""; "*"] "").
  - reflexivity.
  - simpl; lia.
Defined.

(** ** [simplify], [copy] and the constructor *)

Section ExpressionMethods.
Context {V : Type} `{SymbolicEngine V}.

Lemma combine_terms_single (t : pyval V) :
  combine_terms [t] [""; ""] = Some (Return t).
Proof. done. Qed.

Lemma deref_alloc_old (h : heap) (ops : list string) (l : loc) :
  (l < length h)%nat -> deref (h ++ [ops]) l = deref h l.
Proof. intros Hl. unfold deref. by rewrite lookup_app_l. Qed.

Lemma store_deref (h : heap) (l : loc) :
  (l < length h)%nat -> store h l (deref h l) = h.
Proof.
  intros Hl. unfold store, deref.
  destruct (lookup_lt_is_Some_2 h l Hl) as [ops Hops].
  rewrite Hops. simpl. by apply list_insert_id.
Qed.

(** On an expression that is already pruned, pruning deletes nothing. *)
Lemma zero_clean_pruned (h : heap) (e : Expression V) (ts : list (Term V)) :
  parallel h e -> unreduced_terms e = Some <$> ts ->
  Forall (fun t => is_zero_term t = false) ts ->
  zero_clean h e = (h, e, Return ()).
Proof.
  intros [Hr Ho] Hu Hnz. unfold zero_clean. rewrite Hu in *.
  rewrite length_fmap in Hr, Ho.
  rewrite zero_clean_triple_aligned by done.
  rewrite filter_nonzero, !prune_aligned_nonzero by done.
  rewrite store_deref.
  - destruct e as [u r l]. simpl in *. by rewrite Hu.
  - apply deref_valid. by destruct (deref h (operations e)).
Qed.
End ExpressionMethods.

(** [simplify] always ends. When one of the two calls of
    [combine_terms] raises, the expression and every list are left as
    they were. Otherwise the expression holds the two values, one per
    list, under a new list ['', '']: the lists that existed before are
    untouched, the expression satisfies the invariant and combines to
    the same two values as before. *)
Theorem simplify_keeps_value (V : Type) (E : SymbolicEngine V)
    (h : heap) (e : Expression V) :
  exists h' e' res,
    simplify h e = Some (h', e', res) /\
    match res with
    | Raise x =>
        h' = h /\ e' = e /\
        (combine_unreduced h e = Some (Raise x) \/
         combine_reduced h e = Some (Raise x))
    | Return _ =>
        h' = h ++ [[""; ""]] /\ operations e' = length h /\
        parallel h' e' /\
        (forall l : loc, (l < length h)%nat -> deref h' l = deref h l) /\
        combine_unreduced h' e' = combine_unreduced h e /\
        combine_reduced h' e' = combine_reduced h e
    end.
Proof.
  unfold simplify.
  destruct (combine_terms_total (unreduced_terms e) (deref h (operations e)))
    as [ru Hu].
  destruct (combine_terms_total (reduced_terms e) (deref h (operations e)))
    as [rr Hr].
  unfold combine_unreduced, combine_reduced. rewrite Hu, Hr.
  destruct ru as [u|x].
  2:{ eexists _, _, _. split; [reflexivity|]. simpl. tauto. }
  destruct rr as [r|x].
  2:{ eexists _, _, _. split; [reflexivity|]. simpl. tauto. }
  simpl. eexists _, _, _. split; [reflexivity|]. simpl.
  assert (Hd : deref (h ++ [[""; ""]]) (length h) = [""; ""]).
  { unfold deref. by rewrite list_lookup_middle. }
  split; [done|]. split; [done|].
  split; [unfold parallel; cbn [unreduced_terms reduced_terms operations];
          by rewrite Hd|].
  split; [apply deref_alloc_old|].
  rewrite Hd. by rewrite !combine_terms_single.
Qed.

(** [copy] of a pruned expression that satisfies the invariant returns
    an expression with equal term lists on the very same list of
    operations (the list object is not copied), and changes no list. *)
Theorem copy_shares_operations (V : Type) (E : SymbolicEngine V)
    (h : heap) (e : Expression V) (ts : list (Term V)) :
  parallel h e -> unreduced_terms e = Some <$> ts ->
  Forall (fun t => is_zero_term t = false) ts ->
  copy h e = (h, Return e).
Proof.
  intros Hp Hu Hnz. unfold copy, Expression_init.
  destruct Hp as [Hr Ho].
  rewrite Ho, <- Hr, Nat.add_1_r, !Nat.eqb_refl. cbn [negb].
  assert (He : mkExpression (unreduced_terms e) (reduced_terms e)
                 (operations e) = e) by by destruct e.
  rewrite He. by rewrite (zero_clean_pruned h e ts).
Qed.

Lemma copy_shares_operations_witness :
  let e := mkExpression [IntEngine.num 1; IntEngine.num 2]
                        [IntEngine.num 1; IntEngine.num 2] 0%nat in
  copy [[""; "+"; ""]] e = ([[""; "+"; ""]], Return e).
Proof.
  intros e.
  apply (copy_shares_operations Z IntEngine.engine _ e
           [Term_init 1 true; Term_init 2 true]).
  - split; reflexivity.
  - reflexivity.
  - repeat constructor.
Defined.

(** The constructor on lists of terms: it returns an expression exactly
    when the three lists are aligned, and raises [AssertionError]
    without touching any list otherwise. What it returns satisfies the
    invariant, holds no term that is zero in unreduced form, and is
    left unchanged by a further [zero_clean]. *)
Theorem constructor_accepts_aligned (V : Type) (E : SymbolicEngine V)
    (h : heap) (ts : list (Term V)) (r : list (pyval V)) (l : loc) :
  (length (deref h l) = S (length ts) /\ length r = length ts ->
   exists h' e,
     Expression_init h (Some <$> ts) r l = (h', Return e) /\
     parallel h' e /\
     unreduced_terms e
       = Some <$> filter (fun t => is_zero_term t = false) ts /\
     zero_clean h' e = (h', e, Return ()))
  /\
  (~ (length (deref h l) = S (length ts) /\ length r = length ts) ->
   Expression_init h (Some <$> ts) r l = (h, Raise AssertionError)).
Proof.
  split.
  - intros [Ho Hr]. eexists _, _.
    split; [by apply Expression_init_aligned|].
    assert (Hp : parallel (store h l (prune_aligned ts (deref h l)))
              (mkExpression
                 (Some <$> filter (fun t => is_zero_term t = false) ts)
                 (prune_aligned ts r) l)).
    { eapply Expression_init_parallel. by apply Expression_init_aligned. }
    split; [exact Hp|]. split; [done|].
    apply (zero_clean_pruned _ _ _ Hp eq_refl).
    apply Forall_forall. by intros t [? _]%list_elem_of_filter.
  - intros Hbad. unfold Expression_init. rewrite length_fmap.
    destruct (Nat.eqb_spec (length (deref h l)) (length ts + 1)) as [Ho|];
      [|done].
    destruct (Nat.eqb_spec (length ts) (length r)) as [Hr|]; [|done].
    exfalso. apply Hbad. split; lia.
Qed.

Lemma constructor_accepts_aligned_witness :
  (exists h' e,
     Expression_init [[""; "+"; ""]] (Some <$> [Term_init 0 true; Term_init 2 true])
       [IntEngine.num 0; IntEngine.num 2] 0%nat = (h', Return e) /\
     parallel h' e /\
     unreduced_terms e
       = Some <$> filter (fun t => is_zero_term t = false)
                    [Term_init 0 true; Term_init 2 true] /\
     zero_clean h' e = (h', e, Return ()))
  /\
  Expression_init [[""; "+"; ""]] (Some <$> [Term_init 1 true])
    [IntEngine.num 1] 0%nat = ([[""; "+"; ""]], Raise AssertionError).
Proof.
  split.
  - apply (proj1 (constructor_accepts_aligned Z IntEngine.engine
                    [[""; "+"; ""]] [Term_init 0 true; Term_init 2 true]
                    [IntEngine.num 0; IntEngine.num 2] 0%nat)).
    split; reflexivity.
  - apply (proj2 (constructor_accepts_aligned Z IntEngine.engine
                    [[""; "+"; ""]] [Term_init 1 true]
                    [IntEngine.num 1] 0%nat)).
    intros [Ho _]. simpl in Ho. lia.
Defined.

(** ** An operation token in the first or the last slot *)

Section EdgeSlots.
Context {V : Type} `{SymbolicEngine V}.
Implicit Types (terms mid : list (pyval V)) (ops rest pre : list string).

(** A token that is neither an operation nor holds a mark. *)
Local Abbreviation plain :=
  (fun t : string => is_operator t = false /\ Py.contains "(" t = false /\
                     Py.contains ")" t = false).

Lemma delitem_last {A : Type} (l : list A) (x : A) :
  Py.delitem (l ++ [x]) (-1) = Return l.
Proof.
  unfold Py.delitem, Py.norm_index. rewrite length_app. simpl.
  destruct (Z.leb_spec 0 (-1)); [lia|]. simpl.
  destruct (Z.leb_spec (- Z.of_nat (length l + 1)) (-1)); [|lia]. simpl.
  replace (Z.to_nat (Z.of_nat (length l + 1) + -1)) with (length l) by lia.
  by rewrite delete_middle, app_nil_r.
Qed.

Lemma no_mark_locs (c : ascii) ops :
  (forall j o, ops !! j = Some o -> Py.contains c o = false) ->
  Py.locs c ops = [].
Proof. intros Hno. by apply (locs_from_nil 0). Qed.

(** The step taken when exactly one token is an operation. *)
Lemma arith_step_only (terms : list (pyval V)) pre o rest :
  is_operator o = true -> Forall plain pre -> Forall plain rest ->
  arith_step terms (pre ++ o :: rest)
  = Some (apply_binop (op_method o) (length pre) terms (pre ++ o :: rest)).
Proof.
  intros Ho Hpre Hrest.
  destruct (arith_step_cases terms (pre ++ o :: rest))
    as [[_ Hno]|(k & o' & Hk & Ho' & Hstep)].
  { specialize (Hno (length pre) o (list_lookup_middle _ _ _ _ eq_refl)).
    congruence. }
  rewrite Hstep.
  apply lookup_app_Some in Hk as [Hk|[Hge Hk]].
  { apply (proj1 (Forall_lookup _ _) Hpre) in Hk as [Hk _]. congruence. }
  destruct (k - length pre)%nat as [|j] eqn:Hj.
  - injection Hk as <-. by replace k with (length pre) by lia.
  - simpl in Hk.
    apply (proj1 (Forall_lookup _ _) Hrest) in Hk as [Hk _]. congruence.
Qed.

Lemma only_operator_no_mark (c : ascii) pre o rest :
  c = "("%char \/ c = ")"%char ->
  is_operator o = true -> Forall plain pre -> Forall plain rest ->
  Py.locs c (pre ++ o :: rest) = [].
Proof.
  intros Hc Ho Hpre Hrest. apply no_mark_locs. intros j t Hj.
  apply lookup_app_Some in Hj as [Hj|[_ Hj]].
  - apply (proj1 (Forall_lookup _ _) Hpre) in Hj as (_ & H1 & H2).
    by destruct Hc as [-> | ->].
  - destruct (j - length pre)%nat as [|i]; simpl in Hj.
    + injection Hj as <-. by apply operator_no_mark.
    + apply (proj1 (Forall_lookup _ _) Hrest) in Hj as (_ & H1 & H2).
      by destruct Hc as [-> | ->].
Qed.
End EdgeSlots.

(** An operation token in the first slot takes the LAST term as its
    left operand: [terms[loc - 1]] is [terms[-1]] there. With no mark
    and no other operation token, [combine_terms] applies the operation
    to the last and the first term, puts the result first, drops the
    last term, and goes on with the remaining tokens. *)
Theorem leading_operator_wraps (V : Type) (E : SymbolicEngine V)
    (o : string) (rest : list string) (a b : Term V)
    (mid : list (pyval V)) :
  is_operator o = true ->
  Forall (fun t => is_operator t = false /\ Py.contains "(" t = false /\
                   Py.contains ")" t = false) rest ->
  length rest = S (S (length mid)) ->
  combine_terms (Some a :: mid ++ [Some b]) (o :: rest)
  = combine_terms (Some (op_method o b a) :: mid) rest.
Proof.
  intros Ho Hrest Hlen.
  destruct (combine_terms_total (Some (op_method o b a) :: mid) rest)
    as [r Hr].
  rewrite Hr. apply evals_combine_terms in Hr as [f Hf].
  apply evals_combine_terms. exists (S f). rewrite <- Hf.
  rewrite combine_fuel_arith.
  - rewrite (arith_step_only _ [] o rest Ho (Forall_nil_2 _) Hrest).
    unfold apply_binop. cbn [length app].
    rewrite (delitem_nat (o :: rest) 0) by (simpl; lia).
    change (Z.of_nat 0 - 1) with (-1).
    change (Some a :: mid ++ [Some b]) with ((Some a :: mid) ++ [Some b]).
    rewrite getitem_last.
    rewrite (getitem_nat _ 0 (Some a)) by done.
    cbn [mbind outcome_bind py_binop].
    rewrite setitem_nat by (simpl; lia).
    cbn [mbind outcome_bind]. simpl.
    change (Some (op_method o b a) :: mid ++ [Some b])
      with ((Some (op_method o b a) :: mid) ++ [Some b]).
    by rewrite delitem_last.
  - simpl. rewrite length_app. simpl. lia.
  - simpl. rewrite length_app. simpl. lia.
  - by apply (only_operator_no_mark _ [] o rest); [left| | |].
  - by apply (only_operator_no_mark _ [] o rest); [right| | |].
Qed.

Lemma leading_operator_wraps_witness :
  combine_terms (Some (Term_init 2 true) :: [] ++ [Some (Term_init 7 true)])
                ("-" :: [""; ""])
  = combine_terms
      (Some (op_method (H := IntEngine.engine) "-" (Term_init 7 true)
               (Term_init 2 true)) :: []) [""; ""].
Proof.
  apply (leading_operator_wraps Z IntEngine.engine).
  - reflexivity.
  - repeat constructor.
  - reflexivity.
Defined.

(** An operation token in the last slot has no right operand: with
    more than one term, no mark and no other operation token,
    [combine_terms] deletes the token, reads [terms[loc - 1]] and then
    raises [IndexError] on [terms[loc]]. *)
Theorem trailing_operator_raises (V : Type) (E : SymbolicEngine V)
    (o : string) (pre : list string) (terms : list (pyval V)) :
  is_operator o = true ->
  Forall (fun t => is_operator t = false /\ Py.contains "(" t = false /\
                   Py.contains ")" t = false) pre ->
  length pre = length terms -> (1 < length terms)%nat ->
  combine_terms terms (pre ++ [o]) = Some (Raise IndexError).
Proof.
  intros Ho Hpre Hlen Hmany.
  apply evals_combine_terms. exists 1%nat.
  rewrite combine_fuel_arith.
  - rewrite (arith_step_only _ pre o [] Ho Hpre (Forall_nil_2 _)).
    unfold apply_binop.
    rewrite delitem_nat by (rewrite length_app; simpl; lia).
    cbn [mbind outcome_bind].
    destruct (lookup_lt_is_Some_2 terms (length pre - 1)) as [t Ht]; [lia|].
    replace (Z.of_nat (length pre) - 1) with (Z.of_nat (length pre - 1))
      by lia.
    rewrite (getitem_nat _ _ t Ht). cbn [mbind outcome_bind].
    by rewrite getitem_out_of_range by lia.
  - rewrite length_app. simpl. lia.
  - lia.
  - by apply (only_operator_no_mark _ pre o []); [left| | |].
  - by apply (only_operator_no_mark _ pre o []); [right| | |].
Qed.

Lemma trailing_operator_raises_witness :
  combine_terms [IntEngine.num 2; IntEngine.num 7] ([""; ""] ++ ["+"])
  = Some (Raise IndexError).
Proof.
  apply (trailing_operator_raises Z IntEngine.engine).
  - reflexivity.
  - repeat constructor.
  - reflexivity.
  - simpl; lia.
Defined.

(** ** The solution text in closed form *)

Section SolutionText.
Context {V : Type} `{SymbolicEngine V}.

Lemma foldl_join {B : Type} (f : ustr -> B -> ustr) (g : B -> ustr)
    (join : ustr) :
  (forall acc s, f acc s = acc ++ g s ++ join) ->
  forall (a : ustr) (init : list B) (last : B),
    foldl f a (init ++ [last])
    = (a ++ concat ((fun s => g s ++ join) <$> init) ++ g last) ++ join.
Proof.
  intros Hf a init last. revert a.
  induction init as [|s init IH]; intros a; simpl.
  - by rewrite Hf, app_assoc.
  - rewrite IH, Hf. by rewrite <- !app_assoc.
Qed.

Lemma slice_cut_join {A : Type} (X join : list A) (cut : Z) :
  cut = Z.of_nat (length join) -> 0 < cut ->
  Py.slice (X ++ join) 0 (- cut) = X.
Proof.
  intros -> Hpos.
  rewrite slice_drop_tail by (rewrite length_app; lia).
  rewrite length_app.
  replace (length X + length join - Z.to_nat (Z.of_nat (length join)))%nat
    with (length X) by lia.
  by rewrite take_app_length.
Qed.

Lemma equality_text_closed (render : V -> string) (sign : string) (var : V)
    (init : list V) (last : V) :
  equality_text render sign var (init ++ [last])
  = concat ((fun s => (of_string (render var) ++ of_string sign ++ [space]
                        ++ of_string (render s)) ++ of_string ", ") <$> init)
    ++ of_string (render var) ++ of_string sign ++ [space]
    ++ of_string (render last).
Proof.
  unfold equality_text.
  rewrite (foldl_join _
             (fun s => of_string (render var) ++ of_string sign ++ [space]
                         ++ of_string (render s)) (of_string ", ")).
  - etrans; [by apply (slice_cut_join _ _ 2)|]. done.
  - intros acc s. by rewrite <- !app_assoc.
Qed.

Lemma interval_text_closed (render : V -> string) (member join : ustr)
    (cut : Z) (var : V) (init : list V) (last : V) :
  cut = Z.of_nat (length join) -> 0 < cut ->
  interval_text render member join cut var (init ++ [last])
  = (of_string (render var) ++ member)
    ++ concat ((fun s => of_string (render s) ++ join) <$> init)
    ++ of_string (render last).
Proof.
  intros Hcut Hpos. unfold interval_text.
  rewrite (foldl_join _ (fun s => of_string (render s)) join) by done.
  by rewrite slice_cut_join.
Qed.
End SolutionText.

(** The text of a non-empty list of solutions. For an equality it is
    [var= s] for each solution, joined by a comma and a space; for an
    inequality it is the variable, the membership sign and the
    solutions joined by the union sign: the slice at the end removes
    exactly the last separator. In LaTeX the text is never empty, so the
    branch that returns "\text{ No solution }" is not reached. *)
Theorem solution_text_closed_form (V : Type) (E : SymbolicEngine V)
    (sign : string) (var : V) (init : list V) (last : V) :
  str_solution_text sign var (init ++ [last])
  = (if String.eqb sign "="
     then concat ((fun s => (of_string (eng_str var) ++ of_string sign
                              ++ [space] ++ of_string (eng_str s))
                            ++ of_string ", ") <$> init)
          ++ of_string (eng_str var) ++ of_string sign ++ [space]
          ++ of_string (eng_str last)
     else (of_string (eng_str var) ++ [space; element_of; space])
          ++ concat ((fun s => of_string (eng_str s)
                                 ++ [space; union; space]) <$> init)
          ++ of_string (eng_str last))
  /\
  latex_solution_text sign var (init ++ [last])
  = (if String.eqb sign "="
     then concat ((fun s => (of_string (eng_latex var) ++ of_string sign
                              ++ [space] ++ of_string (eng_latex s))
                            ++ of_string ", ") <$> init)
          ++ of_string (eng_latex var) ++ of_string sign ++ [space]
          ++ of_string (eng_latex last)
     else (of_string (eng_latex var) ++ of_string " \in ")
          ++ concat ((fun s => of_string (eng_latex s)
                                 ++ of_string " \cup ") <$> init)
          ++ of_string (eng_latex last)).
Proof.
  unfold str_solution_text, latex_solution_text.
  assert (Hne : (length (init ++ [last]) =? 0)%nat = false).
  { apply Nat.eqb_neq. rewrite length_app. simpl. lia. }
  rewrite Hne. destruct (String.eqb sign "=") eqn:Hs.
  - rewrite !equality_text_closed. split; [done|].
    destruct (Nat.eqb_spec (length
      (concat ((fun s => (of_string (eng_latex var) ++ of_string sign
                           ++ [space] ++ of_string (eng_latex s))
                         ++ of_string ", ") <$> init)
       ++ of_string (eng_latex var) ++ of_string sign ++ [space]
       ++ of_string (eng_latex last))) 0) as [Hz|]; [|done].
    rewrite !length_app in Hz. simpl in Hz. lia.
  - rewrite !interval_text_closed by done. split; [done|].
    destruct (Nat.eqb_spec (length
      ((of_string (eng_latex var) ++ of_string " \in ")
       ++ concat ((fun s => of_string (eng_latex s) ++ of_string " \cup ")
                    <$> init)
       ++ of_string (eng_latex last))) 0) as [Hz|]; [|done].
    rewrite !length_app in Hz. simpl in Hz. lia.
Qed.

(** ** A closure operator on an operand that is zero *)

Section ZeroOperand.
Context {V : Type} `{SymbolicEngine V}.
Implicit Types (up uq : list (Term V)) (ip iq : list string).

Lemma filter_nonzero_snoc_zero up (z : Term V) :
  Forall (fun t => is_zero_term t = false) up -> is_zero_term z = true ->
  filter (fun t => is_zero_term t = false) (up ++ [z]) = up.
Proof.
  intros Hnz Hz. rewrite filter_app, filter_nonzero by done.
  rewrite filter_cons. case_decide; [congruence|]. by rewrite app_nil_r.
Qed.

Lemma prune_aligned_snoc_zero {X : Type} up (z : Term V) (xs : list X)
    (x : X) (rest : list X) :
  Forall (fun t => is_zero_term t = false) up -> is_zero_term z = true ->
  length xs = length up ->
  prune_aligned (up ++ [z]) (xs ++ x :: rest) = xs ++ rest.
Proof.
  intros Hnz Hz Hlen. rewrite prune_aligned_app by done.
  rewrite prune_aligned_nonzero by done. simpl. by rewrite Hz.
Qed.

Lemma store_alloc (h : heap) (old new : list string) :
  store (h ++ [old]) (length h) new = h ++ [new].
Proof.
  unfold store. replace (length h) with (length h + 0)%nat by lia.
  by rewrite insert_app_r.
Qed.

(** A group that spans the whole input. *)
Lemma combine_wrapped (tp : list (pyval V)) ip (a : pyval V) :
  Z.of_nat (length tp) < 10000 ->
  combine_terms tp ("" :: ip ++ [""]) = Some (Return a) ->
  combine_terms tp ("(" :: ip ++ [")"]) = Some (Return a).
Proof.
  intros Hfar Hp. apply evals_combine_terms.
  replace tp with ([] ++ tp ++ []) by by rewrite app_nil_r.
  change ("(" :: ip ++ [")"]) with ([] ++ "(" :: ip ++ ")" :: []).
  eapply (embed_sim [] [] [] [] "(" ")"); try done.
  - exists 0%nat, "(". split; [done|]. split; [done|].
    intros j o' Hj. replace j with 0%nat by lia. by intros [= <-].
  - by exists 1%nat.
Qed.

(** More opening than closing marks, or the reverse: the assertion on
    the two counts fails. *)
Lemma combine_unbalanced (terms : list (pyval V)) (ops : list string) :
  (1 < length terms)%nat -> length ops = S (length terms) ->
  count_mark "(" ops <> count_mark ")" ops ->
  combine_terms terms ops = Some (Raise AssertionError).
Proof.
  intros Hterms Hlen Hbad. unfold combine_terms, combine_bound.
  rewrite Nat.add_1_r. simpl.
  destruct (Nat.eqb_spec (length ops) (length terms + 1)); [|done].
  destruct terms as [|t0 [|t1 ts]]; simpl in Hterms; try lia.
  unfold count_mark in Hbad. simpl.
  by destruct (Nat.eqb_spec (length (Py.locs "(" ops))
                            (length (Py.locs ")" ops))).
Qed.
End ZeroOperand.

(** A right operand that is a single zero term (the state [simplify]
    leaves an expression of value zero in) is pruned by the constructor
    together with its reduced term and the operator token. For each of
    the five operators and every pruned [p] with at least one term and
    one token more than terms, [p <op> q] is then the terms of [p] under
    ['('] + p.operations[1:-1] + [')'], in a new list, whatever the
    operator and the reduced term of [q] are. When moreover the first
    and the last token of [p] are empty and [p] has fewer than 10000
    terms, the result combines to the value that [p] combines to,
    unreduced and reduced alike: [p * 0], [p / 0] and [p ** 0] all give
    [p]. *)
Theorem closure_drops_zero_operand (V : Type) (E : SymbolicEngine V)
    (op : string) (h : heap) (p q : Expression V) (up : list (Term V))
    (ip : list string) (b0 b1 c0 c1 : string) (z : Term V) (rq : pyval V) :
  unreduced_terms p = Some <$> up ->
  Forall (fun t => is_zero_term t = false) up ->
  length (reduced_terms p) = length up ->
  deref h (operations p) = b0 :: ip ++ [b1] -> S (length ip) = length up ->
  unreduced_terms q = [Some z] -> is_zero_term z = true ->
  reduced_terms q = [rq] -> deref h (operations q) = [c0; c1] ->
  let h' := h ++ ["(" :: ip ++ [")"]] in
  let e := mkExpression (unreduced_terms p) (reduced_terms p) (length h) in
  closure op h p q = (h', Return e)
  /\
  (b0 = "" -> b1 = "" -> Z.of_nat (length up) < 10000 ->
   forall a,
     (combine_unreduced h p = Some (Return a) ->
      combine_unreduced h' e = Some (Return a))
     /\
     (combine_reduced h p = Some (Return a) ->
      combine_reduced h' e = Some (Return a))).
Proof.
  intros Hup Hnz Hrp Hop Hlp Huq Hz Hrq Hoq h' e.
  assert (Hd : forall x : list string, deref (h ++ [x]) (length h) = x).
  { intros x. unfold deref. by rewrite list_lookup_middle. }
  split.
  - unfold closure, alloc.
    rewrite Hop, Hoq.
    change [c0; c1] with (c0 :: [] ++ [c1]).
    rewrite closure_ops_interior.
    rewrite Hup, Huq, Hrq.
    change [Some z] with (Some <$> [z]). rewrite <- fmap_app.
    rewrite Expression_init_aligned.
    + rewrite Hd, filter_nonzero_snoc_zero by done.
      change ("(" :: ip ++ (")" +:+ op +:+ "(") :: [] ++ [")"])
        with (("(" :: ip) ++ (")" +:+ op +:+ "(") :: [")"]).
      rewrite !prune_aligned_snoc_zero by (done || simpl; lia).
      subst h' e. by rewrite store_alloc, app_nil_r, Hup.
    + rewrite !length_app. simpl. lia.
    + rewrite Hd. simpl. rewrite !length_app. simpl. lia.
  - intros -> -> Hfar a.
    unfold combine_unreduced, combine_reduced. subst h' e.
    cbn [unreduced_terms reduced_terms operations]. rewrite Hd, Hop.
    split; intros Ha; apply combine_wrapped; try done.
    + by rewrite Hup, length_fmap.
    + lia.
Qed.

Lemma closure_drops_zero_operand_witness :
  let h : heap := [[""; "+"; ""]; [""; ""]] in
  let p := mkExpression [IntEngine.num 2; IntEngine.num 3]
                        [IntEngine.num 2; IntEngine.num 3] 0%nat in
  let q := mkExpression [IntEngine.num 0] [IntEngine.num 0] 1%nat in
  let h' := h ++ [["("; "+"; ")"]] in
  let e := mkExpression (unreduced_terms p) (reduced_terms p) 2%nat in
  closure "*" h p q = (h', Return e)
  /\
  combine_unreduced h p = Some (Return (IntEngine.num 5))
  /\
  combine_unreduced h' e = Some (Return (IntEngine.num 5)).
Proof.
  intros h p q h' e.
  destruct (closure_drops_zero_operand Z IntEngine.engine "*" h p q
              [Term_init 2 true; Term_init 3 true] ["+"] "" "" "" ""
              (Term_init 0 true) (IntEngine.num 0))
    as [Hc Hv]; try reflexivity.
  - repeat constructor.
  - split; [exact Hc|]. split; [reflexivity|].
    apply (proj1 (Hv eq_refl eq_refl eq_refl (IntEngine.num 5))).
    reflexivity.
Defined.

(** A left operand that is a single zero term is pruned together with
    the opening token: [p <op> q] keeps the terms of [q] under the
    operations [')<op>('] + q.operations[1:-1] + [')']. With one term in
    [q], combining returns that term and the operator is never applied
    (so [0 - q] combines to [q]); with several terms and balanced marks
    inside [q], the opening mark that was deleted is missing and
    combining raises [AssertionError]. *)
Theorem closure_zero_left_operand (V : Type) (E : SymbolicEngine V)
    (op : string) (h : heap) (p q : Expression V) (uq : list (Term V))
    (iq : list string) (b0 b1 c0 c1 : string) (z : Term V) (rp : pyval V) :
  is_operator op = true ->
  unreduced_terms p = [Some z] -> is_zero_term z = true ->
  reduced_terms p = [rp] -> deref h (operations p) = [b0; b1] ->
  unreduced_terms q = Some <$> uq ->
  Forall (fun t => is_zero_term t = false) uq ->
  length (reduced_terms q) = length uq ->
  deref h (operations q) = c0 :: iq ++ [c1] -> S (length iq) = length uq ->
  let merged := (")" +:+ op +:+ "(") :: iq ++ [")"] in
  closure op h p q
  = (h ++ [merged],
     Return (mkExpression (unreduced_terms q) (reduced_terms q) (length h)))
  /\
  (forall u, uq = [u] ->
     combine_terms (unreduced_terms q) merged = Some (Return (Some u)))
  /\
  ((1 < length uq)%nat -> count_mark "(" iq = count_mark ")" iq ->
   combine_terms (unreduced_terms q) merged = Some (Raise AssertionError)).
Proof.
  intros Hop Hup Hz Hrp Hdp Huq Hnz Hrq Hdq Hlq merged.
  split; [|split].
  - unfold closure, alloc.
    rewrite Hdp, Hdq.
    change [b0; b1] with (b0 :: [] ++ [b1]).
    rewrite closure_ops_interior.
    rewrite Hup, Huq, Hrp.
    change ([Some z] ++ (Some <$> uq)) with (Some <$> (z :: uq)).
    assert (Hd : forall x : list string, deref (h ++ [x]) (length h) = x).
    { intros x. unfold deref. by rewrite list_lookup_middle. }
    rewrite Expression_init_aligned.
    + rewrite Hd, filter_cons. case_decide; [congruence|].
      rewrite filter_nonzero by done. simpl. rewrite Hz.
      rewrite !prune_aligned_nonzero by done. by rewrite store_alloc.
    + simpl. lia.
    + rewrite Hd. simpl. rewrite !length_app. simpl. lia.
  - intros u ->. rewrite Huq. destruct iq; [|simpl in Hlq; lia].
    subst merged. unfold combine_terms, combine_bound.
    by rewrite Nat.add_1_r.
  - intros Hmany Hbal. apply combine_unbalanced.
    + by rewrite Huq, length_fmap.
    + subst merged. rewrite Huq, length_fmap. simpl.
      rewrite length_app. simpl. lia.
    + subst merged.
      destruct (is_operator_cases op Hop) as [-> | [-> | [-> | [-> | ->]]]];
        rewrite !count_mark_cons, !count_mark_app, !count_mark_cons;
        simpl; change (count_mark "(" []) with 0%nat;
        change (count_mark ")" []) with 0%nat; lia.
Qed.

Lemma closure_zero_left_operand_witness :
  let h : heap := [[""; ""]; [""; ""]] in
  let p := mkExpression [IntEngine.num 0] [IntEngine.num 0] 0%nat in
  let q := mkExpression [IntEngine.num 5] [IntEngine.num 5] 1%nat in
  closure "-" h p q
  = (h ++ [[")-("; ")"]],
     Return (mkExpression (unreduced_terms q) (reduced_terms q) 2%nat))
  /\
  combine_terms (unreduced_terms q) [")-("; ")"]
    = Some (Return (IntEngine.num 5)).
Proof.
  intros h p q.
  destruct (closure_zero_left_operand Z IntEngine.engine "-" h p q
              [Term_init 5 true] [] "" "" "" ""
              (Term_init 0 true) (IntEngine.num 0))
    as (Hc & Hone & _); try reflexivity.
  - repeat constructor.
  - split; [exact Hc|]. by apply Hone.
Defined.

(** ** The order of operations on input without grouping marks *)

Section Passes.
Context {V : Type} `{SymbolicEngine V}.
Implicit Types (ts : list (Term V)) (interior pre post : list string).

Lemma reduce_level_cons (lvl : string -> bool) (a b : Term V) ts o interior :
  reduce_level lvl (a :: b :: ts) (o :: interior)
  = if lvl o then reduce_level lvl (op_method o a b :: ts) interior
    else ((a :: (reduce_level lvl (b :: ts) interior).1),
          (o :: (reduce_level lvl (b :: ts) interior).2)).
Proof.
  cbn [reduce_level]. destruct (lvl o); [done|].
  by destruct (reduce_level lvl (b :: ts) interior).
Qed.

(** Without a token of the level, the pass changes nothing. *)
Lemma reduce_level_none (lvl : string -> bool) ts interior :
  Forall (fun o => lvl o = false) interior ->
  reduce_level lvl ts interior = (ts, interior).
Proof.
  intros Hno. revert ts.
  induction Hno as [|o interior Ho _ IH]; intros ts; [done|].
  destruct ts as [|a [|b ts]]; [done|done|].
  by rewrite reduce_level_cons, Ho, IH.
Qed.

(** The pass does not see the difference between the input and the
    input after the leftmost operation of the level was applied. *)
Lemma reduce_level_commute (lvl : string -> bool) pre o post
    ts1 (a b : Term V) ts2 :
  Forall (fun o => lvl o = false) pre -> lvl o = true ->
  length ts1 = length pre ->
  reduce_level lvl (ts1 ++ a :: b :: ts2) (pre ++ o :: post)
  = reduce_level lvl (ts1 ++ op_method o a b :: ts2) (pre ++ post).
Proof.
  intros Hpre Ho. revert ts1.
  induction Hpre as [|o' pre Ho' _ IH]; intros ts1 Hlen.
  - destruct ts1; [|done]. simpl app. by rewrite reduce_level_cons, Ho.
  - destruct ts1 as [|c ts1]; [done|]. injection Hlen as Hlen.
    specialize (IH ts1 Hlen).
    destruct ts1 as [|d ts1]; simpl app in *;
      by rewrite !reduce_level_cons, Ho', IH.
Qed.

(** The tokens that a pass leaves, and the alignment of its result. *)
Lemma reduce_level_tokens (lvl : string -> bool) ts interior :
  length ts = S (length interior) ->
  (reduce_level lvl ts interior).2 = filter (fun o => lvl o = false) interior
  /\ length (reduce_level lvl ts interior).1
     = S (length (reduce_level lvl ts interior).2).
Proof.
  revert ts. induction interior as [|o interior IH]; intros ts Hlen.
  { by destruct ts as [|a [|? ?]]. }
  destruct ts as [|a [|b ts]]; try done.
  rewrite reduce_level_cons, filter_cons.
  destruct (lvl o) eqn:Ho.
  - case_decide; [done|]. apply IH. simpl in *. lia.
  - case_decide; [|done]. simpl.
    destruct (IH (b :: ts)) as [-> ->]; [simpl in *; lia|]. done.
Qed.

Lemma split_first_of_level (lvl : string -> bool) interior :
  Forall (fun o => lvl o = false) interior \/
  exists pre o post, interior = pre ++ o :: post /\
    Forall (fun o => lvl o = false) pre /\ lvl o = true.
Proof.
  induction interior as [|o interior IH]; [by left|].
  destruct (lvl o) eqn:Ho.
  { right. by exists [], o, interior. }
  destruct IH as [Hno|(pre & o' & post & -> & Hpre & Ho')].
  - left. by constructor.
  - right. exists (o :: pre), o', post. split; [done|]. split; [|done].
    by constructor.
Qed.

(** One pass, for a level whose leftmost operation is the one that
    [combine_terms] applies while tokens of the class [allowed] are all
    there is. *)
Section OnePass.
Variables (lvl allowed : string -> bool).
Hypothesis allowed_operator : forall o, allowed o = true -> is_operator o = true.
Hypothesis selects : forall (terms : list (pyval V)) pre o post,
  Forall (fun o => allowed o = true) (pre ++ o :: post) ->
  Forall (fun o => lvl o = false) pre -> lvl o = true ->
  arith_step terms ("" :: (pre ++ o :: post) ++ [""])
  = Some (apply_binop (op_method o) (S (length pre)) terms
            ("" :: (pre ++ o :: post) ++ [""])).

Lemma pass_sim (n : nat) ts interior (r : outcome (pyval V)) :
  length interior = n -> length ts = S (length interior) ->
  Forall (fun o => allowed o = true) interior ->
  evals (Some <$> (reduce_level lvl ts interior).1)
        ("" :: (reduce_level lvl ts interior).2 ++ [""]) r ->
  evals (Some <$> ts) ("" :: interior ++ [""]) r.
Proof.
  revert ts interior.
  induction n as [|n IH]; intros ts interior Hn Hlen Hall Hred.
  { destruct interior; [|done]. by destruct ts as [|a [|? ?]]. }
  destruct (split_first_of_level lvl interior)
    as [Hno|(pre & o & post & -> & Hpre & Ho)].
  { by rewrite reduce_level_none in Hred. }
  rewrite length_app in Hn, Hlen. simpl in Hn, Hlen.
  destruct (split_two (length pre) ts) as (ts1 & a & b & ts2 & -> & Hl1);
    [lia|].
  rewrite reduce_level_commute in Hred by done.
  apply IH in Hred as [f Hf].
  - exists (S f). rewrite <- Hf.
    rewrite (flat_step (op_method o) f (length pre) ts1 ts2 a b
               (pre ++ o :: post)).
    + by rewrite delete_middle.
    + rewrite !length_app in *. simpl in *. lia.
    + eapply Forall_impl; [exact Hall|]. apply allowed_operator.
    + done.
    + rewrite <- Hl1 at 1. rewrite Hl1. by apply selects.
  - rewrite length_app. lia.
  - rewrite !length_app in *. simpl in *. lia.
  - apply Forall_app in Hall as [Hp Hq]. apply Forall_cons in Hq as [_ Hq].
    by apply Forall_app.
Qed.
End OnePass.

Lemma lookup_flat_pre pre o post (j : nat) (tok : string) :
  (j < S (length pre))%nat ->
  ("" :: (pre ++ o :: post) ++ [""]) !! j = Some tok ->
  tok = "" \/ tok ∈ pre.
Proof.
  intros Hj Hlook. destruct j as [|j]; simpl in Hlook; [left; congruence|].
  right. rewrite <- app_assoc in Hlook.
  rewrite lookup_app_l in Hlook by lia. by eapply list_elem_of_lookup_2.
Qed.

Lemma lookup_flat_all interior (j : nat) (tok : string) :
  ("" :: interior ++ [""]) !! j = Some tok -> tok = "" \/ tok ∈ interior.
Proof.
  intros Hlook. destruct j as [|j]; simpl in Hlook; [left; congruence|].
  apply lookup_app_Some in Hlook as [Hl|[_ Hl]].
  - right. by eapply list_elem_of_lookup_2.
  - apply list_lookup_singleton_Some in Hl as [_ <-]. by left.
Qed.

Lemma lookup_flat_middle pre o post :
  ("" :: (pre ++ o :: post) ++ [""]) !! S (length pre) = Some o.
Proof.
  simpl. rewrite <- app_assoc. by apply list_lookup_middle.
Qed.

(** The first pass: powers. *)
Lemma selects_pow (terms : list (pyval V)) pre o post :
  Forall (fun o => is_operator o = true) (pre ++ o :: post) ->
  Forall (fun o => is_pow o = false) pre -> is_pow o = true ->
  arith_step terms ("" :: (pre ++ o :: post) ++ [""])
  = Some (apply_binop (op_method o) (S (length pre)) terms
            ("" :: (pre ++ o :: post) ++ [""])).
Proof.
  intros _ Hpre Ho. apply String.eqb_eq in Ho as ->.
  unfold arith_step. rewrite (index_first "^" _ (S (length pre))); [done| |].
  - apply lookup_flat_middle.
  - intros j Hj Hlook.
    destruct (lookup_flat_pre _ _ _ _ _ Hj Hlook) as [?|Hin]; [done|].
    by apply (proj1 (Forall_forall _ _) Hpre) in Hin.
Qed.

(** The second pass: products and quotients, once no power is left. *)
Lemma selects_muldiv (terms : list (pyval V)) pre o post :
  Forall (fun o => is_operator o && negb (is_pow o) = true)
         (pre ++ o :: post) ->
  Forall (fun o => is_muldiv o = false) pre -> is_muldiv o = true ->
  arith_step terms ("" :: (pre ++ o :: post) ++ [""])
  = Some (apply_binop (op_method o) (S (length pre)) terms
            ("" :: (pre ++ o :: post) ++ [""])).
Proof.
  intros Hall Hpre Ho. unfold arith_step.
  rewrite (index_absent "^").
  2:{ intros j Hlook.
      destruct (lookup_flat_all _ _ _ Hlook) as [?|Hin]; [done|].
      by apply (proj1 (Forall_forall _ _) Hall) in Hin. }
  assert (Hcase : o = "*" \/ o = "/").
  { unfold is_muldiv in Ho. apply orb_true_iff in Ho as [Ho|Ho];
      apply String.eqb_eq in Ho; auto. }
  rewrite (muldiv_step_leftmost terms _ (S (length pre)) o).
  - by destruct Hcase as [-> | ->].
  - apply lookup_flat_middle.
  - done.
  - intros j Hj. split; intros Hlook;
      (destruct (lookup_flat_pre _ _ _ _ _ Hj Hlook) as [?|Hin]; [done|]);
      by apply (proj1 (Forall_forall _ _) Hpre) in Hin.
Qed.

(** The third pass: sums and differences, once nothing else is left. *)
Lemma selects_addsub (terms : list (pyval V)) pre o post :
  Forall (fun o => is_addsub o = true) (pre ++ o :: post) ->
  Forall (fun o => is_addsub o = false) pre -> is_addsub o = true ->
  arith_step terms ("" :: (pre ++ o :: post) ++ [""])
  = Some (apply_binop (op_method o) (S (length pre)) terms
            ("" :: (pre ++ o :: post) ++ [""])).
Proof.
  intros Hall Hpre Ho. unfold arith_step, muldiv_step.
  assert (Hnone : forall tok, is_addsub tok = false -> tok <> "" ->
            forall j, ("" :: (pre ++ o :: post) ++ [""]) !! j <> Some tok).
  { intros tok Htok Hne j Hlook.
    destruct (lookup_flat_all _ _ _ Hlook) as [?|Hin]; [done|].
    apply (proj1 (Forall_forall _ _) Hall) in Hin. congruence. }
  rewrite (index_absent "^"), (index_absent "*"), (index_absent "/")
    by (by apply Hnone).
  assert (Hcase : o = "+" \/ o = "-").
  { unfold is_addsub in Ho. apply orb_true_iff in Ho as [Ho|Ho];
      apply String.eqb_eq in Ho; auto. }
  rewrite (addsub_step_leftmost terms _ (S (length pre)) o).
  - by destruct Hcase as [-> | ->].
  - apply lookup_flat_middle.
  - done.
  - intros j Hj. split; intros Hlook;
      (destruct (lookup_flat_pre _ _ _ _ _ Hj Hlook) as [?|Hin]; [done|]);
      by apply (proj1 (Forall_forall _ _) Hpre) in Hin.
Qed.

Lemma filter_level_none (lvl : string -> bool) interior :
  Forall (fun o => lvl o = true) interior ->
  filter (fun o => lvl o = false) interior = [].
Proof.
  induction 1 as [|o interior Ho _ IH]; [done|].
  rewrite filter_cons. case_decide; [congruence|done].
Qed.

Lemma operator_levels (o : string) :
  is_operator o = true ->
  is_pow o = false -> is_muldiv o = false -> is_addsub o = true.
Proof.
  intros [-> | [-> | [-> | [-> | ->]]]]%is_operator_cases; done.
Qed.
End Passes.

Lemma flat_evals_by_precedence (V : Type) (E : SymbolicEngine V)
    (ts : list (Term V)) (interior : list string) :
  length ts = S (length interior) ->
  Forall (fun o => is_operator o = true) interior ->
  exists t,
    eval_by_precedence ts interior = Some t /\
    evals (Some <$> ts) ("" :: interior ++ [""]) (Return (Some t)).
Proof.
  intros Hlen Hall. unfold eval_by_precedence.
  destruct (reduce_level_tokens is_pow ts interior Hlen) as [Ho1 Hl1].
  destruct (reduce_level is_pow ts interior) as [ts1 os1] eqn:H1.
  simpl in Ho1, Hl1.
  destruct (reduce_level_tokens is_muldiv ts1 os1 Hl1) as [Ho2 Hl2].
  destruct (reduce_level is_muldiv ts1 os1) as [ts2 os2] eqn:H2.
  simpl in Ho2, Hl2.
  destruct (reduce_level_tokens is_addsub ts2 os2 Hl2) as [Ho3 Hl3].
  destruct (reduce_level is_addsub ts2 os2) as [ts3 os3] eqn:H3.
  simpl in Ho3, Hl3.
  assert (Hall1 : Forall (fun o => is_operator o && negb (is_pow o) = true)
                    os1).
  { rewrite Ho1. apply Forall_forall. intros o [Hp Hin]%list_elem_of_filter.
    apply (proj1 (Forall_forall _ _) Hall) in Hin. by rewrite Hin, Hp. }
  assert (Hall2 : Forall (fun o => is_addsub o = true) os2).
  { rewrite Ho2. apply Forall_forall. intros o [Hm Hin]%list_elem_of_filter.
    apply (proj1 (Forall_forall _ _) Hall1) in Hin.
    apply andb_true_iff in Hin as [Hop Hp]. apply negb_true_iff in Hp.
    by apply operator_levels. }
  assert (Hos3 : os3 = []).
  { rewrite Ho3. by apply filter_level_none. }
  clear Ho3. subst os3. destruct ts3 as [|t [|? ?]]; try done.
  exists t. split; [done|].
  apply (pass_sim is_pow is_operator (fun o Ho => Ho) selects_pow
           (length interior)); try done.
  rewrite H1. cbn [fst snd].
  apply (pass_sim is_muldiv (fun o => is_operator o && negb (is_pow o))
           (fun o Ho => proj1 (proj1 (andb_true_iff _ _) Ho)) selects_muldiv
           (length os1)); try done.
  rewrite H2. cbn [fst snd].
  apply (pass_sim is_addsub is_addsub) with (n := length os2); try done.
  - intros o Ho. unfold is_addsub in Ho. unfold is_operator.
    apply orb_true_iff in Ho as [Ho|Ho]; rewrite Ho;
      by rewrite ?orb_true_r.
  - apply selects_addsub.
  - rewrite H3. cbn [fst snd]. apply evals_singleton.
Qed.

(** C1. [combine_terms] realizes the usual precedence of the operators,
    with the leftmost operation first within a level. On the terms
    [2, 3, 4] with operations ['', '+', '*', ''] it returns the term 14:
    the product is taken before the sum. In general, on terms with one
    of [^], [*], [/], [+], [-] between any two neighbours (the empty
    token first and last), what it returns is what the operations of
    [Term] give when every [^] is applied first, then every [*] and [/],
    then every [+] and [-], each level from left to right: a [*] or [/]
    is applied before any [+] or [-], wherever they stand. (The
    operations of the engine are functions here; an exception raised
    inside the engine is outside the model.) *)
Theorem C1_precedence :
  combine_terms [IntEngine.num 2; IntEngine.num 3; IntEngine.num 4]
                [""; "+"; "*"; ""] = Some (Return (IntEngine.num 14))
  /\
  forall (V : Type) (E : SymbolicEngine V) (ts : list (Term V))
         (interior : list string),
    length ts = S (length interior) ->
    Forall (fun o => is_operator o = true) interior ->
    exists t,
      eval_by_precedence ts interior = Some t /\
      combine_terms (Some <$> ts) ("" :: interior ++ [""])
      = Some (Return (Some t)).
Proof.
  split; [reflexivity|].
  intros V E ts interior Hlen Hall.
  destruct (flat_evals_by_precedence V E ts interior Hlen Hall)
    as (t & Hval & Hev).
  exists t. split; [exact Hval|]. by apply evals_combine_terms.
Qed.

Lemma C1_precedence_witness :
  combine_terms
    (Some <$> [Term_init 10 true; Term_init 2 true; Term_init 3 true;
               Term_init 2 true; Term_init 4 true])
    ("" :: ["-"; "+"; "^"; "*"] ++ [""])
  = Some (Return (IntEngine.num 44)).
Proof.
  destruct (proj2 C1_precedence Z IntEngine.engine
              [Term_init 10 true; Term_init 2 true; Term_init 3 true;
               Term_init 2 true; Term_init 4 true]
              ["-"; "+"; "^"; "*"])
    as (t & Hval & Hcombine).
  - reflexivity.
  - repeat constructor.
  - vm_compute in Hval. injection Hval as <-. exact Hcombine.
Defined.

(** ** A problem from an expression or an equation *)

Section ProblemOf.
Context {V : Type} `{SymbolicEngine V} `{SolverEngine V}.

(** Both question renderers on an expression that holds terms and at
    least as many tokens. *)
Lemma questions_return (h : heap) (e : Expression V)
    (ts : list (Term V)) (pre : list string) (olast : string) :
  unreduced_terms e = Some <$> ts ->
  deref h (operations e) = pre ++ [olast] ->
  (length ts <= S (length pre))%nat ->
  str_question_from_expression h e
    = Return (cull_signs (interleave (fun o => o) str_term
                            (pre ++ [olast]) ts +:+ olast))
  /\
  latex_question_from_expression h e
    = Return (cull_signs (interleave convert_op_to_latex latex_term
                            (pre ++ [olast]) ts
                          +:+ convert_op_to_latex olast)).
Proof.
  intros Hu Hops Hlen.
  unfold str_question_from_expression, latex_question_from_expression.
  rewrite Hu, Hops.
  by rewrite !question_text_closed by (rewrite length_app; simpl; lia).
Qed.

(** The middle signs that [Equation.__init__] accepts are left as they
    are. *)
Lemma convert_middle_sign (sign : string) :
  sign ∈ ["="; ">"; "<"; ">="; "<="] -> convert_op_to_latex sign = sign.
Proof.
  intros Hin. repeat (apply elem_of_cons in Hin as [->|Hin]; [done|]).
  by apply elem_of_nil in Hin.
Qed.
End ProblemOf.

(** [Problem(e)] for an expression whose unreduced terms are terms and
    whose list of operations is not empty and not shorter than the
    terms. Both questions are rendered without an error, so what
    [Problem(e)] does is decided by [combine_terms] on the reduced terms
    alone: it raises what [combine_terms] raises, raises
    [AttributeError] when [combine_terms] returns [None], and otherwise
    holds the two questions and the two renderings of the term
    returned. *)
Theorem problem_from_expression (V : Type) (E : SymbolicEngine V)
    (S : SolverEngine V) (h : heap) (e : Expression V)
    (ts : list (Term V)) (pre : list string) (olast : string) :
  unreduced_terms e = Some <$> ts ->
  deref h (operations e) = pre ++ [olast] ->
  (length ts <= Datatypes.S (length pre))%nat ->
  Problem_init h (DExpression e)
  = match combine_reduced h e with
    | None => None
    | Some (Raise x) => Some (Raise x)
    | Some (Return None) => Some (Raise AttributeError)
    | Some (Return (Some t)) =>
        Some (Return
          {| latex_question :=
               of_string (cull_signs
                 (interleave convert_op_to_latex latex_term
                    (pre ++ [olast]) ts +:+ convert_op_to_latex olast));
             latex_solution := of_string (latex_term t);
             str_question :=
               of_string (cull_signs
                 (interleave (fun o => o) str_term (pre ++ [olast]) ts
                  +:+ olast));
             str_solution := of_string (str_term t) |})
    end.
Proof.
  intros Hu Hops Hlen.
  destruct (questions_return h e ts pre olast Hu Hops Hlen) as [Hsq Hlq].
  unfold Problem_init, str_solution_from_expression,
    latex_solution_from_expression, solution_from_expression.
  rewrite Hsq, Hlq. cbn [and_then].
  by destruct (combine_reduced h e) as [[[t|]|x]|].
Qed.

Lemma problem_from_expression_witness :
  exists p,
    Problem_init [[""; "+"; ""]]
      (DExpression (mkExpression [IntEngine.num 1; IntEngine.num 2]
                                 [IntEngine.num 1; IntEngine.num 2] 0%nat))
      = Some (Return p) /\
    str_question p = of_string "1+2" /\ str_solution p = of_string "3".
Proof.
  eexists. split; [|split].
  - rewrite (problem_from_expression Z IntEngine.engine IntEngine.solver
               [[""; "+"; ""]] _ [Term_init 1 true; Term_init 2 true]
               [""; "+"] "").
    + reflexivity.
    + reflexivity.
    + reflexivity.
    + simpl; lia.
  - reflexivity.
  - reflexivity.
Defined.

(** The questions of an equation whose two sides hold terms and at
    least as many tokens. Each side is rendered and passed through the
    four rewrites on its own, and the middle sign is put between the two
    texts: as it is in the plain question, through
    [convert_op_to_latex] in the LaTeX question, which leaves each of
    the five signs that [Equation.__init__] accepts as it is (so [>=]
    is not turned into [\geq]). [Problem(equation)] then returns or
    raises as the two solution renderers do, the plain one first. *)
Theorem problem_from_equation (V : Type) (E : SymbolicEngine V)
    (S : SolverEngine V) (h : heap) (e : Equation V)
    (tl tr : list (Term V)) (prel prer : list string) (ol or : string) :
  unreduced_terms (lhs e) = Some <$> tl ->
  deref h (operations (lhs e)) = prel ++ [ol] ->
  (length tl <= Datatypes.S (length prel))%nat ->
  unreduced_terms (rhs e) = Some <$> tr ->
  deref h (operations (rhs e)) = prer ++ [or] ->
  (length tr <= Datatypes.S (length prer))%nat ->
  let str_q :=
    cull_signs (interleave (fun o => o) str_term (prel ++ [ol]) tl +:+ ol)
    +:+ middle_sign e
    +:+ cull_signs (interleave (fun o => o) str_term (prer ++ [or]) tr
                    +:+ or) in
  let latex_q :=
    cull_signs (interleave convert_op_to_latex latex_term (prel ++ [ol]) tl
                +:+ convert_op_to_latex ol)
    +:+ convert_op_to_latex (middle_sign e)
    +:+ cull_signs (interleave convert_op_to_latex latex_term
                      (prer ++ [or]) tr
                    +:+ convert_op_to_latex or) in
  str_question_from_equation h e = Return str_q
  /\
  latex_question_from_equation h e = Return latex_q
  /\
  (middle_sign e ∈ ["="; ">"; "<"; ">="; "<="] ->
   convert_op_to_latex (middle_sign e) = middle_sign e)
  /\
  Problem_init h (DEquation e)
  = match str_solution_from_equation h e with
    | None => None
    | Some (Raise x) => Some (Raise x)
    | Some (Return str_s) =>
        match latex_solution_from_equation h e with
        | None => None
        | Some (Raise x) => Some (Raise x)
        | Some (Return latex_s) =>
            Some (Return {| latex_question := of_string latex_q;
                            latex_solution := latex_s;
                            str_question := of_string str_q;
                            str_solution := str_s |})
        end
    end.
Proof.
  intros Hul Hol Hll Hur Hor Hlr str_q latex_q.
  destruct (questions_return h (lhs e) tl prel ol Hul Hol Hll) as [Hsl Hql].
  destruct (questions_return h (rhs e) tr prer or Hur Hor Hlr) as [Hsr Hqr].
  assert (Hsq : str_question_from_equation h e = Return str_q).
  { unfold str_question_from_equation. by rewrite Hsl, Hsr. }
  assert (Hlq : latex_question_from_equation h e = Return latex_q).
  { unfold latex_question_from_equation. by rewrite Hql, Hqr. }
  split; [exact Hsq|]. split; [exact Hlq|].
  split; [apply convert_middle_sign|].
  unfold Problem_init. rewrite Hsq, Hlq. cbn [and_then].
  by destruct (str_solution_from_equation h e) as [[str_s|x]|].
Qed.

Lemma problem_from_equation_witness :
  let e := mkEquation
             (mkExpression [IntEngine.num 1; IntEngine.num 2]
                           [IntEngine.num 1; IntEngine.num 2] 0%nat)
             (mkExpression [IntEngine.num 3] [IntEngine.num 3] 1%nat)
             ">=" 0 in
  str_question_from_equation [[""; "*"; ""]; [""; ""]] e = Return "1*2>=3"
  /\
  latex_question_from_equation [[""; "*"; ""]; [""; ""]] e
    = Return "1\cdot2>=3".
Proof.
  intros e.
  destruct (problem_from_equation Z IntEngine.engine IntEngine.solver
              [[""; "*"; ""]; [""; ""]] e
              [Term_init 1 true; Term_init 2 true] [Term_init 3 true]
              [""; "*"] [""] "" "")
    as (Hsq & Hlq & _); try reflexivity.
  - simpl; lia.
  - simpl; lia.
  - split; [exact Hsq|exact Hlq].
Defined.

(** ** The result of a closure operator as an operand *)

(** The parentheses that a closure operator puts around its result are
    the first and the last token of the merged list, the two tokens that
    the next closure operator leaves out. With [p], [q], [s] the single
    terms 2, 3, 4 under ['', '']: [p + q] combines to 5, but
    [(p + q) * s] has the operations ['(', ')+(', ')*(', ')'], which read
    as (2)+(3)*(4), and combines to 14 where the product of 5 and 4 is
    20. *)
Theorem closure_result_loses_parentheses :
  let h : heap := [[""; ""]; [""; ""]; [""; ""]] in
  let p := mkExpression [IntEngine.num 2] [IntEngine.num 2] 0%nat in
  let q := mkExpression [IntEngine.num 3] [IntEngine.num 3] 1%nat in
  let s := mkExpression [IntEngine.num 4] [IntEngine.num 4] 2%nat in
  exists h1 r h2 e,
    Expression_add h p q = (h1, Return r) /\
    deref h1 (operations r) = ["("; ")+("; ")"] /\
    combine_reduced h1 r = Some (Return (IntEngine.num 5)) /\
    combine_reduced h1 s = Some (Return (IntEngine.num 4)) /\
    Expression_mul h1 r s = (h2, Return e) /\
    deref h2 (operations e) = ["("; ")+("; ")*("; ")"] /\
    combine_reduced h2 e = Some (Return (IntEngine.num 14)) /\
    py_binop Term_mul (IntEngine.num 5) (IntEngine.num 4)
      = Return (IntEngine.num 20).
Proof.
  eexists _, _, _, _. repeat (split; [reflexivity|]). reflexivity.
Qed.
